(** * grate: buffer objects, framebuffers and the file wrapper registry

    A shallow embedding of [src/libgrate/grate.c] (buffer objects and
    framebuffers) and of the wrapper utilities (the table of wrapped files,
    the list of open files, the chip identification), with the properties
    of their resource life cycle. *)

From Stdlib Require Import Ascii.
From stdpp Require Import gmap strings list.

(* ===================================================================== *)
(** * Part I: the file wrapper registry *)
(* ===================================================================== *)

(** Addresses of heap-allocated structs.  A [struct file *] is the address
    of the struct; the intrusive list [files] links the structs themselves,
    so the list of open files is modelled as the list of the structs, each
    carrying its own address. *)
Definition addr := nat.

(** Modelled from the spec: [struct file_ops] and [struct file] are declared
    in [utils.h], which is not part of the sources at hand.  The fields are
    those the functions below use: [file->fd], [file->dup_fds[]],
    [file->path], [file->ops->release].  The array [dup_fds] is a list whose
    length is its [ARRAY_SIZE]; [release] says whether the callback pointer
    is set. *)
Record file_ops := { release : bool }.

Record file := {
  f_self : addr;
  f_fd : Z;
  f_dup_fds : list Z;
  f_path : string;
  f_ops : option file_ops;
}.

Definition set_fd (v : Z) (f : file) : file :=
  {| f_self := f_self f; f_fd := v; f_dup_fds := f_dup_fds f;
     f_path := f_path f; f_ops := f_ops f |}.

Definition set_dup_fds (slots : list Z) (f : file) : file :=
  {| f_self := f_self f; f_fd := f_fd f; f_dup_fds := slots;
     f_path := f_path f; f_ops := f_ops f |}.

(** [struct file_table_entry]: a path and the constructor registered for it.
    The constructor returns the new struct or NULL. *)
Record file_table_entry := {
  e_path : string;
  e_open : string → Z → option file;
}.

(** What the functions do to the outside: lines written to [stderr], lines
    written through [PRINTF], and calls of a release callback. *)
Inductive event :=
| Stderr (msg : string)
| Printf (msg : string)
| Release (file : addr).

(** The process-wide state of the wrapper: the two static lists, the
    verbosity flag and the record of the output produced so far. *)
Record registry := {
  file_table : list file_table_entry;
  files : list file;
  libwrap_verbose : bool;
  output : list event;
}.

Definition nl : string := String (Ascii.ascii_of_nat 10) EmptyString.

(** Modelled from the spec: the macro [PRINTF] comes from [utils.h]; the
    verbosity flag gates the diagnostic output. *)
Definition PRINTF (verbose : bool) (msg : string) : list event :=
  if verbose then [Printf msg] else [].

(** [file_put]: calls [file->ops->release(file)] when all three pointers
    are set. *)
Definition file_put (file : option file) : list event :=
  match file with
  | None => []
  | Some f =>
      match f_ops f with
      | None => []
      | Some o => if release o then [Release (f_self f)] else []
      end
  end.

(** [file_open]: the walk over [file_table]. The result is [None] when no
    entry has the path, and otherwise what the constructor of the first such
    entry returned. *)
Fixpoint file_open_scan (table : list file_table_entry) (path : string) (fd : Z)
  : option (option file) :=
  match table with
  | [] => None
  | entry :: rest =>
      if String.eqb (e_path entry) path
      then Some (e_open entry path fd)
      else file_open_scan rest path fd
  end.

Definition file_open (path : string) (fd : Z) (s : registry)
  : option file * registry :=
  match file_open_scan (file_table s) path fd with
  | Some None =>
      (None,
       {| file_table := file_table s; files := files s;
          libwrap_verbose := libwrap_verbose s;
          output := output s ++ [Stderr ("failed to wrap `" +:+ path +:+ "'" +:+ nl)] |})
  | Some (Some file) =>
      let file := set_dup_fds (map (λ _, (-1)%Z) (f_dup_fds file)) file in
      (Some file,
       {| file_table := file_table s; files := files s ++ [file];
          libwrap_verbose := libwrap_verbose s;
          output := output s |})
  | None =>
      (None,
       {| file_table := file_table s; files := files s;
          libwrap_verbose := libwrap_verbose s;
          output := output s ++
            (if libwrap_verbose s
             then [Stderr ("no wrapper for file `" +:+ path +:+ "'" +:+ nl)]
             else []) |})
  end.

(** [file_lookup]: the first open file whose primary descriptor or one of
    whose slots is [fd]. *)
Fixpoint file_lookup_walk (l : list file) (fd : Z) : option file :=
  match l with
  | [] => None
  | file :: rest =>
      if (f_fd file =? fd)%Z then Some file
      else if existsb (λ d, (d =? fd)%Z) (f_dup_fds file) then Some file
      else file_lookup_walk rest fd
  end.

Definition file_lookup (fd : Z) (s : registry) : option file :=
  file_lookup_walk (files s) fd.

(** [file_find]: the first open file with that path. *)
Fixpoint file_find_walk (l : list file) (path : string) : option file :=
  match l with
  | [] => None
  | file :: rest =>
      if String.eqb (f_path file) path then Some file
      else file_find_walk rest path
  end.

Definition file_find (path : string) (s : registry) : option file :=
  file_find_walk (files s) path.

(** The inner loop of the second half of [file_close]: the first slot that
    holds [fd] is set to -1; [None] when no slot holds it. *)
Fixpoint clear_slot (fd : Z) (slots : list Z) : option (list Z) :=
  match slots with
  | [] => None
  | d :: rest =>
      if (d =? fd)%Z then Some ((-1)%Z :: rest)
      else cons d <$> clear_slot fd rest
  end.

(** [file_close]: the walk over [files].  Every branch that matched returns,
    so the walk goes on to the next struct only when neither the primary
    descriptor nor a slot was [fd]. *)
Fixpoint file_close_walk (verbose : bool) (fd : Z) (l : list file)
  : list file * list event :=
  match l with
  | [] => ([], [])
  | file :: rest =>
      if (f_fd file =? fd)%Z then
        let file := set_fd (-1) file in
        if existsb (λ d, (0 <=? d)%Z) (f_dup_fds file)
        then (file :: rest, [])
        else (rest,
              PRINTF verbose ("closing " +:+ f_path file +:+ nl)
                ++ file_put (Some file))
      else
        match clear_slot fd (f_dup_fds file) with
        | Some slots =>
            let file := set_dup_fds slots file in
            if negb (f_fd file =? -1)%Z then (file :: rest, [])
            else if existsb (λ d, negb (d =? -1)%Z) slots
            then (file :: rest, [])
            else (rest,
                  PRINTF verbose ("closing " +:+ f_path file +:+ nl)
                    ++ file_put (Some file))
        | None =>
            let '(rest', out) := file_close_walk verbose fd rest in
            (file :: rest', out)
        end
  end.

Definition file_close (fd : Z) (s : registry) : registry :=
  let '(l, out) := file_close_walk (libwrap_verbose s) fd (files s) in
  {| file_table := file_table s; files := l;
     libwrap_verbose := libwrap_verbose s;
     output := output s ++ out |}.

(** [file_dup] on the struct it is given: the first slot below zero takes
    [fd]; [None] when every slot is zero or more. *)
Fixpoint fill_slot (fd : Z) (slots : list Z) : option (list Z) :=
  match slots with
  | [] => None
  | d :: rest =>
      if (d <? 0)%Z then Some (fd :: rest)
      else cons d <$> fill_slot fd rest
  end.

Definition file_dup (verbose : bool) (f : file) (fd : Z)
  : file * list event :=
  match fill_slot fd (f_dup_fds f) with
  | Some slots =>
      (set_dup_fds slots f,
       PRINTF verbose ("duplicating " +:+ f_path f +:+ nl))
  | None => (f, [Stderr ("out of FD slots" +:+ nl)])
  end.

(** [file_dup] seen from the registry: the struct at address [a], which is
    one of the open files, is the one that changes. *)
Fixpoint file_dup_walk (verbose : bool) (a : addr) (fd : Z) (l : list file)
  : list file * list event :=
  match l with
  | [] => ([], [])
  | file :: rest =>
      if (f_self file =? a)%nat then
        let '(file', out) := file_dup verbose file fd in (file' :: rest, out)
      else
        let '(rest', out) := file_dup_walk verbose a fd rest in
        (file :: rest', out)
  end.

Definition file_dup_at (a : addr) (fd : Z) (s : registry) : registry :=
  let '(l, out) := file_dup_walk (libwrap_verbose s) a fd (files s) in
  {| file_table := file_table s; files := l;
     libwrap_verbose := libwrap_verbose s;
     output := output s ++ out |}.

(** Closing a list of descriptors one after the other. *)
Definition close_all (fds : list Z) (s : registry) : registry :=
  foldl (λ s fd, file_close fd s) s fds.

(** The live references of an open file: its primary descriptor unless it
    was cleared, and the slots that are not -1. *)
Definition refs (f : file) : list Z :=
  (if (f_fd f =? -1)%Z then [] else [f_fd f])
    ++ filter (λ d, d ≠ (-1)%Z) (f_dup_fds f).

(** The number of calls of the release callback of the struct at [a]. *)
Definition is_release (a : addr) (e : event) : bool :=
  match e with
  | Release b => (a =? b)%nat
  | _ => false
  end.

Definition release_count (a : addr) (out : list event) : nat :=
  length (List.filter (is_release a) out).

(** Descriptors are handed out by the system: a live descriptor names one
    reference of one open file, a slot holds a descriptor or -1, and two
    open structs have different addresses. *)
Record registry_wf (l : list file) : Prop := {
  wf_addrs : NoDup (f_self <$> l);
  wf_refs : NoDup (l ≫= refs);
  wf_slots : Forall (λ f, Forall (λ d, (-1 ≤ d)%Z) (f_dup_fds f)) l;
}.

(* ===================================================================== *)
(** * Part II: chip identification *)
(* ===================================================================== *)

(** Modelled from the spec: [enum chip_id] is declared in [utils.h]; these
    are the enumerators the two functions name. *)
Inductive chip_id :=
| TEGRA_INVALID
| TEGRA_UNKNOWN
| TEGRA20
| TEGRA30
| TEGRA114.

Global Instance chip_id_eq_dec : EqDecision chip_id.
Proof. solve_decision. Defined.

(** What [fopen] and [fscanf "%d"] find at a path: no file that can be
    opened, a file that does not start with a number, or a number. *)
Inductive sysfs_file :=
| NoFile
| NoNumber
| Number (n : Z).

Definition sysfs := string → sysfs_file.

Inductive chip_event :=
| Fopen (path : string)
| Diag (msg : string).

(** The static variable [id] of [tegra_chip_id], with the record of the
    files opened and of the diagnostics written. *)
Record chip_state := {
  static_id : chip_id;
  chip_trace : list chip_event;
}.

Definition chip_initial : chip_state :=
  {| static_id := TEGRA_INVALID; chip_trace := [] |}.

(** [read_chip_id]: the number lands in an [unsigned int] that starts at 0
    and keeps that value when [fscanf] fails. *)
Definition read_chip_id (fs : sysfs) (path : string)
  : chip_id * list chip_event :=
  match fs path with
  | NoFile => (TEGRA_INVALID, [Fopen path])
  | content =>
      let '(id, diag) :=
        match content with
        | Number n => ((n mod 2 ^ 32)%Z, [])
        | _ => (0%Z, [Diag ("fscanf failed for " +:+ path +:+ nl)])
        end in
      (if (id =? 0x20)%Z then TEGRA20
       else if (id =? 0x30)%Z then TEGRA30
       else if (id =? 0x35)%Z then TEGRA114
       else TEGRA_UNKNOWN,
       Fopen path :: diag)
  end.

Definition chip_paths : list string :=
  [ "/sys/module/tegra_fuse/parameters/tegra_chip_id";
    "/sys/module/fuse/parameters/tegra_chip_id";
    "/sys/devices/soc0/soc_id" ].

(** The loop of [tegra_chip_id]: the first path whose read is not
    [TEGRA_INVALID] decides. *)
Fixpoint tegra_chip_id_scan (fs : sysfs) (paths : list string)
  : option chip_id * list chip_event :=
  match paths with
  | [] => (None, [])
  | p :: rest =>
      let '(id, ev) := read_chip_id fs p in
      if decide (id ≠ TEGRA_INVALID) then (Some id, ev)
      else
        let '(r, ev') := tegra_chip_id_scan fs rest in
        (r, ev ++ ev')
  end.

Definition tegra_chip_id (fs : sysfs) (st : chip_state)
  : chip_id * chip_state :=
  if decide (static_id st ≠ TEGRA_INVALID) then (static_id st, st)
  else
    match tegra_chip_id_scan fs chip_paths with
    | (Some id, ev) =>
        (id, {| static_id := id; chip_trace := chip_trace st ++ ev |})
    | (None, ev) =>
        (TEGRA_UNKNOWN,
         {| static_id := TEGRA_UNKNOWN;
            chip_trace := chip_trace st ++ ev
              ++ [Diag ("failed to identify SoC version" +:+ nl)] |})
    end.

(** Further calls, each with the files as they are at that time. *)
Fixpoint tegra_chip_id_calls (fss : list sysfs) (st : chip_state)
  : list chip_id * chip_state :=
  match fss with
  | [] => ([], st)
  | fs :: rest =>
      let '(v, st') := tegra_chip_id fs st in
      let '(vs, st'') := tegra_chip_id_calls rest st' in
      (v :: vs, st'')
  end.

(* ===================================================================== *)
(** * Part III: buffer objects and framebuffers (grate.c) *)
(* ===================================================================== *)

(** Modelled from the spec: the host1x library ([host1x_bo_create],
    [host1x_bo_mmap], [host1x_bo_invalidate], [host1x_bo_free],
    [host1x_framebuffer_create], [host1x_framebuffer_free]) and the C
    allocator are outside the sources at hand.  They are the external
    allocator of the design: create gives a handle on a backing object of
    the size asked for or fails, mmap gives a pointer into the backing
    object or fails and the mapping persists, invalidate flushes a range,
    free releases the object. *)
Record host1x_bo := {
  hb_data : list Byte.byte;
  hb_mapped : bool;
}.

Record host1x_framebuffer := {
  hfb_width : Z;
  hfb_height : Z;
  hfb_format : Z;
  hfb_flags : Z;
}.

(** The world the library acts on: the live blocks of the C heap, the live
    backing objects and host1x framebuffers by handle, the outcome of the
    fallible external calls to come (in call order; a call past the end of
    the list succeeds), the content of fresh memory, and the records of the
    ranges flushed and of the error lines written. *)
Record world := {
  heap : gset addr;
  bos : gmap nat host1x_bo;
  fbs : gmap nat host1x_framebuffer;
  fate : list bool;
  junk : nat → Byte.byte;
  flushed : list (nat * Z * Z);
  errors : list string;
}.

Definition set_heap (v : gset addr) (w : world) : world :=
  {| heap := v; bos := bos w; fbs := fbs w; fate := fate w; junk := junk w;
     flushed := flushed w; errors := errors w |}.
Definition set_bos (v : gmap nat host1x_bo) (w : world) : world :=
  {| heap := heap w; bos := v; fbs := fbs w; fate := fate w; junk := junk w;
     flushed := flushed w; errors := errors w |}.
Definition set_fbs (v : gmap nat host1x_framebuffer) (w : world) : world :=
  {| heap := heap w; bos := bos w; fbs := v; fate := fate w; junk := junk w;
     flushed := flushed w; errors := errors w |}.
Definition set_fate (v : list bool) (w : world) : world :=
  {| heap := heap w; bos := bos w; fbs := fbs w; fate := v; junk := junk w;
     flushed := flushed w; errors := errors w |}.
Definition set_flushed (v : list (nat * Z * Z)) (w : world) : world :=
  {| heap := heap w; bos := bos w; fbs := fbs w; fate := fate w;
     junk := junk w; flushed := v; errors := errors w |}.
Definition set_errors (v : list string) (w : world) : world :=
  {| heap := heap w; bos := bos w; fbs := fbs w; fate := fate w;
     junk := junk w; flushed := flushed w; errors := v |}.

(** Computations on the world.  [None] is a run that has no defined
    result: a use of a handle that is not live, an access outside a backing
    object. *)
Definition M (A : Type) : Type := world → option (A * world).

Global Instance M_ret : MRet M := λ A x w, Some (x, w).
Global Instance M_bind : MBind M :=
  λ A B k m w, match m w with
               | Some (x, w') => k x w'
               | None => None
               end.

(** The outcome of the next fallible external call. *)
Definition next_ok (w : world) : bool :=
  match fate w with
  | [] => true
  | b :: _ => b
  end.

(** A pointer into a mapped backing object: the handle and the byte
    offset. *)
Definition ptr : Type := nat * Z.

(** [calloc] of the C library: a fresh block, or NULL. *)
Definition calloc : M (option addr) :=
  λ w, let w' := set_fate (tail (fate w)) w in
       if next_ok w then
         let a := fresh (heap w) in
         Some (Some a, set_heap ({[a]} ∪ heap w) w')
       else Some (None, w').

(** [free] of the C library: nothing for NULL, the release of a live
    block, and no defined result for a block that is not live. *)
Definition free (p : option addr) : M unit :=
  λ w, match p with
       | None => Some (tt, w)
       | Some a =>
           if decide (a ∈ heap w)
           then Some (tt, set_heap (heap w ∖ {[a]}) w)
           else None
       end.

(** Modelled from the spec: [host1x_bo_create] (libhost1x, not in the
    sources at hand) allocates a backing object of [size] bytes, with no
    contract on its content, or fails.  The object is not mapped yet. *)
Definition host1x_bo_create (size : Z) (align : Z) : M (option nat) :=
  λ w, let w' := set_fate (tail (fate w)) w in
       if next_ok w then
         let h := fresh (dom (bos w)) in
         let b := {| hb_data := junk w <$> seq 0 (Z.to_nat size);
                     hb_mapped := false |} in
         Some (Some h, set_bos (<[h := b]> (bos w)) w')
       else Some (None, w').

(** Modelled from the spec: [host1x_bo_free] releases the backing
    allocation; it has no defined result on a handle that is not live. *)
Definition host1x_bo_free (h : nat) : M unit :=
  λ w, match bos w !! h with
       | Some _ => Some (tt, set_bos (delete h (bos w)) w)
       | None => None
       end.

(** Modelled from the spec: [host1x_bo_mmap] maps the backing object and
    gives a pointer to its first byte, or fails; the mapping persists. *)
Definition host1x_bo_mmap (h : nat) : M (option ptr) :=
  λ w, match bos w !! h with
       | Some b =>
           if next_ok w then
             Some (Some (h, 0%Z),
                   set_bos (<[h := {| hb_data := hb_data b;
                                      hb_mapped := true |}]> (bos w))
                     (set_fate (tail (fate w)) w))
           else Some (None, set_fate (tail (fate w)) w)
       | None => None
       end.

(** Modelled from the spec: [host1x_bo_invalidate] flushes a range of
    the object to the device; the range is recorded. *)
Definition host1x_bo_invalidate (h : nat) (offset size : Z) : M unit :=
  λ w, Some (tt, set_flushed (flushed w ++ [(h, offset, size)]) w).

(** Modelled from the spec: [host1x_framebuffer_create] and
    [host1x_framebuffer_free], the external framebuffer provider: a new
    live framebuffer or a failure, and its release. *)
Definition host1x_framebuffer_create (width height format flags : Z)
  : M (option nat) :=
  λ w, let w' := set_fate (tail (fate w)) w in
       if next_ok w then
         let h := fresh (dom (fbs w)) in
         let f := {| hfb_width := width; hfb_height := height;
                     hfb_format := format; hfb_flags := flags |} in
         Some (Some h, set_fbs (<[h := f]> (fbs w)) w')
       else Some (None, w').

Definition host1x_framebuffer_free (f : option nat) : M unit :=
  λ w, match f with
       | None => Some (tt, w)
       | Some h =>
           match fbs w !! h with
           | Some _ => Some (tt, set_fbs (delete h (fbs w)) w)
           | None => None
           end
       end.

(** Modelled from the spec: [grate_error] (libgrate-private.h) writes a
    diagnostic. *)
Definition grate_error (msg : string) : M unit :=
  λ w, Some (tt, set_errors (errors w ++ [msg]) w).

(** [memcpy] into a mapping and a read of [n] bytes through a pointer. *)
Definition store_bytes (off : nat) (src d : list Byte.byte)
  : list Byte.byte :=
  take off d ++ src ++ drop (off + length src) d.

Definition in_range (p : ptr) (n : Z) (b : host1x_bo) : bool :=
  hb_mapped b && (0 <=? p.2)%Z && (0 <=? n)%Z
  && (p.2 + n <=? Z.of_nat (length (hb_data b)))%Z.

Definition memcpy (dst : ptr) (src : list Byte.byte) (n : Z) : M unit :=
  λ w, match bos w !! dst.1 with
       | Some b =>
           if in_range dst n b && (n <=? Z.of_nat (length src))%Z then
             let d := store_bytes (Z.to_nat dst.2) (take (Z.to_nat n) src)
                        (hb_data b) in
             Some (tt, set_bos (<[dst.1 := {| hb_data := d;
                                              hb_mapped := hb_mapped b |}]>
                                  (bos w)) w)
           else None
       | None => None
       end.

Definition read_bytes (src : ptr) (n : Z) : M (list Byte.byte) :=
  λ w, match bos w !! src.1 with
       | Some b =>
           if in_range src n b
           then Some (take (Z.to_nat n) (drop (Z.to_nat src.2) (hb_data b)), w)
           else None
       | None => None
       end.

(** [struct grate_bo] (its fields are [bo], [size], [offset]) with the
    address of the struct, and [struct grate_framebuffer]. *)
Record grate_bo := {
  bo_self : addr;
  bo_bo : nat;
  bo_size : Z;
  bo_offset : Z;
}.

Record grate_framebuffer := {
  fb_self : addr;
  fb_front : option nat;
  fb_back : option nat;
}.

Section grate.

(** The width of [unsigned long] and [size_t] in bits, and the flag bit
    [GRATE_DOUBLE_BUFFERED] of [grate.h]. *)
Variable LONG_BIT : Z.
Variable GRATE_DOUBLE_BUFFERED : Z.

Definition ulong (x : Z) : Z := (x mod 2 ^ LONG_BIT)%Z.

Definition grate_bo_free (bo : grate_bo) : M unit :=
  host1x_bo_free (bo_bo bo);;
  free (Some (bo_self bo)).

Definition grate_bo_map (bo : grate_bo) : M (option ptr) :=
  r ← host1x_bo_mmap (bo_bo bo);
  match r with
  | None =>
      grate_error "Failed to mmap BO";;
      mret None
  | Some p => mret (Some (p.1, (p.2 + bo_offset bo)%Z))
  end.

Definition grate_bo_unmap (bo : grate_bo) (p : ptr) : M unit := mret tt.

Definition grate_bo_invalidate (bo : grate_bo) (size : Z) : M unit :=
  host1x_bo_invalidate (bo_bo bo) (bo_offset bo) size.

Definition grate_bo_create (size : Z) (flags : Z) : M (option grate_bo) :=
  bo ← calloc;
  match bo with
  | None => mret None
  | Some a =>
      h ← host1x_bo_create size 2;
      match h with
      | None => free (Some a);; mret None
      | Some h =>
          mret (Some {| bo_self := a; bo_bo := h; bo_size := size;
                       bo_offset := 0 |})
      end
  end.

Definition grate_bo_create_from_data (size : Z) (flags : Z)
    (data : list Byte.byte) : M (option grate_bo) :=
  bo ← calloc;
  match bo with
  | None => mret None
  | Some a =>
      h ← host1x_bo_create size 2;
      match h with
      | None => free (Some a);; mret None
      | Some h =>
          let bo := {| bo_self := a; bo_bo := h; bo_size := size;
                       bo_offset := 0 |} in
          map ← grate_bo_map bo;
          match map with
          | None => grate_bo_free bo;; mret None
          | Some p =>
              memcpy p data size;;
              grate_bo_invalidate bo size;;
              mret (Some bo)
          end
      end
  end.

Definition grate_wrap_bo (bo : grate_bo) (offset : Z) : M (option grate_bo) :=
  if (bo_size bo <=? offset)%Z then mret None
  else
    wrap ← calloc;
    match wrap with
    | None => mret None
    | Some a =>
        mret (Some {| bo_self := a; bo_bo := bo_bo bo;
                     bo_size := ulong (bo_size bo - offset);
                     bo_offset := ulong (bo_offset bo + offset) |})
    end.

Definition grate_framebuffer_create (width height format flags : Z)
  : M (option grate_framebuffer) :=
  fb ← calloc;
  match fb with
  | None => mret None
  | Some a =>
      front ← host1x_framebuffer_create width height format 0;
      match front with
      | None => free (Some a);; mret None
      | Some fr =>
          if decide (Z.land flags GRATE_DOUBLE_BUFFERED ≠ 0%Z) then
            back ← host1x_framebuffer_create width height format 0;
            match back with
            | None =>
                host1x_framebuffer_free (Some fr);;
                free (Some a);;
                mret None
            | Some bk =>
                mret (Some {| fb_self := a; fb_front := Some fr;
                             fb_back := Some bk |})
            end
          else
            mret (Some {| fb_self := a; fb_front := Some fr;
                         fb_back := None |})
      end
  end.

(** A buffer object whose fields fit the machine word and whose range does
    not run past it, as all those made by [grate_bo_create] and
    [grate_wrap_bo] are. *)
Definition bo_wf (b : grate_bo) : Prop :=
  (0 ≤ bo_offset b)%Z ∧ (0 ≤ bo_size b)%Z
  ∧ (bo_offset b + bo_size b < 2 ^ LONG_BIT)%Z.

End grate.

(** The mapping of a backing object is released in a world when the
    object, if it is live, is not mapped. *)
Definition mapping_released (h : nat) (w : world) : Prop :=
  ∀ b, bos w !! h = Some b → hb_mapped b = false.

(* ===================================================================== *)
(** * Part IV: the other functions of the two files *)
(* ===================================================================== *)

(** A run that has no defined result. *)
Definition undefined {A} : M A := λ _, None.

Definition add_entry (e : file_table_entry) (s : registry) : registry :=
  {| file_table := file_table s ++ [e]; files := files s;
     libwrap_verbose := libwrap_verbose s; output := output s |}.

Definition add_output (out : list event) (s : registry) : registry :=
  {| file_table := file_table s; files := files s;
     libwrap_verbose := libwrap_verbose s; output := output s ++ out |}.

(** [file_table_register]: the loop from index [i] with [n] rounds to go.
    Each round allocates an entry with [calloc], gives up with a line on
    [stderr] when that fails, and otherwise copies [table[i]] into the
    entry and appends it to [file_table].  The array [table] is a list;
    reading past its end has no defined result. *)
Fixpoint file_table_register_from (table : list file_table_entry)
    (i n : nat) (s : registry) : M registry :=
  match n with
  | 0 => mret s
  | S n' =>
      entry ← calloc;
      match entry with
      | None => mret (add_output [Stderr ("out of memory" +:+ nl)] s)
      | Some _ =>
          match table !! i with
          | None => undefined
          | Some t =>
              file_table_register_from table (S i) n'
                (add_entry {| e_path := e_path t; e_open := e_open t |} s)
          end
      end
  end.

Definition file_table_register (table : list file_table_entry)
    (count : nat) (s : registry) : M registry :=
  file_table_register_from table 0 count s.

(** The outcomes of the next [n] fallible calls, as far as they are listed,
    are successes. *)
Definition next_succeed (n : nat) (w : world) : Prop :=
  Forall (λ b, b = true) (take n (fate w)).

(** An open file holds a descriptor as its primary descriptor or in a
    slot: this is the test of [file_lookup]. *)
Definition holds (f : file) (fd : Z) : Prop :=
  f_fd f = fd ∨ fd ∈ f_dup_fds f.

(** [file_dup] for a list of descriptors, one after the other, on the same
    struct. *)
Definition dup_all (verbose : bool) (fds : list Z) (f : file) : file :=
  foldl (λ f fd, (file_dup verbose f fd).1) f fds.

(** [grate_framebuffer_free]: the two host1x framebuffers are freed when
    the struct is not NULL, then the struct. *)
Definition grate_framebuffer_free (fb : option grate_framebuffer) : M unit :=
  match fb with
  | Some f =>
      host1x_framebuffer_free (fb_front f);;
      host1x_framebuffer_free (fb_back f);;
      free (Some (fb_self f))
  | None => free None
  end.

(** [grate_framebuffer_swap]: the struct after the call. *)
Definition grate_framebuffer_swap (fb : grate_framebuffer)
  : grate_framebuffer :=
  let tmp := fb_front fb in
  match fb_back fb with
  | Some _ =>
      {| fb_self := fb_self fb; fb_front := fb_back fb; fb_back := tmp |}
  | None => fb
  end.

(** [grate_framebuffer_save]: the host1x framebuffer and the path that are
    handed to [host1x_framebuffer_save]. *)
Definition grate_framebuffer_save (fb : grate_framebuffer) (path : string)
  : option nat * string :=
  match fb_back fb with
  | Some _ => (fb_back fb, path)
  | None => (fb_front fb, path)
  end.

Section framebuffer_data.

(** Modelled from the spec: the buffer object of the pixel buffer of a
    host1x framebuffer ([fb->pb->bo], set by libhost1x), NULL when the
    pixel buffer has none. *)
Variable pixbuf_bo : nat → option nat.

(** [grate_framebuffer_data]: the selected host1x framebuffer is
    dereferenced before any check, so a NULL one (or one that is not live)
    gives no defined result; a pixel buffer without buffer object and a
    failed mmap give NULL with a diagnostic. *)
Definition grate_framebuffer_data (fb : grate_framebuffer) (front : bool)
  : M (option ptr) :=
  match (if front then fb_front fb else fb_back fb) with
  | None => undefined
  | Some host1x_fb =>
      λ w, match fbs w !! host1x_fb with
           | None => None
           | Some _ =>
               match pixbuf_bo host1x_fb with
               | None =>
                   (grate_error "failed to get framebuffer's bo";;
                    mret None) w
               | Some fb_bo =>
                   (r ← host1x_bo_mmap fb_bo;
                    match r with
                    | None =>
                        grate_error "failed to mmap framebuffer's bo";;
                        mret None
                    | Some p => mret (Some p)
                    end) w
               end
           end
  end.

End framebuffer_data.

(** ** The hexadecimal dump

    [print_hexdump] writes to a stream; the model returns the lines it
    writes, one string a line.  The loop counters [i] and [j] are
    [unsigned int]: sums stored into them or computed in their type are
    taken modulo [2^32].  The loops are bounded by a number of rounds, so
    that a dump that never ends shows as [OutOfFuel]; a read past the end of
    the buffer is a [Fault]. *)

(** Modelled from the spec: the values that [prefix_type] is compared
    with; every other [int] takes the [default] label. *)
Inductive dump_prefix :=
| DUMP_PREFIX_NONE
| DUMP_PREFIX_OFFSET
| DUMP_PREFIX_ADDRESS
| DUMP_PREFIX_other (value : Z).

(** The result of a run with a bound on the rounds of each loop. *)
Inductive run (A : Type) :=
| Done (x : A)
| OutOfFuel
| Fault.
Arguments Done {A} x.
Arguments OutOfFuel {A}.
Arguments Fault {A}.

Definition u32 (x : Z) : Z := (x mod 2 ^ 32)%Z.

Definition hex_digit (n : Z) : Ascii.ascii :=
  match n with
  | 0 => "0" | 1 => "1" | 2 => "2" | 3 => "3" | 4 => "4" | 5 => "5"
  | 6 => "6" | 7 => "7" | 8 => "8" | 9 => "9" | 10 => "a" | 11 => "b"
  | 12 => "c" | 13 => "d" | 14 => "e" | _ => "f"
  end%Z%char.

(** ["%02x"] of an [unsigned char] and ["%08x"] of an [unsigned int]. *)
Definition hex2 (b : Byte.byte) : string :=
  let n := Z.of_N (Byte.to_N b) in
  String (hex_digit (n / 16)) (String (hex_digit (n mod 16)) EmptyString).

Definition hex8 (j : Z) : string :=
  foldr (λ k out, String (hex_digit ((j / 16 ^ k) mod 16)%Z) out)
    EmptyString [7; 6; 5; 4; 3; 2; 1; 0]%Z.

Section hexdump.
Variable isprint : Byte.byte → bool.
Variable show_pointer : Z → string.

Fixpoint hexdump_bytes (fuel : nat) (buffer : list Byte.byte)
    (size columns j i : Z) (space : string) : run (Z * string) :=
  match fuel with
  | 0 => OutOfFuel
  | S fuel =>
      if (i <? columns)%Z && (u32 (j + i) <? size)%Z then
        match buffer !! Z.to_nat (u32 (j + i)) with
        | None => Fault
        | Some b =>
            match hexdump_bytes fuel buffer size columns j (u32 (i + 1)) " " with
            | Done (i', out) => Done (i', space +:+ hex2 b +:+ out)
            | OutOfFuel => OutOfFuel
            | Fault => Fault
            end
        end
      else Done (i, EmptyString)
  end.

Fixpoint hexdump_pad (fuel : nat) (columns i : Z) : run string :=
  match fuel with
  | 0 => OutOfFuel
  | S fuel =>
      if (i <? columns)%Z then
        match hexdump_pad fuel columns (u32 (i + 1)) with
        | Done out => Done ("   " +:+ out)
        | r => r
        end
      else Done EmptyString
  end.

Fixpoint hexdump_ascii (fuel : nat) (buffer : list Byte.byte)
    (size columns j i : Z) : run string :=
  match fuel with
  | 0 => OutOfFuel
  | S fuel =>
      if (i <? columns)%Z && (u32 (j + i) <? size)%Z then
        match buffer !! Z.to_nat (u32 (j + i)) with
        | None => Fault
        | Some b =>
            match hexdump_ascii fuel buffer size columns j (u32 (i + 1)) with
            | Done out =>
                Done (String (if isprint b then Ascii.ascii_of_byte b
                              else "."%char) out)
            | r => r
            end
        end
      else Done EmptyString
  end.

Definition hexdump_prefix (prefix_type : dump_prefix) (buffer_addr j : Z)
  : string :=
  match prefix_type with
  | DUMP_PREFIX_NONE | DUMP_PREFIX_other _ => EmptyString
  | DUMP_PREFIX_OFFSET => hex8 j +:+ ": "
  | DUMP_PREFIX_ADDRESS => show_pointer (buffer_addr + j) +:+ ": "
  end.

Fixpoint hexdump_lines (fuel : nat) (prefix_type : dump_prefix)
    (prefix : option string) (buffer_addr : Z) (buffer : list Byte.byte)
    (size columns : Z) (ascii : bool) (j : Z) : run (list string) :=
  match fuel with
  | 0 => OutOfFuel
  | S fuel =>
      if (j <? size)%Z then
        match hexdump_bytes fuel buffer size columns j 0 EmptyString with
        | Done (i, hex) =>
            match hexdump_pad fuel columns i with
            | Done pad =>
                match (if ascii
                       then hexdump_ascii fuel buffer size columns j 0
                       else Done EmptyString) with
                | Done asc =>
                    match hexdump_lines fuel prefix_type prefix buffer_addr
                            buffer size columns ascii (u32 (j + columns)) with
                    | Done rest =>
                        Done ((default EmptyString prefix
                               +:+ hexdump_prefix prefix_type buffer_addr j
                               +:+ hex +:+ pad +:+ " | " +:+ asc +:+ nl)
                              :: rest)
                    | r => r
                    end
                | OutOfFuel => OutOfFuel
                | Fault => Fault
                end
            | OutOfFuel => OutOfFuel
            | Fault => Fault
            end
        | OutOfFuel => OutOfFuel
        | Fault => Fault
        end
      else Done []
  end.

Definition print_hexdump (fuel : nat) (libwrap_verbose : bool)
    (prefix_type : dump_prefix) (prefix : option string) (buffer_addr : Z)
    (buffer : list Byte.byte) (size columns : Z) (ascii : bool)
  : run (list string) :=
  if negb libwrap_verbose then Done []
  else hexdump_lines fuel prefix_type prefix buffer_addr buffer size columns
         ascii 0.

(** The pieces of a line, as functions of the bytes of its row. *)
Fixpoint hex_field (space : string) (row : list Byte.byte) : string :=
  match row with
  | [] => EmptyString
  | b :: rest => space +:+ hex2 b +:+ hex_field " " rest
  end.

Fixpoint pad_field (n : nat) : string :=
  match n with
  | 0 => EmptyString
  | S n => "   " +:+ pad_field n
  end.

Fixpoint ascii_field (row : list Byte.byte) : string :=
  match row with
  | [] => EmptyString
  | b :: rest =>
      String (if isprint b then Ascii.ascii_of_byte b else "."%char)
        (ascii_field rest)
  end.

Definition hexdump_line (prefix_type : dump_prefix) (prefix : option string)
    (buffer_addr columns : Z) (ascii : bool) (j : Z) (row : list Byte.byte)
  : string :=
  default EmptyString prefix
  +:+ hexdump_prefix prefix_type buffer_addr j
  +:+ hex_field EmptyString row
  +:+ pad_field (Z.to_nat columns - length row)
  +:+ " | " +:+ (if ascii then ascii_field row else EmptyString) +:+ nl.

(** The rows: [n] pieces of at most [columns] bytes from offset [j] on. *)
Fixpoint hexdump_rows (n : nat) (buffer : list Byte.byte) (size columns j : Z)
  : list (Z * list Byte.byte) :=
  match n with
  | 0 => []
  | S n =>
      (j, take (Z.to_nat (Z.min columns (size - j))) (drop (Z.to_nat j) buffer))
      :: hexdump_rows n buffer size columns (j + columns)
  end.

End hexdump.

(** The arguments for which the loops behave: at least one column, a size
    that the [unsigned int] counters reach without wrapping, and a buffer
    of at least [size] bytes. *)
Record hexdump_ok (buffer : list Byte.byte) (size columns : Z) : Prop := {
  ok_columns : (0 < columns)%Z;
  ok_size : (0 ≤ size)%Z;
  ok_wrap : (size + columns ≤ 2 ^ 32)%Z;
  ok_buffer : (size ≤ Z.of_nat (length buffer))%Z;
}.

(** The number of bytes on the line that starts at offset [j], and the
    number of lines from offset [j] on. *)
Definition row_len (size columns j : Z) : Z := Z.min columns (size - j).

Definition rows_left (size columns j : Z) : nat :=
  Z.to_nat ((size - j + columns - 1) / columns).

(** The width of what the prefix type puts before the bytes. *)
Definition prefix_width (prefix_type : dump_prefix) : nat :=
  match prefix_type with
  | DUMP_PREFIX_OFFSET => 10
  | _ => 0
  end.

(* ===================================================================== *)
(** * Sample states *)
(* ===================================================================== *)

(** Two open files: one with its primary descriptor 5 only, one with the
    primary descriptor 3 and the duplicates 7 and 8. *)
Definition file_a : file :=
  {| f_self := 1; f_fd := 3; f_dup_fds := [7; -1; 8; -1]%Z;
     f_path := "/dev/nvhost-ctrl"; f_ops := Some {| release := true |} |}.

Definition file_b : file :=
  {| f_self := 2; f_fd := 5; f_dup_fds := [-1; -1; -1; -1]%Z;
     f_path := "/dev/nvmap"; f_ops := Some {| release := true |} |}.

(** A file all of whose slots are taken. *)
Definition file_full : file :=
  {| f_self := 3; f_fd := 4; f_dup_fds := [10; 11; 12; 13]%Z;
     f_path := "/dev/nvhost-gr3d"; f_ops := None |}.

(** A table of three entries: a constructor that fails, and two entries
    for the same path, whose constructors leave the slots unset. *)
Definition sample_table : list file_table_entry :=
  [ {| e_path := "/dev/nvhost-ctrl"; e_open := λ _ _, None |};
    {| e_path := "/dev/nvmap";
       e_open := λ p fd, Some {| f_self := 7; f_fd := fd;
                                 f_dup_fds := [0; 0; 0; 0]%Z;
                                 f_path := p; f_ops := None |} |};
    {| e_path := "/dev/nvmap";
       e_open := λ p fd, Some {| f_self := 8; f_fd := fd;
                                 f_dup_fds := [0; 0]%Z;
                                 f_path := p; f_ops := None |} |} ].

Definition sample_registry : registry :=
  {| file_table := sample_table; files := [file_b; file_a; file_full];
     libwrap_verbose := false; output := [] |}.

(** Files of which the third candidate path holds 0x30. *)
Definition sample_sysfs : sysfs :=
  λ p, if String.eqb p "/sys/devices/soc0/soc_id" then Number 48 else NoFile.

(** An empty world in which every external call succeeds. *)
Definition sample_world : world :=
  {| heap := ∅; bos := ∅; fbs := ∅; fate := []; junk := λ _, Byte.x00;
     flushed := []; errors := [] |}.

Definition sample_data : list Byte.byte := [Byte.x01; Byte.x02; Byte.x03].

Definition sample_bo : grate_bo :=
  {| bo_self := 0; bo_bo := 0; bo_size := 8; bo_offset := 0 |}.

(** The struct that the sample table makes for [/dev/nvmap] with
    descriptor 6, after [file_open] has set its slots. *)
Definition opened_nvmap : file :=
  {| f_self := 7; f_fd := 6; f_dup_fds := [-1; -1; -1; -1]%Z;
     f_path := "/dev/nvmap"; f_ops := None |}.

(** Files of which the first candidate path is missing, the second holds
    no number and the third holds 0x20. *)
Definition sample_sysfs_fuse : sysfs :=
  λ p, if String.eqb p "/sys/module/tegra_fuse/parameters/tegra_chip_id"
       then NoFile
       else if String.eqb p "/sys/module/fuse/parameters/tegra_chip_id"
       then NoNumber
       else Number 32.

(** A double-buffered framebuffer struct. *)
Definition sample_fb : grate_framebuffer :=
  {| fb_self := 0; fb_front := Some 0; fb_back := Some 1 |}.

(** The printable characters of the C locale, a rendering of pointers, and
    five bytes to dump. *)
Definition sample_isprint (b : Byte.byte) : bool :=
  (32 <=? Z.of_N (Byte.to_N b))%Z && (Z.of_N (Byte.to_N b) <? 127)%Z.

Definition sample_pointer (p : Z) : string := "0x" +:+ hex8 p.

Definition sample_buffer : list Byte.byte :=
  [Byte.x41; Byte.x42; Byte.x43; Byte.x00; Byte.xff].

(* ===================================================================== *)
(** * Properties of the file wrapper registry *)
(* ===================================================================== *)

Section registry_facts.
Implicit Types (f h : file) (l : list file) (fd d x : Z) (slots : list Z).
Implicit Types (s : registry) (verbose : bool).

Lemma set_dup_fds_same f : set_dup_fds (f_dup_fds f) f = f.
Proof. by destruct f. Qed.

Lemma clear_slot_None fd slots : fd ∉ slots → clear_slot fd slots = None.
Proof.
  induction slots as [|d rest IH]; [done|].
  intros [Hd Hrest]%not_elem_of_cons. simpl.
  destruct (Z.eqb_spec d fd) as [->|_]; [done|].
  by rewrite IH.
Qed.

Lemma clear_slot_Some fd slots slots' :
  clear_slot fd slots = Some slots' →
  ∃ pre post, slots = pre ++ fd :: post ∧ (fd ∉ pre)
              ∧ slots' = pre ++ (-1)%Z :: post.
Proof.
  revert slots'. induction slots as [|d rest IH]; intros slots'; [done|].
  simpl. destruct (Z.eqb_spec d fd) as [->|Hne].
  - intros [= <-]. exists [], rest. split_and!; [done| |done].
    apply not_elem_of_nil.
  - destruct (clear_slot fd rest) as [r|] eqn:E; [|done].
    intros [= <-]. destruct (IH r eq_refl) as (pre & post & -> & Hpre & ->).
    exists (d :: pre), post. split_and!; [done| |done].
    apply not_elem_of_cons. split; [congruence|done].
Qed.

Lemma clear_slot_elem fd slots : fd ∈ slots → is_Some (clear_slot fd slots).
Proof.
  induction slots as [|d rest IH]; [by intros ?%elem_of_nil|].
  intros Hin. simpl. destruct (Z.eqb_spec d fd) as [->|Hne]; [by eexists|].
  apply elem_of_cons in Hin as [->|Hin]; [done|].
  destruct (IH Hin) as [r ->]. by eexists.
Qed.

Lemma fill_slot_None fd slots :
  Forall (λ x, (0 ≤ x)%Z) slots → fill_slot fd slots = None.
Proof.
  induction 1 as [|d rest Hd _ IH]; [done|]. simpl.
  destruct (Z.ltb_spec d 0); [lia|]. by rewrite IH.
Qed.

Lemma fill_slot_first fd pre d post :
  Forall (λ x, (0 ≤ x)%Z) pre → (d < 0)%Z →
  fill_slot fd (pre ++ d :: post) = Some (pre ++ fd :: post).
Proof.
  intros Hpre Hd. induction Hpre as [|p pre Hp _ IH]; simpl.
  - destruct (Z.ltb_spec d 0); [done|lia].
  - destruct (Z.ltb_spec p 0); [lia|]. by rewrite IH.
Qed.

Lemma file_open_scan_miss table path fd :
  Forall (λ e, e_path e ≠ path) table → file_open_scan table path fd = None.
Proof.
  induction 1 as [|e rest He _ IH]; [done|]. simpl.
  destruct (String.eqb_spec (e_path e) path); [done|]. exact IH.
Qed.

Lemma file_open_scan_first pre e post path fd :
  Forall (λ e', e_path e' ≠ path) pre → e_path e = path →
  file_open_scan (pre ++ e :: post) path fd = Some (e_open e path fd).
Proof.
  intros Hpre He. induction Hpre as [|e' pre He' _ IH]; simpl.
  - destruct (String.eqb_spec (e_path e) path); [done|congruence].
  - destruct (String.eqb_spec (e_path e') path); [done|]. exact IH.
Qed.

Lemma file_close_walk_unknown verbose fd l :
  (∀ f, f ∈ l →
        f_fd f ≠ fd ∧ ∀ d, d ∈ f_dup_fds f → d ≠ (-1)%Z → d ≠ fd) →
  file_close_walk verbose fd l = (l, []).
Proof.
  induction l as [|f rest IH]; intros Hall; [done|].
  destruct (Hall f) as [Hfd Hslots]; [apply list_elem_of_here|].
  simpl. destruct (Z.eqb_spec (f_fd f) fd) as [|_]; [done|].
  destruct (clear_slot fd (f_dup_fds f)) as [slots|] eqn:E.
  - apply clear_slot_Some in E as (pre & post & Hsl & _ & ->).
    assert (fd = (-1)%Z) as ->.
    { destruct (decide (fd = (-1)%Z)) as [|Hne]; [done|].
      exfalso. apply (Hslots fd); [|done..].
      rewrite Hsl. apply elem_of_app. right. apply list_elem_of_here. }
    rewrite <-Hsl, set_dup_fds_same.
    destruct (Z.eqb_spec (f_fd f) (-1)); [done|]. done.
  - rewrite IH; [done|]. intros g Hg. apply Hall. by apply list_elem_of_further.
Qed.

Lemma file_dup_walk_full verbose l1 f l2 fd :
  f_self f ∉ (f_self <$> l1) →
  file_dup_walk verbose (f_self f) fd (l1 ++ f :: l2)
  = (l1 ++ (file_dup verbose f fd).1 :: l2, (file_dup verbose f fd).2).
Proof.
  induction l1 as [|g l1 IH]; simpl.
  - intros _. rewrite Nat.eqb_refl. by destruct (file_dup verbose f fd).
  - intros [Hg Hl1]%not_elem_of_cons.
    destruct (Nat.eqb_spec (f_self g) (f_self f)); [congruence|].
    by rewrite IH.
Qed.

End registry_facts.

(** C10: closing a descriptor that is neither the primary descriptor of an
    open file nor held in an occupied slot (a slot that is not -1) of one
    changes nothing: no release callback runs, no file leaves the list of
    open files, and every primary descriptor and every slot keeps its
    value: the registry after the call is the registry before it. *)
Theorem file_close_unknown_fd_noop (fd : Z) (s : registry) :
  (∀ f, f ∈ files s →
        f_fd f ≠ fd ∧ ∀ d, d ∈ f_dup_fds f → d ≠ (-1)%Z → d ≠ fd) →
  file_close fd s = s.
Proof.
  intros Hall. unfold file_close.
  rewrite (file_close_walk_unknown _ _ _ Hall), app_nil_r.
  by destruct s.
Qed.

(** C5: [file_open] walks the table in registration order and calls the
    constructor of the first entry whose path equals the given one.  When
    that constructor fails the call returns nothing and the list of open
    files is as before; when it succeeds every slot of the new struct is
    set to -1 and the struct is appended to the list of open files; when no
    entry has the path the call returns nothing and neither the table nor
    the list of open files changes. *)
Theorem file_open_first_match (path : string) (fd : Z) (s : registry) :
  (∀ pre e post,
      file_table s = pre ++ e :: post →
      Forall (λ e', e_path e' ≠ path) pre →
      e_path e = path →
      (e_open e path fd = None →
         (file_open path fd s).1 = None
         ∧ files (file_open path fd s).2 = files s
         ∧ file_table (file_open path fd s).2 = file_table s)
      ∧ (∀ file, e_open e path fd = Some file →
           let file' := set_dup_fds (replicate (length (f_dup_fds file)) (-1)%Z) file in
           (file_open path fd s).1 = Some file'
           ∧ files (file_open path fd s).2 = files s ++ [file']
           ∧ file_table (file_open path fd s).2 = file_table s
           ∧ output (file_open path fd s).2 = output s))
  ∧ (Forall (λ e, e_path e ≠ path) (file_table s) →
       (file_open path fd s).1 = None
       ∧ files (file_open path fd s).2 = files s
       ∧ file_table (file_open path fd s).2 = file_table s).
Proof.
  split.
  - intros pre e post Htab Hpre He. unfold file_open.
    rewrite Htab, (file_open_scan_first _ _ _ _ _ Hpre He).
    split.
    + intros ->. simpl. by rewrite <-Htab.
    + intros file ->. simpl. rewrite <-Htab.
      assert (map (λ _ : Z, (-1)%Z) (f_dup_fds file)
              = replicate (length (f_dup_fds file)) (-1)%Z) as ->; [|done].
      induction (f_dup_fds file) as [|? ? IH]; [done|]. simpl. by rewrite IH.
  - intros Hmiss. unfold file_open.
    by rewrite (file_open_scan_miss _ _ _ Hmiss).
Qed.

(** C6: [file_dup] stores the new descriptor in the first slot that is
    empty (below zero): the struct after the call has the new descriptor
    in that slot and every other slot, the primary descriptor and the
    other fields as before, and it stands in the list of open files where
    the struct stood.  When every slot is occupied the call writes the
    out-of-slots line and changes nothing: the struct (its primary
    descriptor and every slot) is as before, and so are the list of open
    files and the table. *)
Theorem file_dup_first_empty_slot (verbose : bool) (f : file) (fd : Z) :
  (∀ pre d post,
      f_dup_fds f = pre ++ d :: post →
      Forall (λ x, (0 ≤ x)%Z) pre → (d < 0)%Z →
      file_dup verbose f fd
      = ({| f_self := f_self f; f_fd := f_fd f;
            f_dup_fds := pre ++ fd :: post;
            f_path := f_path f; f_ops := f_ops f |},
         PRINTF verbose ("duplicating " +:+ f_path f +:+ nl))
      ∧ ∀ s l1 l2,
          files s = l1 ++ f :: l2 → f_self f ∉ (f_self <$> l1) →
          libwrap_verbose s = verbose →
          files (file_dup_at (f_self f) fd s)
          = l1 ++ {| f_self := f_self f; f_fd := f_fd f;
                     f_dup_fds := pre ++ fd :: post;
                     f_path := f_path f; f_ops := f_ops f |} :: l2
          ∧ file_table (file_dup_at (f_self f) fd s) = file_table s
          ∧ output (file_dup_at (f_self f) fd s)
            = output s ++ PRINTF verbose ("duplicating " +:+ f_path f +:+ nl))
  ∧ (Forall (λ x, (0 ≤ x)%Z) (f_dup_fds f) →
       file_dup verbose f fd = (f, [Stderr ("out of FD slots" +:+ nl)])
       ∧ ∀ s l1 l2,
           files s = l1 ++ f :: l2 → f_self f ∉ (f_self <$> l1) →
           libwrap_verbose s = verbose →
           files (file_dup_at (f_self f) fd s) = files s
           ∧ file_table (file_dup_at (f_self f) fd s) = file_table s
           ∧ output (file_dup_at (f_self f) fd s)
             = output s ++ [Stderr ("out of FD slots" +:+ nl)]).
Proof.
  split.
  - intros pre d post Hsl Hpre Hd.
    assert (file_dup verbose f fd
            = ({| f_self := f_self f; f_fd := f_fd f;
                  f_dup_fds := pre ++ fd :: post;
                  f_path := f_path f; f_ops := f_ops f |},
               PRINTF verbose ("duplicating " +:+ f_path f +:+ nl))) as Hdup.
    { unfold file_dup. by rewrite Hsl, (fill_slot_first _ _ _ _ Hpre Hd). }
    split; [done|]. intros s l1 l2 Hfiles Hfresh <-.
    unfold file_dup_at.
    rewrite Hfiles, (file_dup_walk_full _ _ _ _ _ Hfresh), Hdup. done.
  - intros Hfull.
    assert (file_dup verbose f fd = (f, [Stderr ("out of FD slots" +:+ nl)]))
      as Hdup.
    { unfold file_dup. by rewrite (fill_slot_None _ _ Hfull). }
    split; [done|]. intros s l1 l2 Hfiles Hfresh <-.
    unfold file_dup_at.
    rewrite Hfiles, (file_dup_walk_full _ _ _ _ _ Hfresh), Hdup. done.
Qed.

Section close_facts.
Implicit Types (f h : file) (l : list file) (fd d x : Z) (slots : list Z).
Implicit Types (s : registry) (verbose : bool) (a : addr).

Lemma refs_elem f x :
  x ∈ refs f ↔ x ≠ (-1)%Z ∧ (x = f_fd f ∨ x ∈ f_dup_fds f).
Proof.
  unfold refs. rewrite elem_of_app, list_elem_of_filter.
  destruct (Z.eqb_spec (f_fd f) (-1)) as [E|E].
  - rewrite elem_of_nil. split; [intros [[]|[? ?]]; auto|].
    intros [? [->|?]]; [congruence|auto].
  - rewrite list_elem_of_singleton. split.
    + intros [->|[? ?]]; auto.
    + intros [? [->|?]]; auto.
Qed.

Lemma live_slots_ge0 slots :
  Forall (λ d, (-1 ≤ d)%Z) slots →
  existsb (λ d, (0 <=? d)%Z) slots = false ↔
  filter (λ d, d ≠ (-1)%Z) slots = [].
Proof.
  induction 1 as [|d rest Hd _ IH]; [done|]. simpl.
  destruct (Z.leb_spec 0 d).
  - rewrite filter_cons_True by lia. done.
  - rewrite filter_cons_False by lia. exact IH.
Qed.

Lemma live_slots_ne slots :
  existsb (λ d, negb (d =? -1)%Z) slots = false ↔
  filter (λ d, d ≠ (-1)%Z) slots = [].
Proof.
  induction slots as [|d rest IH]; [done|]. simpl.
  destruct (Z.eqb_spec d (-1)).
  - rewrite filter_cons_False by (intros ?; done). exact IH.
  - rewrite filter_cons_True by done. done.
Qed.

Lemma release_count_app a (o1 o2 : list event) :
  release_count a (o1 ++ o2) = release_count a o1 + release_count a o2.
Proof. unfold release_count. by rewrite List.filter_app, length_app. Qed.

Lemma release_count_PRINTF a verbose msg :
  release_count a (PRINTF verbose msg) = 0.
Proof. by destruct verbose. Qed.

Lemma release_count_file_put h :
  f_ops h = Some {| release := true |} →
  release_count (f_self h) (file_put (Some h)) = 1.
Proof.
  intros E. unfold file_put, release_count. rewrite E. simpl.
  by rewrite Nat.eqb_refl.
Qed.

(** One call of [file_close] at the struct that holds the reference. *)
Lemma file_close_walk_here verbose h rest x :
  Forall (λ d, (-1 ≤ d)%Z) (f_dup_fds h) → NoDup (refs h) → x ∈ refs h →
  ∃ h', f_self h' = f_self h ∧ f_ops h' = f_ops h
        ∧ refs h ≡ₚ x :: refs h'
        ∧ Forall (λ d, (-1 ≤ d)%Z) (f_dup_fds h')
        ∧ ((refs h' ≠ []
            ∧ file_close_walk verbose x (h :: rest) = (h' :: rest, []))
           ∨ (refs h' = []
              ∧ ∃ msg, file_close_walk verbose x (h :: rest)
                       = (rest, PRINTF verbose msg ++ file_put (Some h)))).
Proof.
  intros Hslots Hnd Hx.
  pose proof Hx as [Hx1 Hx']%refs_elem.
  simpl. destruct (Z.eqb_spec (f_fd h) x) as [E|E].
  - exists (set_fd (-1) h).
    assert (refs (set_fd (-1) h) = filter (λ d, d ≠ (-1)%Z) (f_dup_fds h))
      as Hr by done.
    assert (refs h = x :: filter (λ d, d ≠ (-1)%Z) (f_dup_fds h)) as Hr'.
    { unfold refs. destruct (Z.eqb_spec (f_fd h) (-1)); [congruence|].
      by rewrite E. }
    split_and!; [done|done|by rewrite Hr, Hr'|done|].
    rewrite Hr. simpl.
    destruct (existsb _ (f_dup_fds h)) eqn:Hex.
    + left. split; [|done]. intros Hnil.
      apply (live_slots_ge0 _ Hslots) in Hnil. congruence.
    + right. split; [by apply (live_slots_ge0 _ Hslots)|].
      eexists. unfold file_put. simpl. reflexivity.
  - destruct Hx' as [->|Hin]; [done|].
    destruct (clear_slot_elem _ _ Hin) as [slots' Hcl]. rewrite Hcl.
    apply clear_slot_Some in Hcl as (pre & post & Hsl & Hpre & ->).
    set (P := λ d : Z, d ≠ (-1)%Z).
    exists (set_dup_fds (pre ++ (-1)%Z :: post) h).
    assert (Hperm : refs h ≡ₚ x :: refs (set_dup_fds (pre ++ (-1)%Z :: post) h)).
    { unfold refs. simpl. rewrite Hsl, !filter_app.
      rewrite (filter_cons_True _ x) by done.
      rewrite (filter_cons_False _ (-1)%Z) by (intros H; by apply H).
      rewrite !app_assoc. symmetry. apply Permutation_middle. }
    assert (Forall (λ d, (-1 ≤ d)%Z) (pre ++ (-1)%Z :: post)) as Hslots'.
    { rewrite Hsl in Hslots. apply Forall_app in Hslots as [H1 H2].
      apply Forall_cons in H2 as [_ H2].
      apply Forall_app. split; [done|]. by apply Forall_cons. }
    split_and!; [done|done|done|done|].
    simpl. destruct (Z.eqb_spec (f_fd h) (-1)) as [E1|E1]; simpl.
    + assert (refs (set_dup_fds (pre ++ (-1)%Z :: post) h)
              = filter P (pre ++ (-1)%Z :: post)) as Hr.
      { unfold refs. simpl. by destruct (Z.eqb_spec (f_fd h) (-1)). }
      rewrite Hr. destruct (existsb _ (pre ++ _)) eqn:Hex.
      * left. split; [|done]. intros Hnil.
        apply live_slots_ne in Hnil. congruence.
      * right. split; [by apply live_slots_ne|].
        eexists. unfold file_put. simpl. reflexivity.
    + left. split; [|done]. unfold refs. simpl.
      by destruct (Z.eqb_spec (f_fd h) (-1)).
Qed.

(** A struct that does not hold the reference is passed over. *)
Lemma file_close_walk_skip verbose f rest x :
  x ∉ refs f → x ≠ (-1)%Z →
  file_close_walk verbose x (f :: rest)
  = (f :: (file_close_walk verbose x rest).1,
     (file_close_walk verbose x rest).2).
Proof.
  intros Hx Hm. simpl.
  destruct (Z.eqb_spec (f_fd f) x) as [E|E].
  { exfalso. apply Hx, refs_elem. auto. }
  rewrite clear_slot_None.
  - by destruct (file_close_walk verbose x rest).
  - intros Hin. apply Hx, refs_elem. auto.
Qed.

Lemma registry_wf_inv f l :
  registry_wf (f :: l) →
  registry_wf l ∧ (f_self f ∉ (f_self <$> l))
  ∧ NoDup (refs f) ∧ (∀ x, x ∈ refs f → x ∉ l ≫= refs)
  ∧ Forall (λ d, (-1 ≤ d)%Z) (f_dup_fds f).
Proof.
  intros [Ha Hr Hs].
  rewrite fmap_cons in Ha. apply NoDup_cons in Ha as [Ha1 Ha2].
  rewrite bind_cons in Hr. apply NoDup_app in Hr as (Hr1 & Hr2 & Hr3).
  apply Forall_cons in Hs as [Hs1 Hs2].
  split_and!; [by constructor|done..].
Qed.

Lemma registry_wf_replace l1 h l2 h' x :
  registry_wf (l1 ++ h :: l2) →
  f_self h' = f_self h → refs h ≡ₚ x :: refs h' →
  Forall (λ d, (-1 ≤ d)%Z) (f_dup_fds h') →
  registry_wf (l1 ++ h' :: l2)
  ∧ (f_self h ∉ (f_self <$> (l1 ++ l2))).
Proof.
  intros [Ha Hr Hs] Hself Hperm Hslots'. split; [constructor|].
  - by rewrite fmap_app, fmap_cons, Hself, <-fmap_cons, <-fmap_app.
  - rewrite bind_app, bind_cons in Hr |- *.
    assert ((l1 ≫= refs) ++ refs h ++ (l2 ≫= refs)
            ≡ₚ x :: ((l1 ≫= refs) ++ refs h' ++ (l2 ≫= refs))) as Hp.
    { rewrite Hperm. simpl. symmetry. apply Permutation_middle. }
    rewrite Hp in Hr. by apply NoDup_cons in Hr as [_ Hr].
  - apply Forall_app in Hs as [Hs1 Hs2]. apply Forall_cons in Hs2 as [_ Hs2].
    apply Forall_app. split; [done|]. by apply Forall_cons.
  - rewrite fmap_app, fmap_cons in Ha.
    apply NoDup_app in Ha as (Ha1 & Ha2 & Ha3).
    apply NoDup_cons in Ha3 as [Ha3 _].
    rewrite fmap_app. intros [Hin|Hin]%elem_of_app; [|done].
    apply (Ha2 _ Hin), list_elem_of_here.
Qed.

(** One call of [file_close] on a reference of an open file, wherever the
    struct stands in the list. *)
Lemma file_close_walk_step verbose l1 h l2 x :
  registry_wf (l1 ++ h :: l2) → x ∈ refs h →
  ∃ h', f_self h' = f_self h ∧ f_ops h' = f_ops h
        ∧ refs h ≡ₚ x :: refs h'
        ∧ Forall (λ d, (-1 ≤ d)%Z) (f_dup_fds h')
        ∧ ((refs h' ≠ []
            ∧ file_close_walk verbose x (l1 ++ h :: l2)
              = (l1 ++ h' :: l2, []))
           ∨ (refs h' = []
              ∧ ∃ msg, file_close_walk verbose x (l1 ++ h :: l2)
                       = (l1 ++ l2, PRINTF verbose msg ++ file_put (Some h)))).
Proof.
  intros Hwf Hx. induction l1 as [|f l1 IH].
  - apply registry_wf_inv in Hwf as (_ & _ & Hnd & _ & Hslots).
    exact (file_close_walk_here verbose h l2 x Hslots Hnd Hx).
  - apply registry_wf_inv in Hwf as (Hwf & _ & _ & Hdisj & _).
    destruct (IH Hwf) as (h' & H1 & H2 & H3 & H4 & Hcase).
    exists h'. split_and!; [done..|].
    assert (x ∉ refs f) as Hxf.
    { intros Hin. apply (Hdisj _ Hin), list_elem_of_bind.
      exists h. split; [done|]. apply elem_of_app. right.
      apply list_elem_of_here. }
    assert (x ≠ (-1)%Z) as Hm by (by apply refs_elem in Hx as [? _]).
    rewrite <-!app_comm_cons, (file_close_walk_skip _ _ _ _ Hxf Hm).
    destruct Hcase as [[Hne ->]|[He [msg ->]]]; [left|right]; eauto.
Qed.

(** [file_lookup] on a live reference of an open file finds that file. *)
Lemma file_lookup_walk_ref l h d :
  registry_wf l → h ∈ l → d ∈ refs h → file_lookup_walk l d = Some h.
Proof.
  induction l as [|f l IH]; intros Hwf Hh Hd; [by apply elem_of_nil in Hh|].
  apply registry_wf_inv in Hwf as (Hwf & Hself & _ & Hdisj & _).
  pose proof Hd as [Hm Hd']%refs_elem.
  apply elem_of_cons in Hh as [->|Hh]; simpl.
  - destruct (Z.eqb_spec (f_fd f) d) as [|E]; [done|].
    destruct Hd' as [->|Hin]; [done|].
    assert (existsb (λ d0, (d0 =? d)%Z) (f_dup_fds f) = true) as ->; [|done].
    apply existsb_exists. exists d. split; [by apply list_elem_of_In|].
    apply Z.eqb_refl.
  - assert (d ∉ refs f) as Hdf.
    { intros Hin. apply (Hdisj _ Hin), list_elem_of_bind. eauto. }
    destruct (Z.eqb_spec (f_fd f) d) as [E|E].
    { exfalso. apply Hdf, refs_elem. auto. }
    destruct (existsb _ (f_dup_fds f)) eqn:Hex; [|by apply IH].
    exfalso. apply existsb_exists in Hex as (d0 & Hin & ->%Z.eqb_eq).
    apply Hdf, refs_elem. split; [done|]. right. by apply list_elem_of_In.
Qed.

Lemma close_all_cons x fds s :
  close_all (x :: fds) s = close_all fds (file_close x s).
Proof. done. Qed.

Lemma close_all_snoc x fds s :
  close_all (fds ++ [x]) s = file_close x (close_all fds s).
Proof. unfold close_all. by rewrite foldl_snoc. Qed.

(** [file_close] releases only structs of the list, and never adds one:
    a struct that has left the list is not released again. *)
Lemma file_close_walk_gone verbose x l a :
  a ∉ (f_self <$> l) →
  (a ∉ (f_self <$> (file_close_walk verbose x l).1))
  ∧ release_count a (file_close_walk verbose x l).2 = 0.
Proof.
  induction l as [|f rest IH]; [done|].
  rewrite fmap_cons. intros [Hf Hrest]%not_elem_of_cons. simpl.
  assert (release_count a
            (PRINTF verbose ("closing " +:+ f_path f +:+ nl)
               ++ file_put (Some f)) = 0) as Hput.
  { rewrite release_count_app, release_count_PRINTF.
    unfold file_put, release_count. destruct (f_ops f) as [[[]]|]; [|done..].
    simpl. by destruct (Nat.eqb_spec a (f_self f)). }
  destruct (Z.eqb_spec (f_fd f) x) as [_|_].
  - destruct (existsb _ _); simpl.
    + split; [|done]. by apply not_elem_of_cons.
    + done.
  - destruct (clear_slot x (f_dup_fds f)) as [slots|].
    + destruct (negb _); [|destruct (existsb _ slots)]; simpl.
      * split; [|done]. by apply not_elem_of_cons.
      * split; [|done]. by apply not_elem_of_cons.
      * done.
    + destruct (IH Hrest) as [IH1 IH2].
      destruct (file_close_walk verbose x rest) as [rest' out]. simpl in *.
      split; [|done]. by apply not_elem_of_cons.
Qed.

Lemma close_all_gone more : ∀ s a,
  a ∉ (f_self <$> files s) →
  (a ∉ (f_self <$> files (close_all more s)))
  ∧ release_count a (output (close_all more s)) = release_count a (output s).
Proof.
  induction more as [|x more IH]; intros s a Ha; [done|].
  rewrite close_all_cons.
  destruct (file_close_walk_gone (libwrap_verbose s) x (files s) a Ha)
    as [H1 H2].
  destruct (IH (file_close x s) a) as [G1 G2].
  - unfold file_close.
    by destruct (file_close_walk (libwrap_verbose s) x (files s)).
  - split; [done|]. rewrite G2. unfold file_close.
    destruct (file_close_walk (libwrap_verbose s) x (files s)) as [l out].
    simpl in *. rewrite release_count_app. lia.
Qed.

(** The registry stays well formed under the calls the system causes: an
    open or a dup with a descriptor that is not in use, and the close of a
    live reference. *)
Lemma registry_wf_nil : registry_wf [].
Proof. constructor; by constructor. Qed.

Lemma registry_wf_remove l1 h l2 :
  registry_wf (l1 ++ h :: l2) → registry_wf (l1 ++ l2).
Proof.
  intros [Ha Hr Hs]. constructor.
  - rewrite fmap_app, fmap_cons in Ha. rewrite fmap_app.
    apply NoDup_app in Ha as (Ha1 & Ha2 & [_ Ha3]%NoDup_cons).
    apply NoDup_app. split_and!; [done| |done].
    intros x Hx Hx'. apply (Ha2 x Hx). by apply list_elem_of_further.
  - rewrite bind_app, bind_cons in Hr. rewrite bind_app.
    apply NoDup_app in Hr as (Hr1 & Hr2 & (_ & _ & Hr3)%NoDup_app).
    apply NoDup_app. split_and!; [done| |done].
    intros x Hx Hx'. apply (Hr2 x Hx), elem_of_app. by right.
  - apply Forall_app in Hs as [Hs1 [_ Hs2]%Forall_cons].
    by apply Forall_app.
Qed.

Lemma file_close_walk_wf verbose l1 h l2 x :
  registry_wf (l1 ++ h :: l2) → x ∈ refs h →
  registry_wf (file_close_walk verbose x (l1 ++ h :: l2)).1.
Proof.
  intros Hwf Hx.
  destruct (file_close_walk_step verbose l1 h l2 x Hwf Hx)
    as (h' & H1 & _ & H3 & H4 & [[_ ->]|[_ [msg ->]]]); simpl.
  - by destruct (registry_wf_replace _ _ _ _ _ Hwf H1 H3 H4).
  - by eapply registry_wf_remove.
Qed.

Lemma fill_slot_Some fd slots slots' :
  fill_slot fd slots = Some slots' →
  ∃ pre d post, slots = pre ++ d :: post ∧ (d < 0)%Z
                ∧ slots' = pre ++ fd :: post.
Proof.
  revert slots'. induction slots as [|d rest IH]; intros slots'; [done|].
  simpl. destruct (Z.ltb_spec d 0) as [Hd|Hd].
  - intros [= <-]. by exists [], d, rest.
  - destruct (fill_slot fd rest) as [r|] eqn:E; [|done].
    intros [= <-]. destruct (IH r eq_refl) as (pre & d' & post & -> & ? & ->).
    by exists (d :: pre), d', post.
Qed.

Lemma file_dup_wf verbose l1 f l2 fd :
  registry_wf (l1 ++ f :: l2) → (0 ≤ fd)%Z →
  fd ∉ ((l1 ++ f :: l2) ≫= refs) →
  registry_wf (l1 ++ (file_dup verbose f fd).1 :: l2).
Proof.
  intros Hwf Hfd Hnew. unfold file_dup.
  destruct (fill_slot fd (f_dup_fds f)) as [slots'|] eqn:E; [|done].
  apply fill_slot_Some in E as (pre & d & post & Hsl & Hd & ->). simpl.
  pose proof Hwf as [Ha Hr Hs].
  assert (d = (-1)%Z) as ->.
  { apply Forall_app in Hs as [_ [Hf _]%Forall_cons].
    rewrite Hsl in Hf. apply Forall_app in Hf as [_ [Hf _]%Forall_cons].
    lia. }
  assert (refs (set_dup_fds (pre ++ fd :: post) f) ≡ₚ fd :: refs f) as Hp.
  { unfold refs. simpl. rewrite Hsl, !filter_app.
    rewrite (filter_cons_True _ fd) by lia.
    rewrite (filter_cons_False _ (-1)%Z) by (intros H; by apply H).
    rewrite !app_assoc. symmetry. apply Permutation_middle. }
  constructor.
  - by rewrite fmap_app, fmap_cons in Ha |- *.
  - rewrite bind_app, bind_cons in Hr, Hnew |- *.
    assert ((l1 ≫= refs) ++ refs (set_dup_fds (pre ++ fd :: post) f)
              ++ (l2 ≫= refs)
            ≡ₚ fd :: ((l1 ≫= refs) ++ refs f ++ (l2 ≫= refs))) as ->.
    { rewrite Hp. simpl. symmetry. apply Permutation_middle. }
    by apply NoDup_cons.
  - apply Forall_app in Hs as [Hs1 [Hf Hs2]%Forall_cons].
    apply Forall_app. split; [done|]. apply Forall_cons. split; [|done].
    simpl. rewrite Hsl in Hf.
    apply Forall_app in Hf as [Hf1 [_ Hf2]%Forall_cons].
    apply Forall_app. split; [done|]. apply Forall_cons. split; [lia|done].
Qed.

Lemma refs_fresh_slots f :
  refs (set_dup_fds (map (λ _, (-1)%Z) (f_dup_fds f)) f)
  = if (f_fd f =? -1)%Z then [] else [f_fd f].
Proof.
  unfold refs. simpl.
  assert (filter (λ d, d ≠ (-1)%Z) (map (λ _ : Z, (-1)%Z) (f_dup_fds f)) = [])
    as ->; [|apply app_nil_r].
  induction (f_dup_fds f) as [|d rest IH]; [done|]. simpl.
  by rewrite filter_cons_False by (intros H; by apply H).
Qed.

Lemma file_open_wf path fd s file s' :
  registry_wf (files s) → file_open path fd s = (Some file, s') →
  f_self file ∉ (f_self <$> files s) → f_fd file ∉ (files s ≫= refs) →
  registry_wf (files s').
Proof.
  intros [Ha Hr Hs] Hopen. unfold file_open in Hopen.
  destruct (file_open_scan (file_table s) path fd) as [[f0|]|]; [|done..].
  injection Hopen as <- <-. simpl. intros Hself Hfd. constructor.
  - rewrite fmap_app. apply NoDup_app. split_and!; [done| |apply NoDup_singleton].
    intros x Hx ->%list_elem_of_singleton. done.
  - rewrite bind_app, bind_singleton, refs_fresh_slots.
    apply NoDup_app. split_and!; [done| |].
    + intros x Hx. destruct (f_fd f0 =? -1)%Z; [apply not_elem_of_nil|].
      intros ->%list_elem_of_singleton. done.
    + destruct (f_fd f0 =? -1)%Z; [constructor|apply NoDup_singleton].
  - apply Forall_app. split; [done|]. apply Forall_singleton. simpl.
    induction (f_dup_fds f0); simpl; constructor; [lia|done].
Qed.

Lemma refs_set_fd_sublist f : refs (set_fd (-1) f) `sublist_of` refs f.
Proof. unfold refs. simpl. by apply sublist_inserts_l. Qed.

Lemma refs_clear_slot_sublist f x slots' :
  clear_slot x (f_dup_fds f) = Some slots' →
  refs (set_dup_fds slots' f) `sublist_of` refs f.
Proof.
  intros (pre & post & Hsl & _ & ->)%clear_slot_Some.
  unfold refs. simpl. rewrite Hsl. apply sublist_app; [done|].
  rewrite !filter_app. apply sublist_app; [done|].
  rewrite (filter_cons_False _ (-1)%Z) by (intros H; by apply H).
  rewrite filter_cons. case_decide; [by apply sublist_cons|done].
Qed.

Lemma clear_slot_slots_ok x slots slots' :
  clear_slot x slots = Some slots' →
  Forall (λ d, (-1 ≤ d)%Z) slots → Forall (λ d, (-1 ≤ d)%Z) slots'.
Proof.
  intros (pre & post & -> & _ & ->)%clear_slot_Some.
  rewrite !Forall_app, !Forall_cons. intros (? & _ & ?). split_and!; [done|lia|done].
Qed.

(** [file_close] only takes away: addresses, references. *)
Lemma file_close_walk_shrinks verbose x l :
  Forall (λ f, Forall (λ d, (-1 ≤ d)%Z) (f_dup_fds f)) l →
  (f_self <$> (file_close_walk verbose x l).1) `sublist_of` (f_self <$> l)
  ∧ ((file_close_walk verbose x l).1 ≫= refs) `sublist_of` (l ≫= refs)
  ∧ Forall (λ f, Forall (λ d, (-1 ≤ d)%Z) (f_dup_fds f))
           (file_close_walk verbose x l).1.
Proof.
  induction 1 as [|f rest Hf Hrest IH]; [done|].
  rewrite fmap_cons, bind_cons.
  assert (∀ f', f_self f' = f_self f → refs f' `sublist_of` refs f →
            Forall (λ d, (-1 ≤ d)%Z) (f_dup_fds f') →
            (f_self <$> f' :: rest) `sublist_of` f_self f :: (f_self <$> rest)
            ∧ ((f' :: rest) ≫= refs) `sublist_of` refs f ++ (rest ≫= refs)
            ∧ Forall (λ f, Forall (λ d, (-1 ≤ d)%Z) (f_dup_fds f))
                (f' :: rest)) as Hkeep.
  { intros f' E Hsub Hok. rewrite fmap_cons, bind_cons, E.
    split_and!; [done|by apply sublist_app|by constructor]. }
  assert ((f_self <$> rest) `sublist_of` f_self f :: (f_self <$> rest)
          ∧ (rest ≫= refs) `sublist_of` refs f ++ (rest ≫= refs)
          ∧ Forall (λ f, Forall (λ d, (-1 ≤ d)%Z) (f_dup_fds f)) rest)
    as Hdrop.
  { split_and!; [by apply sublist_cons|by apply sublist_inserts_l|done]. }
  cbn [file_close_walk].
  destruct (Z.eqb_spec (f_fd f) x) as [_|_].
  - destruct (existsb _ _); cbn [fst]; [|done].
    apply Hkeep; [done|apply refs_set_fd_sublist|done].
  - destruct (clear_slot x (f_dup_fds f)) as [slots'|] eqn:E.
    + pose proof (refs_clear_slot_sublist _ _ _ E) as Hsub.
      pose proof (clear_slot_slots_ok _ _ _ E Hf) as Hok.
      destruct (negb _); [|destruct (existsb _ slots')]; cbn [fst];
        [by apply Hkeep..|done].
    + destruct IH as (IH1 & IH2 & IH3).
      destruct (file_close_walk verbose x rest) as [rest' out].
      cbn [fst] in *. rewrite fmap_cons, bind_cons.
      split_and!; [by apply sublist_skip|by apply sublist_app|by constructor].
Qed.

Lemma set_fd_same f v : f_fd f = v → set_fd v f = f.
Proof. intros <-. by destruct f. Qed.

Lemma clear_slot_empty slots slots' :
  clear_slot (-1) slots = Some slots' → slots' = slots.
Proof. by intros (pre & post & -> & _ & ->)%clear_slot_Some. Qed.

Lemma file_close_walk_keeps_wf verbose x l :
  registry_wf l → registry_wf (file_close_walk verbose x l).1.
Proof.
  intros [Ha Hr Hs].
  destruct (file_close_walk_shrinks verbose x l Hs) as (H1 & H2 & H3).
  constructor; [by eapply sublist_NoDup..|done].
Qed.

Lemma release_count_file_put_other a f :
  a ≠ f_self f → release_count a (file_put (Some f)) = 0.
Proof.
  intros Hne. unfold file_put, release_count.
  destruct (f_ops f) as [[[]]|]; [|done..].
  simpl. by destruct (Nat.eqb_spec a (f_self f)).
Qed.

Lemma file_put_same f g :
  f_self f = f_self g → f_ops f = f_ops g →
  file_put (Some f) = file_put (Some g).
Proof. intros E1 E2. unfold file_put. by rewrite E1, E2. Qed.

(** A struct with a live reference is left alone, and is not released, by
    the close of a descriptor that is not one of its live references:
    the descriptor of another file, an unknown one, or -1. *)
Lemma file_close_walk_frame verbose x l h :
  registry_wf l → h ∈ l → refs h ≠ [] → x ∉ refs h →
  h ∈ (file_close_walk verbose x l).1
  ∧ release_count (f_self h) (file_close_walk verbose x l).2 = 0.
Proof.
  induction l as [|f rest IH]; intros Hwf Hh Hne Hx;
    [by apply elem_of_nil in Hh|].
  apply registry_wf_inv in Hwf as (Hwf & Hself & _ & _ & Hslots).
  apply elem_of_cons in Hh as [->|Hh].
  - (* the struct itself *)
    assert (x ≠ (-1)%Z → x ≠ f_fd f ∧ x ∉ f_dup_fds f) as Hout.
    { intros Hm. split; intros ?; apply Hx, refs_elem; auto. }
    cbn [file_close_walk].
    destruct (Z.eqb_spec (f_fd f) x) as [E|E].
    + assert (x = (-1)%Z) as ->.
      { destruct (decide (x = (-1)%Z)) as [|Hm]; [done|].
        by destruct (Hout Hm). }
      rewrite (set_fd_same f _ E).
      assert (existsb (λ d, (0 <=? d)%Z) (f_dup_fds f) = true) as ->.
      { destruct (existsb _ _) eqn:Hex; [done|].
        apply (live_slots_ge0 _ Hslots) in Hex.
        exfalso. apply Hne. unfold refs. rewrite Hex.
        by destruct (Z.eqb_spec (f_fd f) (-1)). }
      split; [apply list_elem_of_here|done].
    + destruct (clear_slot x (f_dup_fds f)) as [slots'|] eqn:Hcl.
      * assert (x = (-1)%Z) as ->.
        { destruct (decide (x = (-1)%Z)) as [|Hm]; [done|].
          destruct (Hout Hm) as [_ Hslot]. exfalso. apply Hslot.
          apply clear_slot_Some in Hcl as (pre & post & -> & _).
          apply elem_of_app. right. apply list_elem_of_here. }
        apply clear_slot_empty in Hcl as ->. rewrite set_dup_fds_same.
        destruct (Z.eqb_spec (f_fd f) (-1)); [done|]. simpl.
        split; [apply list_elem_of_here|done].
      * destruct (file_close_walk_gone verbose x rest _ Hself) as [_ Hcount].
        destruct (file_close_walk verbose x rest) as [rest' out].
        split; [apply list_elem_of_here|done].
  - (* a struct further down the list *)
    assert (f_self h ≠ f_self f) as Hother.
    { intros E. apply Hself. rewrite <-E. by apply list_elem_of_fmap_2. }
    assert (∀ f', f_self f' = f_self f →
              release_count (f_self h)
                (PRINTF verbose ("closing " +:+ f_path f' +:+ nl)
                   ++ file_put (Some f')) = 0) as Hput.
    { intros f' E. rewrite release_count_app, release_count_PRINTF.
      rewrite release_count_file_put_other; [done|]. by rewrite E. }
    cbn [file_close_walk].
    destruct (Z.eqb_spec (f_fd f) x) as [_|_].
    + destruct (existsb _ _); cbn [fst snd].
      * split; [by apply list_elem_of_further|done].
      * split; [done|]. by apply Hput.
    + destruct (clear_slot x (f_dup_fds f)) as [slots'|].
      * destruct (negb _); [|destruct (existsb _ slots')]; cbn [fst snd].
        -- split; [by apply list_elem_of_further|done].
        -- split; [by apply list_elem_of_further|done].
        -- split; [done|]. by apply Hput.
      * destruct (IH Hwf Hh Hne Hx) as [IH1 IH2].
        destruct (file_close_walk verbose x rest) as [rest' out].
        cbn [fst snd] in *.
        split; [by apply list_elem_of_further|done].
Qed.

Lemma registry_wf_refs_NoDup l h : registry_wf l → h ∈ l → NoDup (refs h).
Proof.
  intros [_ Hr _] (l1 & l2 & ->)%list_elem_of_split.
  rewrite bind_app, bind_cons in Hr.
  by apply NoDup_app in Hr as (_ & _ & (? & _ & _)%NoDup_app).
Qed.

(** Any sequence of closes, followed from a struct with a live reference:
    as long as one of its references has not been closed the struct is
    open, with the references that have not been closed, and unreleased;
    once all have been closed it has left the list and [file_put] has run
    on it once. *)
Lemma close_all_track closes : ∀ s h,
  registry_wf (files s) → h ∈ files s → refs h ≠ [] →
  ((∃ d, d ∈ refs h ∧ d ∉ closes) →
     ∃ h1, h1 ∈ files (close_all closes s)
           ∧ f_self h1 = f_self h ∧ f_ops h1 = f_ops h
           ∧ (∀ d, d ∈ refs h1 ↔ d ∈ refs h ∧ d ∉ closes)
           ∧ registry_wf (files (close_all closes s))
           ∧ release_count (f_self h) (output (close_all closes s))
             = release_count (f_self h) (output s))
  ∧ ((∀ d, d ∈ refs h → d ∈ closes) →
     (f_self h ∉ (f_self <$> files (close_all closes s)))
     ∧ release_count (f_self h) (output (close_all closes s))
       = release_count (f_self h) (output s)
         + release_count (f_self h) (file_put (Some h))).
Proof.
  induction closes as [|x closes IH]; intros s h Hwf Hh Hne.
  { split.
    - intros _. exists h. split_and!; [done..| |done|done].
      intros d. split; [intros ?; split; [done|apply not_elem_of_nil]|].
      by intros [? _].
    - intros Hall. destruct (refs h) as [|d ?]; [done|].
      destruct (not_elem_of_nil d). apply Hall, list_elem_of_here. }
  rewrite close_all_cons.
  assert (∀ l out,
            file_close_walk (libwrap_verbose s) x (files s) = (l, out) →
            files (file_close x s) = l
            ∧ output (file_close x s) = output s ++ out) as Hclose.
  { intros l out E. unfold file_close. by rewrite E. }
  pose proof (registry_wf_refs_NoDup _ _ Hwf Hh) as Hnd.
  destruct (decide (x ∈ refs h)) as [Hx|Hx].
  - (* a reference of the struct *)
    apply list_elem_of_split in Hh as (l1 & l2 & Hfiles).
    rewrite Hfiles in Hwf.
    destruct (file_close_walk_step (libwrap_verbose s) l1 h l2 x Hwf Hx)
      as (h' & H1 & H2 & H3 & H4 & Hcase).
    rewrite H3 in Hnd. apply NoDup_cons in Hnd as [Hx' _].
    assert (∀ d, d ∈ refs h ↔ d = x ∨ d ∈ refs h') as Hmem.
    { intros d. by rewrite H3, elem_of_cons. }
    destruct (registry_wf_replace _ _ _ _ _ Hwf H1 H3 H4) as [Hwf' Hgone].
    rewrite <-Hfiles in Hcase.
    destruct Hcase as [[Hne' Hwalk]|[He [msg Hwalk]]];
      destruct (Hclose _ _ Hwalk) as [Hf Ho].
    + destruct (IH (file_close x s) h') as [IHA IHB].
      { by rewrite Hf. }
      { rewrite Hf. apply elem_of_app. right. apply list_elem_of_here. }
      { done. }
      rewrite H1, Ho, app_nil_r in IHA, IHB. split.
      * intros (d & Hd & [Hdx Hdc]%not_elem_of_cons).
        destruct IHA as (h1 & G1 & G2 & G3 & G4 & G5 & G6).
        { exists d. split; [|done]. apply Hmem in Hd as [?|?]; done. }
        exists h1. split_and!; [done|done|congruence| |done|done].
        intros d0. rewrite G4, Hmem, not_elem_of_cons. split.
        -- intros [? ?]. split_and!; [by right| |done]. by intros ->.
        -- intros [[->|?] [? ?]]; done.
      * intros Hall. rewrite <-(file_put_same h' h) by done. apply IHB.
        intros d Hd.
        assert (d ∈ x :: closes) as Hc by (apply Hall, Hmem; by right).
        apply elem_of_cons in Hc as [->|?]; done.
    + split.
      * intros (d & Hd & [Hdx Hdc]%not_elem_of_cons).
        apply Hmem in Hd as [?|Hd]; [done|].
        rewrite He in Hd. by apply elem_of_nil in Hd.
      * intros _.
        destruct (close_all_gone closes (file_close x s) (f_self h))
          as [G1 G2].
        { by rewrite Hf. }
        split; [done|]. rewrite G2, Ho, !release_count_app.
        rewrite release_count_PRINTF. done.
  - (* another descriptor *)
    destruct (file_close_walk_frame (libwrap_verbose s) x (files s) h
                Hwf Hh Hne Hx) as [Hin Hcount].
    pose proof (file_close_walk_keeps_wf (libwrap_verbose s) x _ Hwf) as Hwf'.
    destruct (file_close_walk (libwrap_verbose s) x (files s))
      as [l out] eqn:Hwalk.
    destruct (Hclose _ _ eq_refl) as [Hf Ho]. cbn [fst snd] in *.
    destruct (IH (file_close x s) h) as [IHA IHB];
      [by rewrite Hf|by rewrite Hf|done|].
    assert (release_count (f_self h) (output (file_close x s))
            = release_count (f_self h) (output s)) as Hsame.
    { rewrite Ho, release_count_app. lia. }
    rewrite Hsame in IHA, IHB. split.
    + intros (d & Hd & [Hdx Hdc]%not_elem_of_cons).
      destruct IHA as (h1 & G1 & G2 & G3 & G4 & G5 & G6); [by exists d|].
      exists h1. split_and!; [done..| |done|done].
      intros d0. rewrite G4, not_elem_of_cons. split.
      * intros [? ?]. split_and!; [done| |done]. by intros ->.
      * intros [? [? ?]]. done.
    + intros Hall. apply IHB. intros d Hd.
      pose proof (Hall d Hd) as Hc.
      apply elem_of_cons in Hc as [->|?]; done.
Qed.

End close_facts.

(** C1: let [h] be an open file with a release callback and at least one
    reference (its primary descriptor, its occupied slots), in a registry
    whose descriptors are distinct, and let any sequence of descriptors be
    closed: references of [h] in any order, descriptors of other open
    files, descriptors that nobody holds, the same descriptor again.  As
    long as one reference of [h] has not been closed, the callback of [h]
    has not run, [h] is still in the list of open files, and [file_lookup]
    on every reference that has not been closed, in particular on every
    occupied slot once the primary descriptor is closed, returns [h]; the
    close that clears the last reference runs the callback, which makes
    one call.  Once every reference has been closed, the callback has run
    exactly once and [h] has left the list, whatever else was closed
    before, in between or afterwards. *)
Theorem file_close_release_once (s : registry) (h : file)
    (closes : list Z) :
  registry_wf (files s) → h ∈ files s →
  f_ops h = Some {| release := true |} → refs h ≠ [] →
  ((∃ d, d ∈ refs h ∧ d ∉ closes) →
     release_count (f_self h) (output (close_all closes s))
     = release_count (f_self h) (output s)
     ∧ f_self h ∈ (f_self <$> files (close_all closes s))
     ∧ (∀ d, d ∈ refs h → d ∉ closes →
          f_self <$> file_lookup d (close_all closes s) = Some (f_self h))
     ∧ ∀ x, (∀ d, d ∈ refs h → d ∈ closes ++ [x]) →
         release_count (f_self h) (output (close_all (closes ++ [x]) s))
         = S (release_count (f_self h) (output (close_all closes s))))
  ∧ ((∀ d, d ∈ refs h → d ∈ closes) →
     release_count (f_self h) (output (close_all closes s))
     = S (release_count (f_self h) (output s))
     ∧ (f_self h ∉ (f_self <$> files (close_all closes s)))).
Proof.
  intros Hwf Hh Hrel Hne.
  assert (∀ cs, (∀ d, d ∈ refs h → d ∈ cs) →
            release_count (f_self h) (output (close_all cs s))
            = S (release_count (f_self h) (output s))
            ∧ (f_self h ∉ (f_self <$> files (close_all cs s)))) as Hlast.
  { intros cs Hall.
    destruct (close_all_track cs s h Hwf Hh Hne) as [_ HB].
    destruct (HB Hall) as [G1 G2]. split; [|done].
    rewrite G2, (release_count_file_put h Hrel). lia. }
  split; [|apply Hlast].
  intros Hleft.
  destruct (close_all_track closes s h Hwf Hh Hne) as [HA _].
  destruct (HA Hleft) as (h1 & G1 & G2 & G3 & G4 & G5 & G6).
  split_and!.
  - done.
  - rewrite <-G2. by apply list_elem_of_fmap_2.
  - intros d Hd Hdc. unfold file_lookup.
    rewrite (file_lookup_walk_ref _ h1 d); [by rewrite <-G2|done..|].
    by apply G4.
  - intros x Hall. destruct (Hlast _ Hall) as [-> _]. by rewrite G6.
Qed.

(* ===================================================================== *)
(** * Properties of the chip identification *)
(* ===================================================================== *)

Lemma tegra_chip_id_scan_valid fs paths id ev :
  tegra_chip_id_scan fs paths = (Some id, ev) → id ≠ TEGRA_INVALID.
Proof.
  revert ev. induction paths as [|p rest IH]; intros ev; [done|].
  simpl. destruct (read_chip_id fs p) as [i e].
  destruct (decide (i ≠ TEGRA_INVALID)) as [Hi|_].
  - by intros [= <- _].
  - destruct (tegra_chip_id_scan fs rest) as [r e'].
    intros [= -> _]. by eapply IH.
Qed.

(** Once a call has returned, the static variable holds what it returned,
    and that is never [TEGRA_INVALID]. *)
Lemma tegra_chip_id_resolved fs st :
  static_id (tegra_chip_id fs st).2 = (tegra_chip_id fs st).1
  ∧ (tegra_chip_id fs st).1 ≠ TEGRA_INVALID.
Proof.
  unfold tegra_chip_id.
  destruct (decide (static_id st ≠ TEGRA_INVALID)) as [Hv|_]; [done|].
  destruct (tegra_chip_id_scan fs chip_paths) as [[id|] ev] eqn:E; [|done].
  split; [done|]. by eapply tegra_chip_id_scan_valid.
Qed.

Lemma tegra_chip_id_cached fs st :
  static_id st ≠ TEGRA_INVALID → tegra_chip_id fs st = (static_id st, st).
Proof.
  intros Hv. unfold tegra_chip_id.
  by destruct (decide (static_id st ≠ TEGRA_INVALID)).
Qed.

(** C7: after a first call of [tegra_chip_id], whatever it found, every
    later call returns the value of the first and leaves the state as it
    is, so that no file is opened again, whatever the files hold by
    then. *)
Theorem tegra_chip_id_memoized (fs : sysfs) (st : chip_state)
    (later : list sysfs) :
  tegra_chip_id_calls later (tegra_chip_id fs st).2
  = (replicate (length later) (tegra_chip_id fs st).1,
     (tegra_chip_id fs st).2).
Proof.
  destruct (tegra_chip_id_resolved fs st) as [Hid Hv].
  destruct (tegra_chip_id fs st) as [v st1]. simpl in *.
  induction later as [|fs' rest IH]; [done|].
  simpl. rewrite tegra_chip_id_cached by congruence.
  by rewrite IH, Hid.
Qed.

(* ===================================================================== *)
(** * Properties of buffer objects and framebuffers *)
(* ===================================================================== *)

Ltac world_simpl :=
  cbn [heap bos fbs fate junk flushed errors
       set_heap set_bos set_fbs set_fate set_flushed set_errors
       bo_self bo_bo bo_size bo_offset hb_data hb_mapped fst snd].

Ltac run_M := unfold mbind, M_bind, mret, M_ret; world_simpl.

Ltac case_next_ok :=
  match goal with
  | |- context [next_ok ?w] => destruct (next_ok w) eqn:?
  end.

Section grate_facts.
Variable LONG_BIT : Z.
Variable GRATE_DOUBLE_BUFFERED : Z.

Lemma M_bind_eq {A B} (m : M A) (k : A → M B) w :
  (m ≫= k) w = match m w with
                | Some (x, w') => k x w'
                | None => None
                end.
Proof. done. Qed.

Lemma fbs_fresh w : fbs w !! fresh (dom (fbs w)) = None.
Proof. apply not_elem_of_dom, is_fresh. Qed.

Lemma bos_fresh w : bos w !! fresh (dom (bos w)) = None.
Proof. apply not_elem_of_dom, is_fresh. Qed.

(** C2: with the double-buffer flag set, when the allocation of the back
    buffer fails (after the struct and the front buffer were allocated),
    [grate_framebuffer_create] returns NULL and leaves nothing behind: the
    front buffer and the struct are released, and the live blocks, backing
    objects and host1x framebuffers are those from before the call. *)
Theorem grate_framebuffer_create_back_failure
    (width height format flags : Z) (w : world) (rest : list bool) :
  Z.land flags GRATE_DOUBLE_BUFFERED ≠ 0%Z →
  fate w = true :: true :: false :: rest →
  grate_framebuffer_create GRATE_DOUBLE_BUFFERED width height format flags w
  = Some (None, set_fate rest w)
  ∧ heap (set_fate rest w) = heap w
  ∧ fbs (set_fate rest w) = fbs w
  ∧ bos (set_fate rest w) = bos w.
Proof.
  intros Hflag Hfate. split; [|done].
  unfold grate_framebuffer_create. rewrite M_bind_eq.
  unfold calloc, next_ok. rewrite Hfate. simpl.
  rewrite M_bind_eq. unfold host1x_framebuffer_create, next_ok. simpl.
  destruct (decide (Z.land flags GRATE_DOUBLE_BUFFERED ≠ 0%Z)); [|done].
  rewrite M_bind_eq. unfold next_ok. simpl.
  rewrite !M_bind_eq. unfold host1x_framebuffer_free. simpl.
  rewrite lookup_insert_eq. rewrite M_bind_eq. unfold free. simpl.
  destruct (decide (fresh (heap w) ∈ {[fresh (heap w)]} ∪ heap w)) as [_|Hn].
  2:{ exfalso. by apply Hn, elem_of_union_l, elem_of_singleton. }
  simpl. unfold mret, M_ret. do 2 f_equal.
  unfold set_heap, set_fbs, set_fate. simpl. f_equal.
  - apply set_eq. intros x.
    rewrite elem_of_difference, elem_of_union, elem_of_singleton.
    pose proof (is_fresh (heap w)) as Hfresh.
    split; [by intros [[->|?] ?]|].
    intros Hx. split; [by right|]. by intros ->.
  - rewrite delete_insert_eq. apply delete_id, fbs_fresh.
Qed.

Lemma store_bytes_fresh (n : nat) (src d : list Byte.byte) :
  length d = n → n ≤ length src →
  store_bytes 0 (take n src) d = take n src.
Proof.
  intros Hd Hsrc. unfold store_bytes. simpl.
  rewrite length_take, Nat.min_l by done.
  rewrite drop_ge by lia. apply app_nil_r.
Qed.

(** What a successful [grate_bo_create_from_data] leaves: a struct at
    offset 0 of the size asked for, on a backing object that holds the
    first [size] bytes of the data and is mapped. *)
Lemma grate_bo_create_from_data_inv size flags data w bo w1 :
  grate_bo_create_from_data size flags data w = Some (Some bo, w1) →
  bo_offset bo = 0%Z ∧ bo_size bo = size
  ∧ (0 ≤ size ≤ Z.of_nat (length data))%Z
  ∧ bos w1 !! bo_bo bo
    = Some {| hb_data := take (Z.to_nat size) data; hb_mapped := true |}.
Proof.
  unfold grate_bo_create_from_data, grate_bo_map, grate_bo_free,
    grate_bo_invalidate, grate_error.
  run_M. unfold calloc. case_next_ok; [|done].
  unfold host1x_bo_create. world_simpl. case_next_ok.
  2:{ unfold free. world_simpl. by case_decide. }
  unfold host1x_bo_mmap. world_simpl. rewrite lookup_insert_eq.
  case_next_ok.
  2:{ unfold host1x_bo_free. world_simpl. rewrite lookup_insert_eq.
      unfold free. world_simpl. by case_decide. }
  unfold memcpy. world_simpl. rewrite lookup_insert_eq.
  unfold in_range. world_simpl.
  destruct (_ && _) eqn:Hrange; [|done].
  unfold host1x_bo_invalidate. intros [= <- <-]. world_simpl.
  rewrite !andb_true_iff in Hrange.
  destruct Hrange as [[[_ Hsz%Z.leb_le] _] Hdata%Z.leb_le].
  split_and!; [done|done|lia|lia|].
  rewrite lookup_insert_eq. do 2 f_equal.
  apply store_bytes_fresh; [|lia].
  by rewrite length_fmap, length_seq.
Qed.

(** With enough data, [grate_bo_create_from_data] has a defined result. *)
Lemma grate_bo_create_from_data_total size flags data w :
  (0 ≤ size ≤ Z.of_nat (length data))%Z →
  is_Some (grate_bo_create_from_data size flags data w).
Proof.
  intros Hsz.
  unfold grate_bo_create_from_data, grate_bo_map, grate_bo_free,
    grate_bo_invalidate, grate_error.
  run_M. unfold calloc. case_next_ok; [|done].
  unfold host1x_bo_create. world_simpl. case_next_ok.
  2:{ unfold free. world_simpl. case_decide as Hn; [done|].
      exfalso. by apply Hn, elem_of_union_l, elem_of_singleton. }
  unfold host1x_bo_mmap. world_simpl. rewrite lookup_insert_eq.
  case_next_ok.
  2:{ unfold host1x_bo_free. world_simpl. rewrite lookup_insert_eq.
      unfold free. world_simpl. case_decide as Hn; [done|].
      exfalso. by apply Hn, elem_of_union_l, elem_of_singleton. }
  unfold memcpy. world_simpl. rewrite lookup_insert_eq.
  unfold in_range. world_simpl.
  rewrite length_fmap, length_seq.
  assert (∀ b : bool, b = true → ∀ {A} (x y : A),
            (if b then x else y) = x) as Hif by (by intros ? ->).
  rewrite Hif; [done|].
  rewrite !andb_true_iff, !Z.leb_le. lia.
Qed.

(** C4: when [grate_bo_create_from_data] succeeds on [size] bytes of data,
    a map of the buffer object it returned, followed by a read of [size]
    bytes through the pointer, gives back exactly the data. *)
Theorem grate_bo_create_from_data_roundtrip
    (size flags : Z) (data : list Byte.byte) (w w1 : world) (bo : grate_bo) :
  Z.of_nat (length data) = size →
  grate_bo_create_from_data size flags data w = Some (Some bo, w1) →
  ∀ p w2, grate_bo_map bo w1 = Some (Some p, w2) →
          read_bytes p size w2 = Some (data, w2).
Proof.
  intros Hlen Hcreate p w2.
  apply grate_bo_create_from_data_inv in Hcreate as (Hoff & _ & Hsz & Hbo).
  unfold grate_bo_map, grate_error. run_M.
  unfold host1x_bo_mmap. rewrite Hbo. case_next_ok; [|done].
  world_simpl. intros [= <- <-].
  unfold read_bytes. world_simpl. rewrite lookup_insert_eq.
  unfold in_range. world_simpl. rewrite Hoff.
  assert (Z.to_nat size = length data) as Hn by lia.
  rewrite Hn, firstn_all. simpl.
  assert ((0 <=? size)%Z && (0 + 0 + size <=? Z.of_nat (length data))%Z
          = true) as ->.
  { rewrite andb_true_iff, !Z.leb_le. lia. }
  by rewrite firstn_all.
Qed.

(** C8, as the code has it: when [grate_bo_create_from_data] returns a
    buffer object, the mapping it made to copy the data is still in place:
    the backing object is live and mapped.  Nothing in the function unmaps
    it, and [grate_bo_unmap] does nothing. *)
Theorem grate_bo_create_from_data_keeps_mapping
    (size flags : Z) (data : list Byte.byte) (w w1 : world) (bo : grate_bo) :
  grate_bo_create_from_data size flags data w = Some (Some bo, w1) →
  (∃ b, bos w1 !! bo_bo bo = Some b ∧ hb_mapped b = true)
  ∧ ∀ p, grate_bo_unmap bo p w1 = Some (tt, w1).
Proof.
  intros Hcreate.
  apply grate_bo_create_from_data_inv in Hcreate as (_ & _ & _ & Hbo).
  split; [|done]. eexists. split; [exact Hbo|done].
Qed.

Lemma ulong_small x : (0 ≤ x < 2 ^ LONG_BIT)%Z → ulong LONG_BIT x = x.
Proof. intros Hx. unfold ulong. by apply Z.mod_small. Qed.

(** What [grate_wrap_bo] gives when the offset is in range and the struct
    of the view can be allocated. *)
Lemma grate_wrap_bo_ok parent offset w :
  bo_wf LONG_BIT parent → (0 ≤ offset < bo_size parent)%Z →
  next_ok w = true →
  grate_wrap_bo LONG_BIT parent offset w
  = Some (Some {| bo_self := fresh (heap w); bo_bo := bo_bo parent;
                  bo_size := (bo_size parent - offset)%Z;
                  bo_offset := (bo_offset parent + offset)%Z |},
          set_heap ({[fresh (heap w)]} ∪ heap w)
            (set_fate (tail (fate w)) w)).
Proof.
  intros (Ho & Hs & Hfit) Hoff Hok. unfold grate_wrap_bo.
  destruct (Z.leb_spec (bo_size parent) offset); [lia|].
  run_M. unfold calloc. rewrite Hok.
  by rewrite !ulong_small by lia.
Qed.

Lemma grate_wrap_bo_inv parent offset w view w' :
  bo_wf LONG_BIT parent → (0 ≤ offset)%Z →
  grate_wrap_bo LONG_BIT parent offset w = Some (Some view, w') →
  (offset < bo_size parent)%Z
  ∧ bo_bo view = bo_bo parent
  ∧ bo_size view = (bo_size parent - offset)%Z
  ∧ bo_offset view = (bo_offset parent + offset)%Z
  ∧ bos w' = bos w.
Proof.
  intros Hwf Hoff Hwrap.
  destruct (Z.leb_spec (bo_size parent) offset) as [Hge|Hlt];
    [|destruct (next_ok w) eqn:Hok].
  - unfold grate_wrap_bo in Hwrap.
    by destruct (Z.leb_spec (bo_size parent) offset); [|lia].
  - rewrite grate_wrap_bo_ok in Hwrap by (done || lia).
    by injection Hwrap as <- <-.
  - unfold grate_wrap_bo in Hwrap.
    destruct (Z.leb_spec (bo_size parent) offset); [lia|].
    revert Hwrap. run_M. unfold calloc. by rewrite Hok.
Qed.

(** The objects made by [grate_bo_create] and
    [grate_bo_create_from_data] are well formed. *)
Lemma grate_bo_create_wf size flags w bo w' :
  (0 ≤ size < 2 ^ LONG_BIT)%Z →
  grate_bo_create size flags w = Some (Some bo, w') → bo_wf LONG_BIT bo.
Proof.
  intros Hsz. unfold grate_bo_create. run_M.
  unfold calloc. case_next_ok; [|done].
  unfold host1x_bo_create. world_simpl. case_next_ok.
  - intros [= <- _]. unfold bo_wf. simpl. lia.
  - unfold free. world_simpl. by case_decide.
Qed.

Lemma grate_bo_create_from_data_wf size flags data w bo w' :
  (size < 2 ^ LONG_BIT)%Z →
  grate_bo_create_from_data size flags data w = Some (Some bo, w') →
  bo_wf LONG_BIT bo.
Proof.
  intros Hsz (Ho & Hs & [H0 _] & _)%grate_bo_create_from_data_inv.
  unfold bo_wf. lia.
Qed.

Lemma grate_wrap_bo_wf parent offset view :
  bo_wf LONG_BIT parent → (0 ≤ offset < bo_size parent)%Z →
  bo_size view = (bo_size parent - offset)%Z →
  bo_offset view = (bo_offset parent + offset)%Z →
  bo_wf LONG_BIT view.
Proof. unfold bo_wf. lia. Qed.


(** C9, as the code has it: for a buffer object [b] whose range fits the
    machine word and offsets [a < size b] and [c < size b - a], when the
    structs of the views can be allocated, the view at [c] of the view at
    [a] exists, lies on the backing object of [b] itself at the absolute
    offset [offset b + a + c] with [size b - a - c] bytes, and these are
    the backing object, offset and size of any view of [b] at [a + c]; no
    backing object is made or changed on the way. *)
Theorem grate_wrap_bo_compose (b : grate_bo) (a c : Z) (w : world) :
  bo_wf LONG_BIT b → (0 ≤ a < bo_size b)%Z → (0 ≤ c < bo_size b - a)%Z →
  ∀ v1 w1, grate_wrap_bo LONG_BIT b a w = Some (Some v1, w1) →
  next_ok w1 = true →
  ∃ v2 w2,
    grate_wrap_bo LONG_BIT v1 c w1 = Some (Some v2, w2)
    ∧ bo_bo v2 = bo_bo b
    ∧ bo_offset v2 = (bo_offset b + a + c)%Z
    ∧ bo_size v2 = (bo_size b - a - c)%Z
    ∧ bos w2 = bos w
    ∧ ∀ w' v3 w3,
        grate_wrap_bo LONG_BIT b (a + c) w' = Some (Some v3, w3) →
        bo_bo v3 = bo_bo v2 ∧ bo_offset v3 = bo_offset v2
        ∧ bo_size v3 = bo_size v2.
Proof.
  intros Hwf Ha Hc v1 w1 H1 Hok.
  apply grate_wrap_bo_inv in H1 as (_ & Hb1 & Hs1 & Ho1 & Hbos1); [|done|lia].
  assert (bo_wf LONG_BIT v1) as Hwf1 by (by eapply grate_wrap_bo_wf).
  eexists _, _. rewrite grate_wrap_bo_ok by (done || lia).
  split_and!; [done|simpl; congruence|simpl; lia|simpl; lia|done|].
  intros w' v3 w3 H3. simpl.
  apply grate_wrap_bo_inv in H3 as (_ & Hb3 & Hs3 & Ho3 & _); [|done|lia].
  split_and!; [congruence|lia|lia].
Qed.

End grate_facts.

(* ===================================================================== *)
(** * The properties on the sample states *)
(* ===================================================================== *)

Ltac elem_cases H :=
  simpl in H; rewrite ?elem_of_cons, ?elem_of_nil in H;
  repeat match type of H with
         | _ ∨ _ => destruct H as [H|H]
         | False => destruct H
         end; subst.

Lemma sample_registry_wf : registry_wf (files sample_registry).
Proof.
  constructor; compute_done.
Defined.

(** Closing descriptor 9, which no sample file holds, changes nothing. *)
Lemma file_close_unknown_fd_noop_witness :
  file_close 9 sample_registry = sample_registry.
Proof.
  apply file_close_unknown_fd_noop. intros f Hf. elem_cases Hf.
  all: split; [done|]; intros d Hd; elem_cases Hd; done.
Defined.

(** Closing 5 (the only reference of the file at address 2, which is
    released by it), then 7 and 3: the file at address 1 is still open,
    unreleased and found through 8, and the close of 8 releases it.  After
    a longer sequence that closes 8 twice and other descriptors, it has
    been released once and is gone. *)
Lemma file_close_release_once_witness :
  (release_count 1 (output (close_all [5; 7; 3]%Z sample_registry)) = 0
   ∧ 1 ∈ (f_self <$> files (close_all [5; 7; 3]%Z sample_registry))
   ∧ f_self <$> file_lookup 8 (close_all [5; 7; 3]%Z sample_registry)
     = Some 1
   ∧ release_count 1
       (output (close_all ([5; 7; 3]%Z ++ [8%Z]) sample_registry)) = 1)
  ∧ release_count 1
      (output (close_all [5; 7; 3; 8; 8; 4; -1; 3]%Z sample_registry)) = 1
  ∧ 1 ∉ (f_self <$> files (close_all [5; 7; 3; 8; 8; 4; -1; 3]%Z
                             sample_registry)).
Proof.
  assert (file_a ∈ files sample_registry) as Hin.
  { simpl. apply list_elem_of_further, list_elem_of_here. }
  assert (refs file_a ≠ []) as Hne by done.
  split.
  - destruct (file_close_release_once sample_registry file_a [5; 7; 3]%Z
                sample_registry_wf Hin eq_refl Hne) as [H _].
    destruct H as (H1 & H2 & H3 & H4).
    { exists 8%Z. split; [compute_done|]. intros Hd. elem_cases Hd; done. }
    split_and!; [exact H1|exact H2| |].
    + apply H3; [compute_done|]. intros Hd. elem_cases Hd; done.
    + etrans; [apply (H4 8%Z)|by rewrite H1].
      intros d Hd. change (refs file_a) with [3; 7; 8]%Z in Hd.
      elem_cases Hd; compute_done.
  - destruct (file_close_release_once sample_registry file_a
                [5; 7; 3; 8; 8; 4; -1; 3]%Z
                sample_registry_wf Hin eq_refl Hne) as [_ H].
    apply H. intros d Hd. change (refs file_a) with [3; 7; 8]%Z in Hd.
      elem_cases Hd; compute_done.
Defined.

(** Opening the three kinds of path on the sample table. *)
Lemma file_open_first_match_witness :
  ((file_open "/dev/nvhost-ctrl" 6 sample_registry).1 = None
   ∧ files (file_open "/dev/nvhost-ctrl" 6 sample_registry).2
     = files sample_registry)
  ∧ ((file_open "/dev/nvmap" 6 sample_registry).1
     = Some {| f_self := 7; f_fd := 6; f_dup_fds := [-1; -1; -1; -1]%Z;
               f_path := "/dev/nvmap"; f_ops := None |}
     ∧ files (file_open "/dev/nvmap" 6 sample_registry).2
       = files sample_registry
         ++ [{| f_self := 7; f_fd := 6; f_dup_fds := [-1; -1; -1; -1]%Z;
                f_path := "/dev/nvmap"; f_ops := None |}])
  ∧ ((file_open "/dev/null" 6 sample_registry).1 = None
     ∧ files (file_open "/dev/null" 6 sample_registry).2
       = files sample_registry
     ∧ file_table (file_open "/dev/null" 6 sample_registry).2
       = file_table sample_registry).
Proof.
  split; [|split].
  - destruct (file_open_first_match "/dev/nvhost-ctrl" 6 sample_registry)
      as [H _].
    destruct (H [] _ _ eq_refl ltac:(constructor) eq_refl) as [H1 _].
    destruct (H1 eq_refl) as (? & ? & _). done.
  - destruct (file_open_first_match "/dev/nvmap" 6 sample_registry)
      as [H _].
    destruct (H [_] _ _ eq_refl) as [_ H2].
    + repeat constructor. done.
    + done.
    + destruct (H2 _ eq_refl) as (? & ? & _). done.
  - destruct (file_open_first_match "/dev/null" 6 sample_registry)
      as [_ H].
    apply H. repeat constructor; done.
Defined.

(** Duplicating into the sample files: 9 goes to the second slot of the
    file with slots 7, -1, 8, -1, in the struct and in the list of open
    files; the full file and the registry around it stay as they are. *)
Lemma file_dup_first_empty_slot_witness :
  (f_dup_fds (file_dup false file_a 9).1 = [7; 9; 8; -1]%Z
   ∧ f_fd (file_dup false file_a 9).1 = 3%Z
   ∧ files (file_dup_at 1 9 sample_registry)
     = [file_b;
        {| f_self := 1; f_fd := 3; f_dup_fds := [7; 9; 8; -1]%Z;
           f_path := "/dev/nvhost-ctrl";
           f_ops := Some {| release := true |} |};
        file_full])
  ∧ file_dup false file_full 9
    = (file_full, [Stderr ("out of FD slots" +:+ nl)])
  ∧ files (file_dup_at 3 9 sample_registry) = files sample_registry
  ∧ file_table (file_dup_at 3 9 sample_registry)
    = file_table sample_registry.
Proof.
  split.
  - destruct (file_dup_first_empty_slot false file_a 9) as [H _].
    destruct (H [7]%Z (-1)%Z [8; -1]%Z eq_refl) as [H1 H2];
      [repeat constructor; lia|lia|].
    destruct (H2 sample_registry [file_b] [file_full] eq_refl)
      as (H3 & _ & _).
    + intros Hin. elem_cases Hin; done.
    + done.
    + rewrite H1. split_and!; [done|done|exact H3].
  - destruct (file_dup_first_empty_slot false file_full 9) as [_ H].
    destruct H as [H1 H2].
    { repeat constructor; lia. }
    split; [exact H1|].
    destruct (H2 sample_registry [file_b; file_a] [] eq_refl) as (? & ? & _).
    + intros Hin. elem_cases Hin; done.
    + done.
    + done.
Defined.

Lemma sample_bo_wf : bo_wf 32 sample_bo.
Proof. unfold bo_wf. simpl. lia. Defined.

Lemma sample_create_from_data :
  ∃ bo w1,
    grate_bo_create_from_data 3 0 sample_data sample_world
    = Some (Some bo, w1).
Proof.
  destruct (grate_bo_create_from_data 3 0 sample_data sample_world)
    as [[[bo|] w1]|] eqn:E.
  - by exists bo, w1.
  - exfalso. vm_compute in E. discriminate.
  - exfalso. vm_compute in E. discriminate.
Defined.

(** With the flag bit 1 set and the third allocation failing, the world
    after the call is the world before it. *)
Lemma grate_framebuffer_create_back_failure_witness :
  grate_framebuffer_create 1 256 256 0 1
    (set_fate [true; true; false] sample_world)
  = Some (None, sample_world).
Proof.
  refine (proj1 (grate_framebuffer_create_back_failure 1 256 256 0 1
                   (set_fate [true; true; false] sample_world) [] _ eq_refl)).
  vm_compute. discriminate.
Defined.



(** The view at 2 of the view at 3 of the sample object. *)
Lemma grate_wrap_bo_compose_witness :
  ∃ v1 w1 v2 w2,
    grate_wrap_bo 32 sample_bo 3 sample_world = Some (Some v1, w1)
    ∧ grate_wrap_bo 32 v1 2 w1 = Some (Some v2, w2)
    ∧ bo_bo v2 = 0 ∧ bo_offset v2 = 5%Z ∧ bo_size v2 = 3%Z.
Proof.
  assert (0 ≤ 3 < bo_size sample_bo)%Z as Ha by (simpl; lia).
  assert (0 ≤ 2 < bo_size sample_bo - 3)%Z as Hc by (simpl; lia).
  pose proof (grate_wrap_bo_ok 32 sample_bo 3 sample_world
                sample_bo_wf Ha eq_refl) as H1.
  destruct (grate_wrap_bo_compose 32 sample_bo 3 2 sample_world
              sample_bo_wf Ha Hc _ _ H1 eq_refl)
    as (v2 & w2 & H2 & Hb & Ho & Hs & _).
  eexists _, _, v2, w2. split_and!; [exact H1|exact H2|done..].
Defined.

(** C9 as stated fails: the first view is made, and the view of it is
    refused when its struct cannot be allocated. *)
Lemma grate_wrap_bo_compose_alloc_failure :
  ¬ (∃ v1 w1 v2 w2,
       grate_wrap_bo 32 sample_bo 3 (set_fate [true; false] sample_world)
       = Some (Some v1, w1)
       ∧ grate_wrap_bo 32 v1 2 w1 = Some (Some v2, w2)).
Proof.
  intros (v1 & w1 & v2 & w2 & H1 & H2).
  vm_compute in H1. injection H1 as <- <-.
  vm_compute in H2. discriminate.
Qed.

(** Three bytes written by [grate_bo_create_from_data] and read back. *)
Lemma grate_bo_create_from_data_roundtrip_witness :
  ∃ bo w1 p w2,
    grate_bo_create_from_data 3 0 sample_data sample_world
    = Some (Some bo, w1)
    ∧ grate_bo_map bo w1 = Some (Some p, w2)
    ∧ read_bytes p 3 w2 = Some (sample_data, w2).
Proof.
  destruct sample_create_from_data as (bo & w1 & E1).
  destruct (grate_bo_map bo w1) as [[[p|] w2]|] eqn:E2.
  - exists bo, w1, p, w2. split_and!; [done..|].
    exact (grate_bo_create_from_data_roundtrip 3 0 sample_data
             sample_world w1 bo eq_refl E1 p w2 E2).
  - exfalso. vm_compute in E1. injection E1 as <- <-.
    vm_compute in E2. discriminate.
  - exfalso. vm_compute in E1. injection E1 as <- <-.
    vm_compute in E2. discriminate.
Defined.

(** The backing object of the sample data is mapped after the call. *)
Lemma grate_bo_create_from_data_keeps_mapping_witness :
  ∃ bo w1,
    grate_bo_create_from_data 3 0 sample_data sample_world
    = Some (Some bo, w1)
    ∧ ∃ b, bos w1 !! bo_bo bo = Some b ∧ hb_mapped b = true.
Proof.
  destruct sample_create_from_data as (bo & w1 & E1).
  exists bo, w1. split; [done|].
  exact (proj1 (grate_bo_create_from_data_keeps_mapping 3 0 sample_data
                  sample_world w1 bo E1)).
Defined.

(** C8 as stated fails: the call on the sample data succeeds and its
    mapping is not released. *)
Lemma grate_bo_create_from_data_mapping_outlives :
  ¬ (∀ bo w1,
       grate_bo_create_from_data 3 0 sample_data sample_world
       = Some (Some bo, w1) →
       mapping_released (bo_bo bo) w1).
Proof.
  intros H. destruct sample_create_from_data as (bo & w1 & E1).
  specialize (H bo w1 E1).
  apply grate_bo_create_from_data_inv in E1 as (_ & _ & _ & Hbo).
  specialize (H _ Hbo). discriminate.
Qed.

(** The chip identification on the sample files, and again once the files
    hold something else. *)
Example tegra_chip_id_first :
  tegra_chip_id sample_sysfs chip_initial
  = (TEGRA30,
     {| static_id := TEGRA30;
        chip_trace :=
          [Fopen "/sys/module/tegra_fuse/parameters/tegra_chip_id";
           Fopen "/sys/module/fuse/parameters/tegra_chip_id";
           Fopen "/sys/devices/soc0/soc_id"] |}).
Proof. reflexivity. Qed.

Example tegra_chip_id_again :
  tegra_chip_id_calls [(λ _, Number 32); (λ _, NoFile)]
    (tegra_chip_id sample_sysfs chip_initial).2
  = ([TEGRA30; TEGRA30], (tegra_chip_id sample_sysfs chip_initial).2).
Proof. reflexivity. Qed.

Example tegra_chip_id_unreadable :
  (tegra_chip_id (λ _, NoFile) chip_initial).1 = TEGRA_UNKNOWN
  ∧ (tegra_chip_id (λ _, NoNumber) chip_initial).1 = TEGRA_UNKNOWN.
Proof. split; reflexivity. Qed.

(** The sample registry under closes in two orders. *)
Example close_primary_first :
  f_self <$> files (close_all [3; 7]%Z sample_registry) = [2; 1; 3]
  ∧ f_self <$> files (close_all [3; 7; 8]%Z sample_registry) = [2; 3]
  ∧ output (close_all [3; 7; 8]%Z sample_registry) = [Release 1].
Proof. split_and!; reflexivity. Qed.

Example close_primary_last :
  f_self <$> files (close_all [8; 7]%Z sample_registry) = [2; 1; 3]
  ∧ f_self <$> files (close_all [8; 7; 3]%Z sample_registry) = [2; 3]
  ∧ output (close_all [8; 7; 3]%Z sample_registry) = [Release 1].
Proof. split_and!; reflexivity. Qed.

(* ===================================================================== *)
(** * Further properties of the file wrapper registry *)
(* ===================================================================== *)

Section more_registry.
Implicit Types (f g h : file) (l : list file) (fd d x : Z) (slots : list Z).
Implicit Types (s : registry) (verbose : bool) (a : addr) (w : world).


Lemma calloc_success w :
  next_ok w = true →
  calloc w = Some (Some (fresh (heap w)),
                   set_heap ({[fresh (heap w)]} ∪ heap w)
                     (set_fate (tail (fate w)) w)).
Proof. intros H. unfold calloc. by rewrite H. Qed.

Lemma calloc_failure w :
  next_ok w = false → calloc w = Some (None, set_fate (tail (fate w)) w).
Proof. intros H. unfold calloc. by rewrite H. Qed.

Lemma next_succeed_S n w :
  next_succeed (S n) w →
  next_ok w = true
  ∧ ∀ v, next_succeed n (set_heap v (set_fate (tail (fate w)) w)).
Proof.
  unfold next_succeed, next_ok. destruct (fate w) as [|b rest]; simpl.
  - split; [done|]. intros _. by rewrite take_nil.
  - intros [-> H]%Forall_cons. done.
Qed.

Lemma file_table_register_from_ok table n : ∀ i s w,
  i + n ≤ length table → next_succeed n w →
  ∃ s' w',
    file_table_register_from table i n s w = Some (s', w')
    ∧ file_table s' = file_table s ++ take n (drop i table)
    ∧ files s' = files s ∧ output s' = output s
    ∧ libwrap_verbose s' = libwrap_verbose s
    ∧ bos w' = bos w ∧ fbs w' = fbs w.
Proof.
  induction n as [|n IH]; intros i s w Hlen Hok.
  - exists s, w. simpl. rewrite app_nil_r. done.
  - apply next_succeed_S in Hok as [Hnext Hrest]. simpl.
    unfold mbind, M_bind. rewrite (calloc_success _ Hnext).
    destruct (lookup_lt_is_Some_2 table i) as [t Ht]; [lia|]. rewrite Ht.
    destruct (IH (S i) (add_entry {| e_path := e_path t; e_open := e_open t |} s)
                (set_heap ({[fresh (heap w)]} ∪ heap w)
                   (set_fate (tail (fate w)) w))) as (s' & w' & -> & H1 & H2 & H3 & H4 & H5 & H6);
      [lia|apply Hrest|].
    exists s', w'. split_and!; [done| |done..].
    rewrite H1. simpl. rewrite <-app_assoc. f_equal.
    rewrite (drop_S _ _ _ Ht). simpl. by destruct t.
Qed.

Lemma file_table_register_from_fail table k : ∀ n i s w,
  k < n → i + k ≤ length table →
  next_succeed k w → fate w !! k = Some false →
  ∃ w',
    file_table_register_from table i n s w
    = Some (add_output [Stderr ("out of memory" +:+ nl)]
              {| file_table := file_table s ++ take k (drop i table);
                 files := files s; libwrap_verbose := libwrap_verbose s;
                 output := output s |}, w').
Proof.
  induction k as [|k IH]; intros n i s w Hk Hlen Hok Hfail.
  - destruct n as [|n]; [lia|]. simpl. unfold mbind, M_bind.
    rewrite calloc_failure.
    + eexists. rewrite app_nil_r. by destruct s.
    + unfold next_ok. destruct (fate w); [done|]. by injection Hfail as ->.
  - destruct n as [|n]; [lia|].
    apply next_succeed_S in Hok as [Hnext Hrest]. simpl.
    unfold mbind, M_bind. rewrite (calloc_success _ Hnext).
    destruct (lookup_lt_is_Some_2 table i) as [t Ht]; [lia|]. rewrite Ht.
    destruct (IH n (S i) (add_entry {| e_path := e_path t; e_open := e_open t |} s)
                (set_heap ({[fresh (heap w)]} ∪ heap w)
                   (set_fate (tail (fate w)) w))) as (w' & ->);
      [lia|lia|apply Hrest| |].
    + simpl. destruct (fate w); [done|]. done.
    + exists w'. do 3 f_equal. simpl. rewrite <-app_assoc. f_equal.
      rewrite (drop_S _ _ _ Ht). simpl. by destruct t.
Qed.


Lemma existsb_slot fd slots :
  existsb (λ d, (d =? fd)%Z) slots = true ↔ fd ∈ slots.
Proof.
  rewrite existsb_exists. split.
  - intros (d & Hin & ->%Z.eqb_eq). by apply list_elem_of_In.
  - intros Hin. exists fd. split; [by apply list_elem_of_In|apply Z.eqb_refl].
Qed.

Lemma file_lookup_walk_head f l fd :
  file_lookup_walk (f :: l) fd
  = if decide (holds f fd) then Some f else file_lookup_walk l fd.
Proof.
  simpl. unfold holds. destruct (Z.eqb_spec (f_fd f) fd) as [E|E].
  - rewrite decide_True by auto. done.
  - destruct (existsb _ _) eqn:Hex.
    + apply existsb_slot in Hex. rewrite decide_True by auto. done.
    + rewrite decide_False; [done|]. intros [?|Hin]; [done|].
      apply existsb_slot in Hin. congruence.
Qed.

Lemma file_lookup_walk_miss l fd :
  file_lookup_walk l fd = None ↔ ∀ g, g ∈ l → ¬ holds g fd.
Proof.
  induction l as [|f l IH].
  - split; [|done]. intros _ g Hg. by apply elem_of_nil in Hg.
  - rewrite file_lookup_walk_head. destruct (decide (holds f fd)) as [H|H].
    + split; [done|]. intros Hall. exfalso.
      by apply (Hall f), H; apply list_elem_of_here.
    + rewrite IH. split.
      * intros Hall g [->|Hg]%elem_of_cons; auto.
      * intros Hall g Hg. apply Hall. by apply list_elem_of_further.
Qed.

Lemma file_lookup_walk_first l1 f l2 fd :
  (∀ g, g ∈ l1 → ¬ holds g fd) → holds f fd →
  file_lookup_walk (l1 ++ f :: l2) fd = Some f.
Proof.
  intros Hl1 Hf. induction l1 as [|g l1 IH].
  - simpl app. rewrite file_lookup_walk_head. by rewrite decide_True.
  - rewrite <-app_comm_cons, file_lookup_walk_head.
    rewrite decide_False by (apply Hl1, list_elem_of_here).
    apply IH. intros g' Hg'. apply Hl1. by apply list_elem_of_further.
Qed.

Lemma file_lookup_walk_hit l fd f :
  file_lookup_walk l fd = Some f →
  ∃ l1 l2, l = l1 ++ f :: l2 ∧ holds f fd ∧ ∀ g, g ∈ l1 → ¬ holds g fd.
Proof.
  induction l as [|g l IH]; [done|].
  rewrite file_lookup_walk_head. destruct (decide (holds g fd)) as [H|H].
  - intros [= <-]. exists [], l. split_and!; [done..|].
    intros g' Hg'. by apply elem_of_nil in Hg'.
  - intros (l1 & l2 & -> & Hf & Hl1)%IH. exists (g :: l1), l2.
    split_and!; [done..|]. intros g' [->|Hg']%elem_of_cons; auto.
Qed.

(** X1: [file_lookup] finds nothing exactly when no open file holds the
    descriptor, as its primary descriptor or in a slot; otherwise it
    returns the first open file, in the order of [files], that holds it. *)
Theorem file_lookup_first_holder (fd : Z) (s : registry) :
  (file_lookup fd s = None ↔ ∀ g, g ∈ files s → ¬ holds g fd)
  ∧ (∀ f, file_lookup fd s = Some f ↔
          ∃ l1 l2, files s = l1 ++ f :: l2 ∧ holds f fd
                   ∧ ∀ g, g ∈ l1 → ¬ holds g fd).
Proof.
  split; [apply file_lookup_walk_miss|]. intros f. split.
  - apply file_lookup_walk_hit.
  - intros (l1 & l2 & Hl & Hf & Hl1). unfold file_lookup. rewrite Hl.
    by apply file_lookup_walk_first.
Qed.

(** X2: [file_lookup] compares the slots with the descriptor without
    setting the empty ones apart: after a successful [file_open] of a file
    that has slots, a lookup of -1 finds an open file, since every slot of
    the new file holds -1. *)
Theorem file_lookup_invalid_descriptor (path : string) (fd : Z)
    (s : registry) (file : file) :
  (file_open path fd s).1 = Some file → f_dup_fds file ≠ [] →
  is_Some (file_lookup (-1) (file_open path fd s).2).
Proof.
  unfold file_open.
  destruct (file_open_scan (file_table s) path fd) as [[f0|]|]; [|done..].
  simpl. intros [= <-] Hslots. simpl in Hslots.
  destruct (file_lookup (-1) _) as [g|] eqn:E; [done|]. exfalso.
  apply file_lookup_walk_miss with (g:=set_dup_fds (map (λ _, (-1)%Z) (f_dup_fds f0)) f0) in E.
  - apply E. right. simpl. destruct (f_dup_fds f0); [done|]. apply list_elem_of_here.
  - simpl. apply elem_of_app. right. apply list_elem_of_here.
Qed.

(** X3: a file that [file_open] has returned is found by [file_lookup]
    under its primary descriptor, provided no file that was open before
    holds that descriptor. *)
Theorem file_open_then_lookup (path : string) (fd : Z) (s : registry)
    (file : file) :
  (file_open path fd s).1 = Some file →
  (∀ g, g ∈ files s → ¬ holds g (f_fd file)) →
  file_lookup (f_fd file) (file_open path fd s).2 = Some file.
Proof.
  unfold file_open.
  destruct (file_open_scan (file_table s) path fd) as [[f0|]|]; [|done..].
  simpl. intros [= <-] Hfree. unfold file_lookup. simpl.
  apply file_lookup_walk_first; [done|]. by left.
Qed.

Lemma fill_slot_is_Some fd slots :
  Exists (λ d, (d < 0)%Z) slots → is_Some (fill_slot fd slots).
Proof.
  induction 1 as [d rest Hd|d rest _ IH]; simpl.
  - destruct (Z.ltb_spec d 0); [by eexists|lia].
  - destruct (Z.ltb_spec d 0); [by eexists|].
    destruct IH as [r ->]. by eexists.
Qed.

Lemma fill_slot_elem fd slots slots' :
  fill_slot fd slots = Some slots' → fd ∈ slots'.
Proof.
  intros (pre & d & post & _ & _ & ->)%fill_slot_Some.
  apply elem_of_app. right. apply list_elem_of_here.
Qed.

(** X4: after [file_dup] of a descriptor into an open file that has an
    empty slot, [file_lookup] of that descriptor returns this file (same
    struct, same primary descriptor, the descriptor now in a slot),
    provided no file before it in [files] holds the descriptor. *)
Theorem file_dup_then_lookup (s : registry) (l1 l2 : list file) (f : file)
    (fd : Z) :
  files s = l1 ++ f :: l2 → f_self f ∉ (f_self <$> l1) →
  Exists (λ d, (d < 0)%Z) (f_dup_fds f) →
  (∀ g, g ∈ l1 → ¬ holds g fd) →
  ∃ f', file_lookup fd (file_dup_at (f_self f) fd s) = Some f'
        ∧ f_self f' = f_self f ∧ f_fd f' = f_fd f ∧ fd ∈ f_dup_fds f'.
Proof.
  intros Hfiles Hself Hfree Hl1.
  destruct (fill_slot_is_Some fd _ Hfree) as [slots' Hfill].
  exists (set_dup_fds slots' f). unfold file_lookup, file_dup_at.
  rewrite Hfiles, (file_dup_walk_full _ _ _ _ _ Hself). simpl.
  unfold file_dup. rewrite Hfill. simpl.
  pose proof (fill_slot_elem _ _ _ Hfill).
  split_and!; [|done..]. apply file_lookup_walk_first; [done|]. by right.
Qed.

(** X5: [file_close] keeps the registry well formed (struct addresses
    distinct, live descriptors distinct, slots at least -1), whatever the
    descriptor: known, unknown or -1. *)
Theorem file_close_keeps_wf (fd : Z) (s : registry) :
  registry_wf (files s) → registry_wf (files (file_close fd s)).
Proof.
  intros [Ha Hr Hs].
  destruct (file_close_walk_shrinks (libwrap_verbose s) fd (files s) Hs)
    as (H1 & H2 & H3).
  unfold file_close.
  destruct (file_close_walk (libwrap_verbose s) fd (files s)) as [l out].
  simpl in *. constructor; [by eapply sublist_NoDup..|done].
Qed.


Lemma not_holds_of_refs g x : x ≠ (-1)%Z → x ∉ refs g → ¬ holds g x.
Proof.
  intros Hx Hg [E|Hin]; apply Hg, refs_elem; auto.
Qed.

Lemma file_close_eq s x l out :
  file_close_walk (libwrap_verbose s) x (files s) = (l, out) →
  file_close x s
  = {| file_table := file_table s; files := l;
       libwrap_verbose := libwrap_verbose s; output := output s ++ out |}.
Proof. unfold file_close. by intros ->. Qed.

Lemma file_close_noop fd s :
  (∀ f, f ∈ files s →
        f_fd f ≠ fd ∧ ∀ d, d ∈ f_dup_fds f → d ≠ (-1)%Z → d ≠ fd) →
  file_close fd s = s.
Proof.
  intros Hall. unfold file_close.
  rewrite (file_close_walk_unknown _ _ _ Hall), app_nil_r. by destruct s.
Qed.

(** X6: in a well-formed registry, closing a live descriptor a second
    time changes nothing: the files, their slots and the output are those
    after the first close, so nothing is released twice. *)
Theorem file_close_twice (s : registry) (h : file) (x : Z) :
  registry_wf (files s) → h ∈ files s → x ∈ refs h →
  file_close x (file_close x s) = file_close x s.
Proof.
  intros Hwf Hh Hx.
  apply list_elem_of_split in Hh as (l1 & l2 & Hfiles).
  rewrite Hfiles in Hwf.
  pose proof Hx as [Hm _]%refs_elem.
  pose proof Hwf as [_ Hnd _]. rewrite bind_app, bind_cons in Hnd.
  assert (∀ g, g ∈ l1 ++ l2 → x ∉ refs g) as Hothers.
  { apply NoDup_app in Hnd as (_ & Hd1 & (_ & Hd2 & _)%NoDup_app).
    intros g [Hg|Hg]%elem_of_app Hin.
    - apply (Hd1 x); [apply list_elem_of_bind; eauto|].
      apply elem_of_app. by left.
    - apply (Hd2 x Hx), list_elem_of_bind. eauto. }
  destruct (file_close_walk_step (libwrap_verbose s) l1 h l2 x Hwf Hx)
    as (h' & H1 & H2 & H3 & H4 & Hcase).
  assert (x ∉ refs h') as Hxh'.
  { apply NoDup_app in Hnd as (_ & _ & (Hh & _ & _)%NoDup_app).
    rewrite H3 in Hh. by apply NoDup_cons in Hh as [? _]. }
  assert (∀ l out, file_close_walk (libwrap_verbose s) x (files s) = (l, out) →
            (∀ g, g ∈ l → x ∉ refs g) →
            file_close x (file_close x s) = file_close x s) as Hdone.
  { intros l out Hwalk Hall. rewrite (file_close_eq _ _ _ _ Hwalk).
    apply file_close_noop. simpl. intros g Hg. specialize (Hall g Hg). split.
    - intros E. apply Hall, refs_elem. auto.
    - intros d Hd Hd' ->. apply Hall, refs_elem. auto. }
  rewrite Hfiles in Hdone.
  destruct Hcase as [[_ Hwalk]|[_ [msg Hwalk]]].
  - apply (Hdone _ _ Hwalk). intros g Hg.
    apply elem_of_app in Hg as [Hg|Hg]; [apply Hothers, elem_of_app; auto|].
    apply elem_of_cons in Hg as [->|Hg]; [done|].
    apply Hothers, elem_of_app; auto.
  - apply (Hdone _ _ Hwalk). exact Hothers.
Qed.


(** Closing references of one file, with the files around it. *)
Lemma close_all_frame pre : ∀ post s h l1 l2,
  files s = l1 ++ h :: l2 → registry_wf (files s) →
  refs h ≡ₚ pre ++ post → post ≠ [] →
  ∃ h1, files (close_all pre s) = l1 ++ h1 :: l2
        ∧ registry_wf (files (close_all pre s))
        ∧ refs h1 ≡ₚ post
        ∧ file_table (close_all pre s) = file_table s.
Proof.
  induction pre as [|x pre IH]; intros post s h l1 l2 Hfiles Hwf Hperm Hpost.
  - exists h. by split_and!.
  - rewrite close_all_cons.
    assert (x ∈ refs h) as Hx by (rewrite Hperm; apply list_elem_of_here).
    rewrite Hfiles in Hwf.
    destruct (file_close_walk_step (libwrap_verbose s) l1 h l2 x Hwf Hx)
      as (h' & H1 & _ & H3 & H4 & Hcase).
    assert (refs h' ≡ₚ pre ++ post) as Hperm'.
    { apply (Permutation_cons_inv (a:=x)). by rewrite <-H3, Hperm. }
    destruct Hcase as [[_ Hwalk]|[He _]].
    2:{ rewrite He in Hperm'. apply Permutation_nil in Hperm'.
        by apply app_eq_nil in Hperm' as [_ ?]. }
    rewrite <-Hfiles in Hwalk.
    destruct (registry_wf_replace _ _ _ _ _ Hwf H1 H3 H4) as [Hwf' _].
    destruct (IH post (file_close x s) h' l1 l2) as (h1 & G1 & G2 & G3 & G4);
      rewrite ?(file_close_eq _ _ _ _ Hwalk); try done.
    exists h1. by rewrite (file_close_eq _ _ _ _ Hwalk) in G1, G2, G4.
Qed.

Lemma close_all_removes order s h l1 l2 :
  files s = l1 ++ h :: l2 → registry_wf (files s) →
  refs h ≠ [] → order ≡ₚ refs h →
  files (close_all order s) = l1 ++ l2
  ∧ file_table (close_all order s) = file_table s.
Proof.
  intros Hfiles Hwf Hne Hperm.
  destruct order as [|x pre _] using rev_ind.
  { apply Permutation_nil in Hperm. done. }
  rewrite close_all_snoc.
  destruct (close_all_frame pre [x] s h l1 l2) as (h1 & G1 & G2 & G3 & G4);
    [done..|].
  assert (x ∈ refs h1) as Hx by (rewrite G3; apply list_elem_of_here).
  rewrite G1 in G2.
  destruct (file_close_walk_step (libwrap_verbose (close_all pre s))
              l1 h1 l2 x G2 Hx) as (h' & H1 & _ & H3 & _ & Hcase).
  assert (refs h' = []) as He.
  { apply Permutation_nil_r. apply (Permutation_cons_inv (a:=x)).
    by rewrite <-H3, G3. }
  destruct Hcase as [[Hne' _]|[_ [msg Hwalk]]]; [done|].
  rewrite <-G1 in Hwalk. by rewrite (file_close_eq _ _ _ _ Hwalk).
Qed.

(** X7: closing every live reference of an open file of a well-formed
    registry, in any order, removes this file and no other: the other open
    files are left as they were and in their order, the table is unchanged,
    and none of the closed descriptors is found by [file_lookup] any more. *)
Theorem file_close_all_removes_only (s : registry) (h : file)
    (l1 l2 : list file) (order : list Z) :
  files s = l1 ++ h :: l2 → registry_wf (files s) →
  refs h ≠ [] → order ≡ₚ refs h →
  files (close_all order s) = l1 ++ l2
  ∧ file_table (close_all order s) = file_table s
  ∧ ∀ d, d ∈ order → file_lookup d (close_all order s) = None.
Proof.
  intros Hfiles Hwf Hne Hperm.
  destruct (close_all_removes order s h l1 l2) as [H1 H2]; [done..|].
  split_and!; [done..|]. intros d Hd. rewrite Hperm in Hd.
  unfold file_lookup. rewrite H1. apply file_lookup_walk_miss.
  pose proof Hd as [Hm _]%refs_elem.
  rewrite Hfiles in Hwf. destruct Hwf as [_ Hnd _].
  rewrite bind_app, bind_cons in Hnd.
  apply NoDup_app in Hnd as (_ & Hd1 & (_ & Hd2 & _)%NoDup_app).
  intros g [Hg|Hg]%elem_of_app; apply not_holds_of_refs; try done.
  - intros Hin. apply (Hd1 d); [apply list_elem_of_bind; eauto|].
    apply elem_of_app. by left.
  - intros Hin. apply (Hd2 d Hd), list_elem_of_bind. eauto.
Qed.

Lemma file_find_walk_miss l path :
  file_find_walk l path = None ↔ ∀ g, g ∈ l → f_path g ≠ path.
Proof.
  induction l as [|f l IH]; simpl.
  - split; [|done]. intros _ g Hg. by apply elem_of_nil in Hg.
  - destruct (String.eqb_spec (f_path f) path) as [E|E].
    + split; [done|]. intros Hall. by destruct (Hall f (list_elem_of_here _ _)).
    + rewrite IH. split.
      * intros Hall g [->|Hg]%elem_of_cons; auto.
      * intros Hall g Hg. apply Hall. by apply list_elem_of_further.
Qed.

Lemma file_find_walk_first l1 f l2 :
  (∀ g, g ∈ l1 → f_path g ≠ f_path f) →
  file_find_walk (l1 ++ f :: l2) (f_path f) = Some f.
Proof.
  intros Hl1. induction l1 as [|g l1 IH]; simpl.
  - by rewrite String.eqb_refl.
  - destruct (String.eqb_spec (f_path g) (f_path f)) as [E|E].
    + by destruct (Hl1 g (list_elem_of_here _ _)).
    + apply IH. intros g' Hg'. apply Hl1. by apply list_elem_of_further.
Qed.

(** [file_close] keeps the address and the path of the structs that stay
    in the list. *)
Lemma file_close_walk_origin verbose x l g :
  g ∈ (file_close_walk verbose x l).1 →
  ∃ g0, g0 ∈ l ∧ f_self g = f_self g0 ∧ f_path g = f_path g0.
Proof.
  induction l as [|f rest IH]; [by intros ?%elem_of_nil|].
  assert (∀ f', f_self f' = f_self f → f_path f' = f_path f →
            g ∈ f' :: rest →
            ∃ g0, g0 ∈ f :: rest ∧ f_self g = f_self g0
                  ∧ f_path g = f_path g0) as Hkeep.
  { intros f' E1 E2 [->|Hg]%elem_of_cons.
    - exists f. split; [apply list_elem_of_here|done].
    - exists g. split; [by apply list_elem_of_further|done]. }
  assert (g ∈ rest →
          ∃ g0, g0 ∈ f :: rest ∧ f_self g = f_self g0
                ∧ f_path g = f_path g0) as Hdrop.
  { intros Hg. exists g. split; [by apply list_elem_of_further|done]. }
  cbn [file_close_walk].
  destruct (Z.eqb_spec (f_fd f) x) as [_|_].
  - destruct (existsb _ _); cbn [fst]; [by apply Hkeep|done].
  - destruct (clear_slot x (f_dup_fds f)) as [slots'|].
    + destruct (negb _); [|destruct (existsb _ slots')]; cbn [fst];
        [by apply Hkeep..|done].
    + destruct (file_close_walk verbose x rest) as [rest' out].
      cbn [fst] in *. intros [->|Hg]%elem_of_cons.
      * exists f. split; [apply list_elem_of_here|done].
      * destruct (IH Hg) as (g0 & ? & ? & ?).
        exists g0. split; [by apply list_elem_of_further|done].
Qed.

Lemma close_all_origin closes : ∀ s g,
  g ∈ files (close_all closes s) →
  ∃ g0, g0 ∈ files s ∧ f_self g = f_self g0 ∧ f_path g = f_path g0.
Proof.
  induction closes as [|x closes IH]; intros s g Hg; [by exists g|].
  rewrite close_all_cons in Hg.
  destruct (IH _ _ Hg) as (g1 & Hg1 & E1 & E2).
  assert (g1 ∈ (file_close_walk (libwrap_verbose s) x (files s)).1) as Hg1'.
  { unfold file_close in Hg1.
    by destruct (file_close_walk (libwrap_verbose s) x (files s)). }
  destruct (file_close_walk_origin _ _ _ _ Hg1') as (g0 & ? & ? & ?).
  exists g0. split; [done|]. split; congruence.
Qed.

(** X8: when no other open file has its path, an open file is found by
    [file_find] under that path in every state in which it is open: at the
    start, and after any sequence of closes that leaves one of its
    references unclosed (the struct found has the same address and path).
    Once all its references have been closed, [file_find] finds nothing
    under that path. *)
Theorem file_find_until_released (s : registry) (h : file)
    (l1 l2 : list file) (closes : list Z) :
  files s = l1 ++ h :: l2 → registry_wf (files s) → refs h ≠ [] →
  (∀ g, g ∈ l1 ++ l2 → f_path g ≠ f_path h) →
  file_find (f_path h) s = Some h
  ∧ ((∃ d, d ∈ refs h ∧ d ∉ closes) →
     ∃ h1, file_find (f_path h) (close_all closes s) = Some h1
           ∧ f_self h1 = f_self h ∧ f_path h1 = f_path h
           ∧ h1 ∈ files (close_all closes s))
  ∧ ((∀ d, d ∈ refs h → d ∈ closes) →
     file_find (f_path h) (close_all closes s) = None).
Proof.
  intros Hfiles Hwf Hne Hpath.
  assert (h ∈ files s) as Hh.
  { rewrite Hfiles. apply elem_of_app. right. apply list_elem_of_here. }
  assert (∀ g, g ∈ files (close_all closes s) → f_self g ≠ f_self h →
            f_path g ≠ f_path h) as Hothers.
  { intros g Hg Hself.
    destruct (close_all_origin _ _ _ Hg) as (g0 & Hg0 & E1 & E2).
    rewrite E2. apply Hpath. rewrite Hfiles in Hg0.
    apply elem_of_app in Hg0 as [?|[->|?]%elem_of_cons];
      [apply elem_of_app; by left|congruence|apply elem_of_app; by right]. }
  unfold file_find. split_and!.
  - rewrite Hfiles. apply file_find_walk_first.
    intros g Hg. apply Hpath, elem_of_app. by left.
  - intros Hleft.
    destruct (close_all_track closes s h Hwf Hh Hne) as [HA _].
    destruct (HA Hleft) as (h1 & G1 & G2 & _ & _ & G5 & _).
    assert (f_path h1 = f_path h) as Hp.
    { destruct (close_all_origin _ _ _ G1) as (g0 & Hg0 & E1 & E2).
      rewrite E2. rewrite Hfiles in Hg0.
      apply elem_of_app in Hg0 as [Hg0|[->|Hg0]%elem_of_cons]; [|done|].
      - exfalso. rewrite Hfiles in Hwf.
        destruct Hwf as [Ha _ _]. rewrite fmap_app, fmap_cons in Ha.
        apply NoDup_app in Ha as (_ & Ha & _).
        apply (Ha (f_self g0)); [by apply list_elem_of_fmap_2|].
        rewrite <-E1, G2. apply list_elem_of_here.
      - exfalso. rewrite Hfiles in Hwf.
        destruct Hwf as [Ha _ _]. rewrite fmap_app, fmap_cons in Ha.
        apply NoDup_app in Ha as (_ & _ & [Ha _]%NoDup_cons).
        apply Ha. rewrite <-G2, E1. by apply list_elem_of_fmap_2. }
    exists h1. split_and!; [|done..].
    pose proof G1 as (k1 & k2 & Hk)%list_elem_of_split.
    rewrite Hk, <-Hp. apply file_find_walk_first.
    intros g Hg. rewrite Hp. apply Hothers.
    + rewrite Hk. apply elem_of_app. by left.
    + rewrite Hk in G5. destruct G5 as [Ha _ _].
      rewrite fmap_app, fmap_cons in Ha.
      apply NoDup_app in Ha as (_ & Ha & _). intros E.
      apply (Ha (f_self g)); [by apply list_elem_of_fmap_2|].
      rewrite E, <-G2. apply list_elem_of_here.
  - intros Hall.
    destruct (close_all_track closes s h Hwf Hh Hne) as [_ HB].
    destruct (HB Hall) as [Hgone _].
    apply file_find_walk_miss. intros g Hg. apply Hothers; [done|].
    intros E. apply Hgone. rewrite <-E. by apply list_elem_of_fmap_2.
Qed.

Lemma dup_all_fill verbose ds : ∀ pre m f,
  f_dup_fds f = pre ++ replicate m (-1)%Z →
  Forall (λ d, (0 ≤ d)%Z) pre → Forall (λ d, (0 ≤ d)%Z) ds →
  length ds ≤ m →
  f_dup_fds (dup_all verbose ds f)
  = pre ++ ds ++ replicate (m - length ds) (-1)%Z
  ∧ f_fd (dup_all verbose ds f) = f_fd f
  ∧ f_self (dup_all verbose ds f) = f_self f.
Proof.
  induction ds as [|d ds IH]; intros pre m f Hsl Hpre Hds Hlen.
  - simpl. by rewrite Nat.sub_0_r.
  - apply Forall_cons in Hds as [Hd Hds].
    destruct m as [|m]; [simpl in Hlen; lia|].
    simpl in Hsl, Hlen.
    change (dup_all verbose (d :: ds) f)
      with (dup_all verbose ds (file_dup verbose f d).1).
    assert ((file_dup verbose f d).1
            = set_dup_fds (pre ++ d :: replicate m (-1)%Z) f) as ->.
    { unfold file_dup. by rewrite Hsl, (fill_slot_first _ _ _ _ Hpre) by lia. }
    destruct (IH (pre ++ [d]) m (set_dup_fds (pre ++ d :: replicate m (-1)%Z) f))
      as (-> & -> & ->); [|by apply Forall_app; auto|done|lia|].
    + simpl. by rewrite <-app_assoc.
    + by rewrite <-app_assoc.
Qed.

(** X9: the descriptors duplicated into a newly opened file take the
    slots in order, the remaining slots staying -1; once as many
    descriptors as there are slots have been duplicated, every further
    [file_dup] leaves the struct unchanged and writes [out of FD slots]. *)
Theorem file_dup_fills_in_order (verbose : bool) (path : string) (fd : Z)
    (s : registry) (file : file) (ds : list Z) :
  (file_open path fd s).1 = Some file →
  Forall (λ d, (0 ≤ d)%Z) ds → length ds ≤ length (f_dup_fds file) →
  f_dup_fds (dup_all verbose ds file)
  = ds ++ replicate (length (f_dup_fds file) - length ds) (-1)%Z
  ∧ (length ds = length (f_dup_fds file) →
     ∀ d, file_dup verbose (dup_all verbose ds file) d
          = (dup_all verbose ds file, [Stderr ("out of FD slots" +:+ nl)])).
Proof.
  intros Hopen Hds Hlen.
  assert (f_dup_fds file = replicate (length (f_dup_fds file)) (-1)%Z) as Hsl.
  { clear Hlen. revert Hopen. unfold file_open.
    destruct (file_open_scan (file_table s) path fd) as [[f0|]|]; [|done..].
    simpl. intros [= <-]. simpl. rewrite length_map.
    induction (f_dup_fds f0) as [|? ? IH]; [done|]. cbn. by f_equal. }
  destruct (dup_all_fill verbose ds [] _ file Hsl) as (H1 & _ & _);
    [done..|].
  simpl in H1. split; [done|]. intros Hfull d.
  unfold file_dup. rewrite fill_slot_None; [done|].
  rewrite H1, Hfull, Nat.sub_diag. simpl. by rewrite app_nil_r.
Qed.


Lemma file_dup_walk_absent verbose a fd l :
  a ∉ (f_self <$> l) → file_dup_walk verbose a fd l = (l, []).
Proof.
  induction l as [|f l IH]; [done|]. simpl.
  intros [Hf Hl]%not_elem_of_cons.
  destruct (Nat.eqb_spec (f_self f) a); [congruence|]. by rewrite IH.
Qed.

(** X11: [file_dup] of a descriptor that is zero or more and that no
    open file holds keeps the registry well formed, whether the file has an
    empty slot or not. *)
Theorem file_dup_at_keeps_wf (a : addr) (fd : Z) (s : registry) :
  registry_wf (files s) → (0 ≤ fd)%Z → fd ∉ (files s ≫= refs) →
  registry_wf (files (file_dup_at a fd s)).
Proof.
  intros Hwf Hfd Hnew. unfold file_dup_at.
  destruct (decide (a ∈ f_self <$> files s)) as [Hin|Hout].
  - apply list_elem_of_fmap in Hin as (f & -> & Hf).
    apply list_elem_of_split in Hf as (l1 & l2 & Hfiles).
    rewrite Hfiles in Hwf, Hnew |- *.
    rewrite file_dup_walk_full.
    + simpl. by apply file_dup_wf.
    + destruct Hwf as [Ha _ _]. rewrite fmap_app, fmap_cons in Ha.
      apply NoDup_app in Ha as (_ & Ha & _). intros Hin.
      apply (Ha _ Hin), list_elem_of_here.
  - by rewrite file_dup_walk_absent.
Qed.


Lemma file_table_register_from_extends table n : ∀ i s w s' w',
  file_table_register_from table i n s w = Some (s', w') →
  (∃ added, file_table s' = file_table s ++ added) ∧ files s' = files s.
Proof.
  induction n as [|n IH]; intros i s w s' w'; simpl.
  - intros [= <- _]. split; [|done]. exists []. by rewrite app_nil_r.
  - unfold mbind, M_bind, calloc.
    destruct (next_ok w); [|intros [= <- _]; split; [|done]; exists [];
                            simpl; by rewrite app_nil_r].
    destruct (table !! i) as [t|]; [|done].
    intros [[added Ha] Hf]%IH. simpl in *. split; [|done].
    eexists. by rewrite Ha, <-app_assoc.
Qed.

Lemma file_open_scan_app t1 t2 path fd :
  file_open_scan (t1 ++ t2) path fd
  = match file_open_scan t1 path fd with
    | Some r => Some r
    | None => file_open_scan t2 path fd
    end.
Proof.
  induction t1 as [|e t1 IH]; [done|]. simpl.
  by destruct (String.eqb (e_path e) path).
Qed.

Lemma file_open_scan_hit table path fd :
  Exists (λ e, e_path e = path) table →
  is_Some (file_open_scan table path fd).
Proof.
  induction 1 as [e rest He|e rest _ IH]; simpl.
  - rewrite <-He, String.eqb_refl. by eexists.
  - destruct (String.eqb (e_path e) path); [by eexists|done].
Qed.

(** X12: when the allocations succeed, [file_table_register] appends
    the first [count] entries of the array to the table, in the order of
    the array, and touches nothing else of the registry. *)
Theorem file_table_register_appends (table : list file_table_entry)
    (count : nat) (s : registry) (w : world) :
  count ≤ length table → next_succeed count w →
  ∃ s' w',
    file_table_register table count s w = Some (s', w')
    ∧ file_table s' = file_table s ++ take count table
    ∧ files s' = files s ∧ output s' = output s.
Proof.
  intros Hlen Hok.
  destruct (file_table_register_from_ok table count 0 s w)
    as (s' & w' & H & H1 & H2 & H3 & _); [done..|].
  exists s', w'. rewrite drop_0 in H1. done.
Qed.

(** X13: when the allocation of entry number [k] fails, the entries
    before it stay registered, the line [out of memory] is written, and the
    entries from [k] on are not registered: the call stops half way and
    undoes nothing. *)
Theorem file_table_register_out_of_memory (table : list file_table_entry)
    (count k : nat) (s : registry) (w : world) :
  k < count → k ≤ length table →
  next_succeed k w → fate w !! k = Some false →
  ∃ w',
    file_table_register table count s w
    = Some ({| file_table := file_table s ++ take k table;
               files := files s; libwrap_verbose := libwrap_verbose s;
               output := output s ++ [Stderr ("out of memory" +:+ nl)] |},
            w').
Proof.
  intros Hk Hlen Hok Hfail.
  destruct (file_table_register_from_fail table k count 0 s w) as [w' H];
    [done..|].
  exists w'. unfold file_table_register. rewrite H, drop_0. done.
Qed.

(** X14: a path that has an entry in the table keeps its constructor
    when more entries are registered, whatever they are: [file_open] on
    that path gives the same result after the registration as before. *)
Theorem file_table_register_shadowed (table : list file_table_entry)
    (count : nat) (s s' : registry) (w w' : world) (path : string) (fd : Z) :
  file_table_register table count s w = Some (s', w') →
  Exists (λ e, e_path e = path) (file_table s) →
  (file_open path fd s').1 = (file_open path fd s).1
  ∧ files (file_open path fd s').2 = files (file_open path fd s).2.
Proof.
  intros [[added Ha] Hf]%file_table_register_from_extends Hex.
  unfold file_open. rewrite Ha, file_open_scan_app, Hf.
  destruct (file_open_scan_hit _ path fd Hex) as [r ->].
  by destruct r.
Qed.

End more_registry.

(* ===================================================================== *)
(** * Further properties of the chip identification *)
(* ===================================================================== *)

Lemma read_chip_id_events fs p :
  (read_chip_id fs p).2
  = Fopen p :: match fs p with
               | NoNumber => [Diag ("fscanf failed for " +:+ p +:+ nl)]
               | _ => []
               end.
Proof. unfold read_chip_id. by destruct (fs p). Qed.

Lemma read_chip_id_valid fs p :
  (read_chip_id fs p).1 = TEGRA_INVALID ↔ fs p = NoFile.
Proof.
  unfold read_chip_id. destruct (fs p) as [| |n]; simpl; [done|done|].
  split; [|done].
  by repeat match goal with |- context [if ?b then _ else _] => destruct b end.
Qed.

Lemma tegra_chip_id_scan_first fs pre p post :
  Forall (λ q, fs q = NoFile) pre → fs p ≠ NoFile →
  tegra_chip_id_scan fs (pre ++ p :: post)
  = (Some (read_chip_id fs p).1, (Fopen <$> pre) ++ (read_chip_id fs p).2).
Proof.
  intros Hpre Hp. induction Hpre as [|q pre Hq _ IH]; simpl.
  - destruct (read_chip_id fs p) as [i e] eqn:E. simpl.
    rewrite decide_True; [done|].
    intros Hi. apply Hp, read_chip_id_valid. by rewrite E.
  - rewrite IH. unfold read_chip_id at 1. rewrite Hq. simpl. done.
Qed.

Lemma tegra_chip_id_scan_none fs paths :
  Forall (λ q, fs q = NoFile) paths →
  tegra_chip_id_scan fs paths = (None, Fopen <$> paths).
Proof.
  induction 1 as [|q rest Hq _ IH]; simpl; [done|].
  rewrite IH. unfold read_chip_id. rewrite Hq. done.
Qed.

(** X15: on a first call, the first candidate path that can be opened
    decides the result of [tegra_chip_id], which is stored; the paths
    before it are tried once each, the paths after it are never opened,
    and a file without a number gives [TEGRA_UNKNOWN]. *)
Theorem tegra_chip_id_first_readable (fs : sysfs) (st : chip_state)
    (pre post : list string) (p : string) :
  static_id st = TEGRA_INVALID →
  chip_paths = pre ++ p :: post →
  Forall (λ q, fs q = NoFile) pre → fs p ≠ NoFile →
  tegra_chip_id fs st
  = ((read_chip_id fs p).1,
     {| static_id := (read_chip_id fs p).1;
        chip_trace := chip_trace st ++ (Fopen <$> pre)
                        ++ (read_chip_id fs p).2 |})
  ∧ (fs p = NoNumber → (read_chip_id fs p).1 = TEGRA_UNKNOWN)
  ∧ ∀ q, q ∈ post → Fopen q ∉ (Fopen <$> pre) ++ (read_chip_id fs p).2.
Proof.
  intros Hst Hpaths Hpre Hp. split_and!.
  - unfold tegra_chip_id. rewrite decide_False by (intros H; by apply H).
    by rewrite Hpaths, (tegra_chip_id_scan_first _ _ _ _ Hpre Hp).
  - unfold read_chip_id. by intros ->.
  - intros q Hq. rewrite read_chip_id_events.
    assert (NoDup chip_paths) as Hnd by compute_done.
    rewrite Hpaths in Hnd.
    apply NoDup_app in Hnd as (_ & Hd & [Hp' _]%NoDup_cons).
    intros [Hin|Hin]%elem_of_app.
    + apply list_elem_of_fmap in Hin as (q' & [= ->] & Hq').
      apply (Hd _ Hq'). by apply list_elem_of_further.
    + apply elem_of_cons in Hin as [[= ->]|Hin]; [done|].
      destruct (fs p); [by apply elem_of_nil in Hin| |by apply elem_of_nil in Hin].
      by apply list_elem_of_singleton in Hin.
Qed.

(** X16: when none of the candidate paths can be opened, the first
    call tries each once, writes [failed to identify SoC version] and
    returns [TEGRA_UNKNOWN]; this answer is stored, so later calls return
    it without trying again, even when the files have appeared. *)
Theorem tegra_chip_id_unreadable_sticks (fs : sysfs) (st : chip_state) :
  static_id st = TEGRA_INVALID →
  Forall (λ q, fs q = NoFile) chip_paths →
  tegra_chip_id fs st
  = (TEGRA_UNKNOWN,
     {| static_id := TEGRA_UNKNOWN;
        chip_trace := chip_trace st ++ (Fopen <$> chip_paths)
          ++ [Diag ("failed to identify SoC version" +:+ nl)] |})
  ∧ ∀ fs', tegra_chip_id fs' (tegra_chip_id fs st).2
           = (TEGRA_UNKNOWN, (tegra_chip_id fs st).2).
Proof.
  intros Hst Hnone.
  assert (tegra_chip_id fs st
          = (TEGRA_UNKNOWN,
             {| static_id := TEGRA_UNKNOWN;
                chip_trace := chip_trace st ++ (Fopen <$> chip_paths)
                  ++ [Diag ("failed to identify SoC version" +:+ nl)] |}))
    as E.
  { unfold tegra_chip_id. rewrite decide_False by (intros H; by apply H).
    by rewrite (tegra_chip_id_scan_none _ _ Hnone). }
  split; [done|]. intros fs'. rewrite E. simpl.
  by rewrite tegra_chip_id_cached.
Qed.


(* ===================================================================== *)
(** * Further properties of buffer objects and framebuffers *)
(* ===================================================================== *)

Section more_grate.
Variable LONG_BIT : Z.
Variable GRATE_DOUBLE_BUFFERED : Z.
Variable pixbuf_bo : nat → option nat.
Implicit Types (w : world) (bo view parent : grate_bo).

Lemma heap_alloc_free (H : gset addr) :
  ({[fresh H]} ∪ H) ∖ {[fresh H]} = H.
Proof.
  apply set_eq. intros x.
  rewrite elem_of_difference, elem_of_union, elem_of_singleton.
  pose proof (is_fresh H) as Hfresh.
  split; [by intros [[->|?] ?]|].
  intros Hx. split; [by right|]. by intros ->.
Qed.

Lemma bos_alloc_free (m : gmap nat host1x_bo) b b' :
  delete (fresh (dom m)) (<[fresh (dom m) := b]> (<[fresh (dom m) := b']> m)) = m.
Proof.
  rewrite insert_insert_eq, delete_insert_eq.
  apply delete_id, not_elem_of_dom, is_fresh.
Qed.

Lemma bos_alloc_free1 (m : gmap nat host1x_bo) b :
  delete (fresh (dom m)) (<[fresh (dom m) := b]> m) = m.
Proof.
  rewrite delete_insert_eq. apply delete_id, not_elem_of_dom, is_fresh.
Qed.

Lemma fresh_in_heap (H : gset addr) : fresh H ∈ {[fresh H]} ∪ H.
Proof. by apply elem_of_union_l, elem_of_singleton. Qed.

Lemma grate_bo_create_None size flags w w' :
  grate_bo_create size flags w = Some (None, w') →
  heap w' = heap w ∧ bos w' = bos w ∧ fbs w' = fbs w.
Proof.
  unfold grate_bo_create. run_M. unfold calloc.
  case_next_ok; [|by intros [= <-]].
  unfold host1x_bo_create. world_simpl. case_next_ok; [done|].
  unfold free. world_simpl. rewrite decide_True by apply fresh_in_heap.
  intros [= <-]. world_simpl. by rewrite heap_alloc_free.
Qed.

Lemma grate_bo_create_from_data_None size flags data w w' :
  grate_bo_create_from_data size flags data w = Some (None, w') →
  heap w' = heap w ∧ bos w' = bos w ∧ fbs w' = fbs w.
Proof.
  unfold grate_bo_create_from_data, grate_bo_map, grate_bo_free,
    grate_bo_invalidate, grate_error.
  run_M. unfold calloc. case_next_ok; [|by intros [= <-]].
  unfold host1x_bo_create. world_simpl. case_next_ok.
  2:{ unfold free. world_simpl. rewrite decide_True by apply fresh_in_heap.
      intros [= <-]. world_simpl. by rewrite heap_alloc_free. }
  unfold host1x_bo_mmap. world_simpl. rewrite lookup_insert_eq.
  case_next_ok.
  2:{ unfold host1x_bo_free. world_simpl. rewrite lookup_insert_eq.
      unfold free. world_simpl. rewrite decide_True by apply fresh_in_heap.
      intros [= <-]. world_simpl.
      by rewrite heap_alloc_free, bos_alloc_free1. }
  unfold memcpy. world_simpl. rewrite lookup_insert_eq.
  destruct (_ && _); [|done]. unfold host1x_bo_invalidate. done.
Qed.

(** X17: whenever [grate_bo_create] or [grate_bo_create_from_data]
    returns NULL (the struct, the backing object or the mapping could not
    be had), everything allocated on the way has been released: the live
    blocks and the live backing objects are those from before the call. *)
Theorem grate_bo_create_failure_leaks_nothing (size flags : Z)
    (data : list Byte.byte) (w w' : world) :
  grate_bo_create size flags w = Some (None, w')
  ∨ grate_bo_create_from_data size flags data w = Some (None, w') →
  heap w' = heap w ∧ bos w' = bos w ∧ fbs w' = fbs w.
Proof.
  intros [H|H];
    [by eapply grate_bo_create_None|by eapply grate_bo_create_from_data_None].
Qed.

Lemma grate_bo_create_inv size flags w bo w' :
  grate_bo_create size flags w = Some (Some bo, w') →
  bo = {| bo_self := fresh (heap w); bo_bo := fresh (dom (bos w));
          bo_size := size; bo_offset := 0 |}
  ∧ heap w' = {[fresh (heap w)]} ∪ heap w
  ∧ bos w' = <[fresh (dom (bos w)) :=
                 {| hb_data := junk w <$> seq 0 (Z.to_nat size);
                    hb_mapped := false |}]> (bos w)
  ∧ fbs w' = fbs w.
Proof.
  unfold grate_bo_create. run_M. unfold calloc.
  case_next_ok; [|done].
  unfold host1x_bo_create. world_simpl. case_next_ok.
  - by intros [= <- <-].
  - unfold free. world_simpl. by case_decide.
Qed.

Lemma grate_bo_create_from_data_world size flags data w bo w' :
  grate_bo_create_from_data size flags data w = Some (Some bo, w') →
  bo_self bo = fresh (heap w) ∧ bo_bo bo = fresh (dom (bos w))
  ∧ heap w' = {[fresh (heap w)]} ∪ heap w
  ∧ (∃ b, bos w' = <[fresh (dom (bos w)) := b]> (bos w))
  ∧ fbs w' = fbs w.
Proof.
  unfold grate_bo_create_from_data, grate_bo_map, grate_bo_free,
    grate_bo_invalidate, grate_error.
  run_M. unfold calloc. case_next_ok; [|done].
  unfold host1x_bo_create. world_simpl. case_next_ok.
  2:{ unfold free. world_simpl. by case_decide. }
  unfold host1x_bo_mmap. world_simpl. rewrite lookup_insert_eq.
  case_next_ok.
  2:{ unfold host1x_bo_free. world_simpl. rewrite lookup_insert_eq.
      unfold free. world_simpl. by case_decide. }
  unfold memcpy. world_simpl. rewrite lookup_insert_eq.
  destruct (_ && _); [|done].
  unfold host1x_bo_invalidate. intros [= <- <-]. world_simpl.
  split_and!; [done..| |done]. eexists. by rewrite !insert_insert_eq.
Qed.

(** X18: a buffer object made by [grate_bo_create] or
    [grate_bo_create_from_data] and freed at once with [grate_bo_free]
    leaves the live blocks and the live backing objects as they were
    before it was made. *)
Theorem grate_bo_create_free (size flags : Z) (data : list Byte.byte)
    (w w1 : world) (bo : grate_bo) :
  grate_bo_create size flags w = Some (Some bo, w1)
  ∨ grate_bo_create_from_data size flags data w = Some (Some bo, w1) →
  ∃ w2, grate_bo_free bo w1 = Some (tt, w2)
        ∧ heap w2 = heap w ∧ bos w2 = bos w ∧ fbs w2 = fbs w.
Proof.
  intros H.
  assert (bo_self bo = fresh (heap w) ∧ bo_bo bo = fresh (dom (bos w))
          ∧ heap w1 = {[fresh (heap w)]} ∪ heap w
          ∧ (∃ b, bos w1 = <[fresh (dom (bos w)) := b]> (bos w))
          ∧ fbs w1 = fbs w) as (Hself & Hbo & Hheap & [b Hbos] & Hfbs).
  { destruct H as [H|H].
    - apply grate_bo_create_inv in H as (-> & ? & ? & ?).
      split_and!; [done..| |done]. by eexists.
    - by apply grate_bo_create_from_data_world in H. }
  unfold grate_bo_free. run_M. unfold host1x_bo_free.
  rewrite Hbo, Hbos, lookup_insert_eq. unfold free. world_simpl.
  rewrite Hself, Hheap, decide_True by apply fresh_in_heap.
  eexists. split; [reflexivity|]. world_simpl.
  by rewrite heap_alloc_free, bos_alloc_free1.
Qed.

(** The view made by [grate_wrap_bo], without assumption on the parent. *)
Lemma grate_wrap_bo_shape parent offset w view w' :
  grate_wrap_bo LONG_BIT parent offset w = Some (Some view, w') →
  bo_bo view = bo_bo parent
  ∧ bo_self view = fresh (heap w)
  ∧ heap w' = {[fresh (heap w)]} ∪ heap w
  ∧ bos w' = bos w ∧ fbs w' = fbs w.
Proof.
  unfold grate_wrap_bo. destruct (_ <=? _)%Z; [done|].
  run_M. unfold calloc. case_next_ok; [|done]. by intros [= <- <-].
Qed.

(** X19: [grate_bo_free] on a view made by [grate_wrap_bo] frees the
    backing object it shares with its parent: afterwards the parent's
    backing object is gone, and mapping or freeing the parent acts on a
    freed object (no defined result). *)
Theorem grate_bo_free_view_frees_parent (parent : grate_bo) (offset : Z)
    (w w1 : world) (view : grate_bo) :
  is_Some (bos w !! bo_bo parent) →
  grate_wrap_bo LONG_BIT parent offset w = Some (Some view, w1) →
  ∃ w2, grate_bo_free view w1 = Some (tt, w2)
        ∧ bos w2 !! bo_bo parent = None
        ∧ grate_bo_map parent w2 = None
        ∧ grate_bo_free parent w2 = None.
Proof.
  intros [b Hb] (Hbo & Hself & Hheap & Hbos & _)%grate_wrap_bo_shape.
  exists (set_heap (heap w1 ∖ {[bo_self view]})
            (set_bos (delete (bo_bo parent) (bos w1)) w1)).
  split_and!.
  - unfold grate_bo_free. run_M. unfold host1x_bo_free.
    rewrite Hbo, Hbos, Hb. unfold free. world_simpl.
    by rewrite Hself, Hheap, decide_True by apply fresh_in_heap.
  - world_simpl. apply lookup_delete_eq.
  - unfold grate_bo_map. run_M. unfold host1x_bo_mmap. world_simpl.
    by rewrite lookup_delete_eq.
  - unfold grate_bo_free. run_M. unfold host1x_bo_free. world_simpl.
    by rewrite lookup_delete_eq.
Qed.

(** X20: a view at [offset] of an object made from [data] reads, once
    mapped, the bytes of [data] from [offset] on. *)
Theorem grate_wrap_bo_reads_parent (size flags : Z) (data : list Byte.byte)
    (w w1 w2 w3 : world) (bo view : grate_bo) (offset n : Z) (p : ptr) :
  (size < 2 ^ LONG_BIT)%Z → (0 ≤ offset)%Z → (0 ≤ n ≤ size - offset)%Z →
  grate_bo_create_from_data size flags data w = Some (Some bo, w1) →
  grate_wrap_bo LONG_BIT bo offset w1 = Some (Some view, w2) →
  grate_bo_map view w2 = Some (Some p, w3) →
  read_bytes p n w3
  = Some (take (Z.to_nat n) (drop (Z.to_nat offset) data), w3).
Proof.
  intros Hsize Hoff Hn Hcreate Hwrap.
  pose proof (grate_bo_create_from_data_wf LONG_BIT _ _ _ _ _ _ Hsize Hcreate)
    as Hwf.
  apply grate_bo_create_from_data_inv in Hcreate as (Ho & Hs & Hsz & Hbo).
  apply grate_wrap_bo_inv in Hwrap as (Hlt & Hb & Hvs & Hvo & Hbos);
    [|done..].
  unfold grate_bo_map, grate_error. run_M. unfold host1x_bo_mmap.
  rewrite Hb, Hbos, Hbo. case_next_ok; [|done].
  world_simpl. intros [= <- <-].
  unfold read_bytes. world_simpl. rewrite lookup_insert_eq.
  unfold in_range. world_simpl. rewrite Hvo, Ho, length_take.
  assert (true && (0 <=? 0 + (0 + offset))%Z && (0 <=? n)%Z
          && (0 + (0 + offset) + n
              <=? Z.of_nat (Z.to_nat size `min` length data))%Z = true) as ->.
  { rewrite !andb_true_iff, !Z.leb_le. lia. }
  simpl. do 2 f_equal. rewrite Z.add_0_l.
  rewrite skipn_firstn_comm, take_take. f_equal. lia.
Qed.

(** What [grate_framebuffer_create] returns and leaves. *)
Lemma grate_framebuffer_create_inv width height format flags w r w' :
  grate_framebuffer_create GRATE_DOUBLE_BUFFERED width height format flags w
  = Some (r, w') →
  match r with
  | None => heap w' = heap w ∧ fbs w' = fbs w ∧ bos w' = bos w
  | Some fb =>
      let fr := fresh (dom (fbs w)) in
      let f := {| hfb_width := width; hfb_height := height;
                  hfb_format := format; hfb_flags := 0 |} in
      fb_self fb = fresh (heap w) ∧ fb_front fb = Some fr
      ∧ heap w' = {[fresh (heap w)]} ∪ heap w ∧ bos w' = bos w
      ∧ if decide (Z.land flags GRATE_DOUBLE_BUFFERED ≠ 0%Z)
        then fb_back fb = Some (fresh (dom (<[fr := f]> (fbs w))))
             ∧ fbs w' = <[fresh (dom (<[fr := f]> (fbs w))) := f]>
                          (<[fr := f]> (fbs w))
        else fb_back fb = None ∧ fbs w' = <[fr := f]> (fbs w)
  end.
Proof.
  unfold grate_framebuffer_create. run_M. unfold calloc.
  case_next_ok; [|by intros [= <- <-]].
  unfold host1x_framebuffer_create. world_simpl. case_next_ok.
  2:{ unfold free. world_simpl. rewrite decide_True by apply fresh_in_heap.
      intros [= <- <-]. world_simpl. by rewrite heap_alloc_free. }
  case_decide.
  - world_simpl. case_next_ok.
    + intros [= <- <-]. done.
    + unfold host1x_framebuffer_free. world_simpl. rewrite lookup_insert_eq.
      unfold free. world_simpl. rewrite decide_True by apply fresh_in_heap.
      intros [= <- <-]. world_simpl.
      rewrite heap_alloc_free, delete_insert_eq.
      split_and!; [done| |done]. apply delete_id, not_elem_of_dom, is_fresh.
  - intros [= <- <-]. done.
Qed.

(** X21: whatever [grate_framebuffer_create] returns: on NULL, the
    live blocks, framebuffers and backing objects are those from before the
    call; on success the struct is a live block, the front framebuffer is
    live and new, and there is a back framebuffer, live, new and different
    from the front one, exactly when the double-buffering flag is set. *)
Theorem grate_framebuffer_create_shape (width height format flags : Z)
    (w w' : world) (r : option grate_framebuffer) :
  grate_framebuffer_create GRATE_DOUBLE_BUFFERED width height format flags w
  = Some (r, w') →
  match r with
  | None => heap w' = heap w ∧ fbs w' = fbs w ∧ bos w' = bos w
  | Some fb =>
      fb_self fb ∈ heap w'
      ∧ (∃ fr, fb_front fb = Some fr ∧ is_Some (fbs w' !! fr)
               ∧ fbs w !! fr = None ∧ fb_back fb ≠ Some fr)
      ∧ (is_Some (fb_back fb) ↔ Z.land flags GRATE_DOUBLE_BUFFERED ≠ 0%Z)
      ∧ (∀ bk, fb_back fb = Some bk →
               is_Some (fbs w' !! bk) ∧ fbs w !! bk = None)
  end.
Proof.
  intros H%grate_framebuffer_create_inv. destruct r as [fb|]; [|done].
  destruct H as (Hself & Hfront & Hheap & _ & Hback).
  set (fr := fresh (dom (fbs w))) in *.
  set (f := {| hfb_width := width; hfb_height := height;
               hfb_format := format; hfb_flags := 0 |}) in *.
  assert (fbs w !! fr = None) as Hfr by apply not_elem_of_dom, is_fresh.
  set (bk := fresh (dom (<[fr:=f]> (fbs w)))) in *.
  assert (<[fr:=f]> (fbs w) !! bk = None) as Hbk
    by apply not_elem_of_dom, is_fresh.
  assert (bk ≠ fr) as Hne.
  { intros E. rewrite E, lookup_insert_eq in Hbk. done. }
  split; [rewrite Hself, Hheap; apply fresh_in_heap|].
  case_decide as Hflag; destruct Hback as [Hb Hfbs]; rewrite Hb, Hfbs.
  - split_and!.
    + exists fr. split_and!; [done| |done|congruence].
      rewrite lookup_insert_ne, lookup_insert_eq by done. by eexists.
    + split; [done|by eexists].
    + intros ? [= <-]. rewrite lookup_insert_eq. split; [by eexists|].
      by rewrite lookup_insert_ne in Hbk.
  - split_and!.
    + exists fr. split_and!; [done| |done..].
      rewrite lookup_insert_eq. by eexists.
    + split; [by intros [? ?]|done].
    + done.
Qed.

(** X22: a double-buffered framebuffer made by
    [grate_framebuffer_create] and freed at once with
    [grate_framebuffer_free] leaves the live blocks and the live host1x
    framebuffers as they were before it was made. *)
Theorem grate_framebuffer_create_free (width height format flags : Z)
    (w w1 : world) (fb : grate_framebuffer) :
  Z.land flags GRATE_DOUBLE_BUFFERED ≠ 0%Z →
  grate_framebuffer_create GRATE_DOUBLE_BUFFERED width height format flags w
  = Some (Some fb, w1) →
  ∃ w2, grate_framebuffer_free (Some fb) w1 = Some (tt, w2)
        ∧ heap w2 = heap w ∧ fbs w2 = fbs w ∧ bos w2 = bos w.
Proof.
  intros Hflag (Hself & Hfront & Hheap & Hbos & Hback)%grate_framebuffer_create_inv.
  rewrite decide_True in Hback by done. destruct Hback as [Hb Hfbs].
  set (fr := fresh (dom (fbs w))) in *.
  set (f := {| hfb_width := width; hfb_height := height;
               hfb_format := format; hfb_flags := 0 |}) in *.
  assert (fbs w !! fr = None) as Hfr by apply not_elem_of_dom, is_fresh.
  set (bk := fresh (dom (<[fr:=f]> (fbs w)))) in *.
  assert (<[fr:=f]> (fbs w) !! bk = None) as Hbk
    by apply not_elem_of_dom, is_fresh.
  assert (bk ≠ fr) as Hne.
  { intros E. rewrite E, lookup_insert_eq in Hbk. done. }
  unfold grate_framebuffer_free. run_M. rewrite Hfront, Hb.
  unfold host1x_framebuffer_free. world_simpl.
  rewrite Hfbs, lookup_insert_ne, lookup_insert_eq by done. world_simpl.
  rewrite lookup_delete_ne, lookup_insert_eq by done.
  unfold free. world_simpl.
  rewrite Hself, Hheap, decide_True by apply fresh_in_heap.
  eexists. split; [reflexivity|]. world_simpl.
  split_and!; [apply heap_alloc_free| |done].
  rewrite lookup_insert_ne in Hbk by done.
  rewrite (delete_insert_ne _ fr bk) by done.
  rewrite (delete_insert_eq _ fr), (delete_id _ fr) by done.
  rewrite delete_insert_eq. by apply delete_id.
Qed.

(** X23: on a framebuffer with a front buffer, two calls of
    [grate_framebuffer_swap] give back the struct as it was, and without a
    back buffer one call already changes nothing. *)
Theorem grate_framebuffer_swap_twice (fb : grate_framebuffer) :
  is_Some (fb_front fb) →
  grate_framebuffer_swap (grate_framebuffer_swap fb) = fb
  ∧ (fb_back fb = None → grate_framebuffer_swap fb = fb).
Proof.
  intros [fr Hfr]. destruct fb as [a front [bk|]]; simpl in *; subst; done.
Qed.

(** X24: after [grate_framebuffer_swap], [grate_framebuffer_save]
    saves the buffer that was the front buffer before the swap, whether
    the framebuffer has a back buffer or not. *)
Theorem grate_framebuffer_save_after_swap (fb : grate_framebuffer)
    (path : string) :
  is_Some (fb_front fb) →
  grate_framebuffer_save (grate_framebuffer_swap fb) path
  = (fb_front fb, path).
Proof.
  intros [fr Hfr]. destruct fb as [a front [bk|]]; simpl in *; subst; done.
Qed.

(** X25: on a framebuffer made without the double-buffering flag,
    [grate_framebuffer_data] for the back buffer dereferences a NULL
    pointer: the call has no defined result, in any state. *)
Theorem grate_framebuffer_data_single_buffered
    (width height format flags : Z) (w w1 : world) (fb : grate_framebuffer) :
  Z.land flags GRATE_DOUBLE_BUFFERED = 0%Z →
  grate_framebuffer_create GRATE_DOUBLE_BUFFERED width height format flags w
  = Some (Some fb, w1) →
  ∀ w2, grate_framebuffer_data pixbuf_bo fb false w2 = None.
Proof.
  intros Hflag (_ & _ & _ & _ & Hback)%grate_framebuffer_create_inv w2.
  rewrite decide_False in Hback by (intros H; by apply H).
  destruct Hback as [Hb _]. unfold grate_framebuffer_data. by rewrite Hb.
Qed.

End more_grate.

(* ===================================================================== *)
(** * Properties of the hexadecimal dump *)
(* ===================================================================== *)

Section hexdump_facts.
Variable isprint : Byte.byte → bool.
Variable show_pointer : Z → string.
Implicit Types (buffer row : list Byte.byte) (size columns i j : Z).

Lemma string_length_app (s1 s2 : string) :
  String.length (s1 +:+ s2) = String.length s1 + String.length s2.
Proof.
  induction s1 as [|c s1 IH]; [done|].
  change (S (String.length (s1 +:+ s2))
          = S (String.length s1 + String.length s2)).
  by rewrite IH.
Qed.

Lemma string_app_assoc (s1 s2 s3 : string) :
  (s1 +:+ s2) +:+ s3 = s1 +:+ s2 +:+ s3.
Proof.
  induction s1 as [|c s1 IH]; [done|].
  change (String c ((s1 +:+ s2) +:+ s3) = String c (s1 +:+ s2 +:+ s3)).
  by rewrite IH.
Qed.

Lemma u32_small x : (0 ≤ x < 2 ^ 32)%Z → u32 x = x.
Proof. intros H. unfold u32. by apply Z.mod_small. Qed.



Lemma hexdump_bytes_run buffer size columns j (m : nat) : ∀ i fuel space,
  hexdump_ok buffer size columns → (0 ≤ j < size)%Z → (0 ≤ i)%Z →
  (i + Z.of_nat m = row_len size columns j)%Z → m < fuel →
  hexdump_bytes fuel buffer size columns j i space
  = Done (row_len size columns j,
          hex_field space (take m (drop (Z.to_nat (j + i)) buffer))).
Proof.
  unfold row_len.
  induction m as [|m IH]; intros i fuel space Hok Hj Hi Hm Hfuel;
    destruct Hok as [Hc Hs Hw Hb]; (destruct fuel as [|fuel]; [lia|]); simpl.
  - rewrite u32_small by lia.
    destruct (Z.ltb_spec i columns), (Z.ltb_spec (j + i) size); simpl;
      try lia; do 2 f_equal; lia.
  - rewrite (u32_small (j + i)), (u32_small (i + 1)) by lia.
    destruct (Z.ltb_spec i columns), (Z.ltb_spec (j + i) size); simpl;
      try lia.
    destruct (lookup_lt_is_Some_2 buffer (Z.to_nat (j + i))) as [b Hlook];
      [lia|].
    rewrite Hlook, (IH (i + 1)%Z) by (done || lia).
    rewrite (drop_S _ _ _ Hlook). simpl.
    replace (Z.to_nat (j + (i + 1))) with (S (Z.to_nat (j + i))) by lia.
    done.
Qed.

Lemma hexdump_ascii_run buffer size columns j (m : nat) : ∀ i fuel,
  hexdump_ok buffer size columns → (0 ≤ j < size)%Z → (0 ≤ i)%Z →
  (i + Z.of_nat m = row_len size columns j)%Z → m < fuel →
  hexdump_ascii isprint fuel buffer size columns j i
  = Done (ascii_field isprint (take m (drop (Z.to_nat (j + i)) buffer))).
Proof.
  unfold row_len.
  induction m as [|m IH]; intros i fuel Hok Hj Hi Hm Hfuel;
    destruct Hok as [Hc Hs Hw Hb]; (destruct fuel as [|fuel]; [lia|]); simpl.
  - rewrite u32_small by lia.
    destruct (Z.ltb_spec i columns), (Z.ltb_spec (j + i) size); simpl;
      try lia; done.
  - rewrite (u32_small (j + i)), (u32_small (i + 1)) by lia.
    destruct (Z.ltb_spec i columns), (Z.ltb_spec (j + i) size); simpl;
      try lia.
    destruct (lookup_lt_is_Some_2 buffer (Z.to_nat (j + i))) as [b Hlook];
      [lia|].
    rewrite Hlook, (IH (i + 1)%Z) by (done || lia).
    rewrite (drop_S _ _ _ Hlook). simpl.
    replace (Z.to_nat (j + (i + 1))) with (S (Z.to_nat (j + i))) by lia.
    done.
Qed.

Lemma hexdump_pad_run columns (m : nat) : ∀ i fuel,
  (columns < 2 ^ 32)%Z → (0 ≤ i)%Z → (i + Z.of_nat m = columns)%Z →
  m < fuel →
  hexdump_pad fuel columns i = Done (pad_field m).
Proof.
  induction m as [|m IH]; intros i fuel Hc Hi Hm Hfuel;
    (destruct fuel as [|fuel]; [lia|]); simpl.
  - destruct (Z.ltb_spec i columns); [lia|done].
  - destruct (Z.ltb_spec i columns); [|lia].
    rewrite u32_small by lia. by rewrite (IH (i + 1)%Z) by lia.
Qed.


Lemma rows_left_done size columns j :
  (0 < columns)%Z → (size ≤ j)%Z → rows_left size columns j = 0.
Proof.
  intros Hc Hj. unfold rows_left.
  assert ((size - j + columns - 1) / columns ≤ 0)%Z; [|lia].
  assert ((size - j + columns - 1) / columns < 1)%Z; [|lia].
  apply Z.div_lt_upper_bound; lia.
Qed.

Lemma rows_left_step size columns j :
  (0 < columns)%Z → (j < size)%Z →
  rows_left size columns j = S (rows_left size columns (j + columns)).
Proof.
  intros Hc Hj. unfold rows_left.
  replace (size - j + columns - 1)%Z with (size - j - 1 + 1 * columns)%Z by lia.
  rewrite Z.div_add by lia.
  replace (size - (j + columns) + columns - 1)%Z with (size - j - 1)%Z by lia.
  assert (0 ≤ (size - j - 1) / columns)%Z by (apply Z.div_pos; lia). lia.
Qed.

Lemma hexdump_lines_run prefix_type prefix buffer_addr buffer size columns
    ascii (n : nat) : ∀ j fuel,
  hexdump_ok buffer size columns → (0 ≤ j < size + columns)%Z →
  n = rows_left size columns j → n + Z.to_nat columns < fuel →
  hexdump_lines isprint show_pointer fuel prefix_type prefix buffer_addr
    buffer size columns ascii j
  = Done ((λ r, hexdump_line isprint show_pointer prefix_type prefix
                  buffer_addr columns ascii r.1 r.2)
            <$> hexdump_rows n buffer size columns j).
Proof.
  induction n as [|n IH]; intros j fuel Hok Hj Hn Hfuel;
    pose proof Hok as [Hc Hs Hw Hb]; (destruct fuel as [|fuel]; [lia|]);
    simpl.
  - destruct (Z.ltb_spec j size) as [Hlt|]; [|done].
    rewrite rows_left_step in Hn by lia. done.
  - destruct (Z.ltb_spec j size) as [Hlt|Hge].
    2:{ rewrite rows_left_done in Hn by lia. done. }
    rewrite rows_left_step in Hn by lia. injection Hn as Hn.
    assert (0 ≤ row_len size columns j ≤ columns)%Z as Hrow
      by (unfold row_len; lia).
    rewrite (hexdump_bytes_run buffer size columns j
               (Z.to_nat (row_len size columns j))) by (done || lia).
    rewrite (hexdump_pad_run columns
               (Z.to_nat (columns - row_len size columns j))) by lia.
    assert ((if ascii then hexdump_ascii isprint fuel buffer size columns j 0
             else Done EmptyString)
            = Done (if ascii
                    then ascii_field isprint
                           (take (Z.to_nat (row_len size columns j))
                              (drop (Z.to_nat j) buffer))
                    else EmptyString)) as ->.
    { destruct ascii; [|done].
      rewrite (hexdump_ascii_run buffer size columns j
                 (Z.to_nat (row_len size columns j))) by (done || lia).
      by rewrite Z.add_0_r. }
    rewrite u32_small by lia.
    rewrite (IH (j + columns)%Z) by (done || lia).
    rewrite Z.add_0_r. unfold hexdump_line, row_len. simpl.
    rewrite length_take, length_drop.
    replace (Z.to_nat (columns - Z.min columns (size - j)))
      with (Z.to_nat columns
            - Z.to_nat (Z.min columns (size - j))
                `min` (length buffer - Z.to_nat j)) by lia.
    done.
Qed.

Lemma hexdump_rows_join n buffer size columns : ∀ j,
  (0 < columns)%Z → (0 ≤ j)%Z → n = rows_left size columns j →
  concat ((hexdump_rows n buffer size columns j).*2)
  = take (Z.to_nat (size - j)) (drop (Z.to_nat j) buffer).
Proof.
  induction n as [|n IH]; intros j Hc Hj Hn; cbn [hexdump_rows];
    [|rewrite fmap_cons]; cbn [concat snd fmap list_fmap].
  - destruct (Z.lt_ge_cases j size) as [Hlt|Hge].
    + rewrite rows_left_step in Hn by lia. done.
    + replace (Z.to_nat (size - j)) with 0 by lia. done.
  - destruct (Z.lt_ge_cases j size) as [Hlt|Hge].
    2:{ rewrite rows_left_done in Hn by lia. done. }
    rewrite rows_left_step in Hn by lia. injection Hn as Hn.
    rewrite (IH (j + columns)%Z) by lia.
    replace (Z.to_nat (j + columns)) with (Z.to_nat j + Z.to_nat columns)
      by lia.
    rewrite <- drop_drop.
    destruct (Z.le_gt_cases columns (size - j)) as [Hfull|Hlast].
    + rewrite Z.min_l by lia.
      rewrite take_take_drop. f_equal. lia.
    + rewrite Z.min_r by lia.
      replace (Z.to_nat (size - (j + columns))) with 0 by lia.
      by rewrite take_0, app_nil_r.
Qed.

Lemma hexdump_rows_length n buffer size columns j :
  length (hexdump_rows n buffer size columns j) = n.
Proof. revert j. induction n as [|n IH]; intros j; simpl; [done|]. by rewrite IH. Qed.

Lemma hexdump_rows_row n buffer size columns : ∀ j r,
  hexdump_ok buffer size columns → (0 ≤ j)%Z →
  n = rows_left size columns j →
  r ∈ hexdump_rows n buffer size columns j →
  0 < length r.2 ≤ Z.to_nat columns.
Proof.
  induction n as [|n IH]; intros j r Hok Hj Hn Hr; simpl in Hr.
  - by apply elem_of_nil in Hr.
  - pose proof Hok as [Hc Hs Hw Hb].
    destruct (Z.lt_ge_cases j size) as [Hlt|Hge].
    2:{ rewrite rows_left_done in Hn by lia. done. }
    rewrite rows_left_step in Hn by lia. injection Hn as Hn.
    apply elem_of_cons in Hr as [->|Hr].
    + simpl. rewrite length_take, length_drop. lia.
    + apply (IH (j + columns)%Z); (done || lia).
Qed.

Lemma hex_field_length space row :
  String.length (hex_field space row)
  = match row with
    | [] => 0
    | _ :: rest => String.length space + 2 + 3 * length rest
    end.
Proof.
  revert space. induction row as [|b row IH]; intros space; [done|].
  simpl. rewrite !string_length_app, IH. destruct row; simpl; lia.
Qed.

Lemma pad_field_length n : String.length (pad_field n) = 3 * n.
Proof.
  induction n as [|n IH]; [done|].
  simpl. rewrite string_length_app, IH. simpl. lia.
Qed.

Lemma ascii_field_length row :
  String.length (ascii_field isprint row) = length row.
Proof. induction row as [|b row IH]; simpl; [done|]. by rewrite IH. Qed.

Lemma hex8_length j : String.length (hex8 j) = 8.
Proof. done. Qed.


(** X26: with at least one column, a size within the buffer and
    [size + columns] within [2^32], the verbose [print_hexdump] ends and
    writes one line for each row of [columns] bytes (the last row may be
    shorter): [ceil(size / columns)] lines, none empty, whose rows put
    together are the first [size] bytes of the buffer; each line is the
    prefix, the offset or address, the bytes in hexadecimal, the padding,
    the separator and the characters. *)
Theorem print_hexdump_rows fuel prefix_type prefix buffer_addr buffer size
    columns ascii :
  (0 < columns)%Z → (0 ≤ size)%Z → (size + columns ≤ 2 ^ 32)%Z →
  (size ≤ Z.of_nat (length buffer))%Z →
  Z.to_nat ((size + columns - 1) / columns) + Z.to_nat columns < fuel →
  let rows :=
    hexdump_rows (Z.to_nat ((size + columns - 1) / columns)) buffer size
      columns 0 in
  print_hexdump isprint show_pointer fuel true prefix_type prefix buffer_addr
    buffer size columns ascii
  = Done ((λ r, hexdump_line isprint show_pointer prefix_type prefix
                  buffer_addr columns ascii r.1 r.2) <$> rows)
  ∧ concat (rows.*2) = take (Z.to_nat size) buffer
  ∧ Forall (λ r, 0 < length r.2 ≤ Z.to_nat columns) rows.
Proof.
  intros Hc Hs Hw Hb Hfuel rows.
  assert (hexdump_ok buffer size columns) as Hok by done.
  assert (Z.to_nat ((size + columns - 1) / columns)
          = rows_left size columns 0) as Hn.
  { unfold rows_left. by rewrite Z.sub_0_r. }
  split; [|split].
  - unfold print_hexdump. simpl.
    apply hexdump_lines_run; (done || lia).
  - unfold rows. rewrite (hexdump_rows_join _ _ _ _ 0%Z) by (done || lia).
    by rewrite Z.sub_0_r.
  - apply Forall_forall. intros r Hr.
    eapply hexdump_rows_row; [exact Hok| |exact Hn|exact Hr]. lia.
Qed.

(** X27: with the prefix types other than the address one, the
    separator starts at the same column on every line that
    [print_hexdump] writes, the last, shorter one included: after the
    prefix, the offset field if any, and [3 * columns - 1] characters. *)
Theorem print_hexdump_separator_aligned fuel prefix_type prefix buffer_addr
    buffer size columns ascii :
  (0 < columns)%Z → (0 ≤ size)%Z → (size + columns ≤ 2 ^ 32)%Z →
  (size ≤ Z.of_nat (length buffer))%Z →
  Z.to_nat ((size + columns - 1) / columns) + Z.to_nat columns < fuel →
  prefix_type ≠ DUMP_PREFIX_ADDRESS →
  ∃ lines,
    print_hexdump isprint show_pointer fuel true prefix_type prefix
      buffer_addr buffer size columns ascii = Done lines
    ∧ Forall (λ line, ∃ head tail,
        line = head +:+ " | " +:+ tail
        ∧ String.length head
          = String.length (default EmptyString prefix)
            + prefix_width prefix_type + (3 * Z.to_nat columns - 1)) lines.
Proof.
  intros Hc Hs Hw Hb Hfuel Hpt.
  assert (hexdump_ok buffer size columns) as Hok by done.
  assert (Z.to_nat ((size + columns - 1) / columns)
          = rows_left size columns 0) as Hn.
  { unfold rows_left. by rewrite Z.sub_0_r. }
  eexists. split.
  { unfold print_hexdump. simpl. apply hexdump_lines_run; (done || lia). }
  apply Forall_fmap, Forall_forall. intros [j row] Hr. simpl.
  eapply hexdump_rows_row in Hr as Hrow; [|exact Hok|lia|exact Hn].
  simpl in Hrow. unfold hexdump_line.
  exists (default EmptyString prefix
          +:+ hexdump_prefix show_pointer prefix_type buffer_addr j
          +:+ hex_field EmptyString row
          +:+ pad_field (Z.to_nat columns - length row)).
  eexists. split.
  { rewrite !string_app_assoc. reflexivity. }
  rewrite !string_length_app, hex_field_length, pad_field_length.
  assert (String.length (hexdump_prefix show_pointer prefix_type buffer_addr j)
          = prefix_width prefix_type) as ->.
  { destruct prefix_type; try done. }
  destruct row as [|b row]; simpl in *; lia.
Qed.

(** X28: with [columns = 0] and a size above zero, the verbose
    [print_hexdump] never ends: the offset does not advance, so no number
    of rounds completes the dump. *)
Theorem print_hexdump_zero_columns fuel prefix_type prefix buffer_addr buffer
    size ascii :
  (0 < size)%Z →
  print_hexdump isprint show_pointer fuel true prefix_type prefix buffer_addr
    buffer size 0 ascii = OutOfFuel.
Proof.
  intros Hs. unfold print_hexdump. simpl.
  induction fuel as [|fuel IH]; [done|]. simpl.
  destruct (Z.ltb_spec 0 size); [|lia].
  assert (hexdump_bytes fuel buffer size 0 0 0 EmptyString
          = OutOfFuel ∨ hexdump_bytes fuel buffer size 0 0 0 EmptyString
          = Done (0%Z, EmptyString)) as [->| ->];
    [destruct fuel; [by left|by right]|done|].
  assert (hexdump_pad fuel 0 0 = OutOfFuel
          ∨ hexdump_pad fuel 0 0 = Done EmptyString) as [->| ->];
    [destruct fuel; [by left|by right]|done|].
  assert ((if ascii then hexdump_ascii isprint fuel buffer size 0 0 0
           else Done EmptyString) = OutOfFuel
          ∨ (if ascii then hexdump_ascii isprint fuel buffer size 0 0 0
             else Done EmptyString) = Done EmptyString) as [->| ->];
    [destruct ascii, fuel; (by left) || (by right)|done|].
  change (u32 (0 + 0)) with 0%Z. by rewrite IH.
Qed.

End hexdump_facts.

(* ===================================================================== *)
(** * The further properties on the sample states *)
(* ===================================================================== *)

(** After [/dev/nvmap] is opened on the sample registry, a lookup of -1 finds a file. *)
Lemma file_lookup_invalid_descriptor_witness :
  is_Some (file_lookup (-1) (file_open "/dev/nvmap" 6 sample_registry).2).
Proof.
  apply (file_lookup_invalid_descriptor "/dev/nvmap" 6 sample_registry
           opened_nvmap); [reflexivity|discriminate].
Defined.

(** The struct opened for [/dev/nvmap] with descriptor 6 is found under 6. *)
Lemma file_open_then_lookup_witness :
  file_lookup 6 (file_open "/dev/nvmap" 6 sample_registry).2
  = Some opened_nvmap.
Proof.
  apply (file_open_then_lookup "/dev/nvmap" 6 sample_registry opened_nvmap);
    [reflexivity|].
  intros g Hg [Hfd|Hslot]; elem_cases Hg; try discriminate;
    elem_cases Hslot; discriminate.
Defined.

(** Descriptor 9 duplicated into the file at address 1 is found there. *)
Lemma file_dup_then_lookup_witness :
  ∃ f', file_lookup 9 (file_dup_at 1 9 sample_registry) = Some f'
        ∧ f_self f' = 1 ∧ f_fd f' = 3%Z ∧ 9%Z ∈ f_dup_fds f'.
Proof.
  apply (file_dup_then_lookup sample_registry [file_b] [file_full] file_a 9).
  - reflexivity.
  - intros H. elem_cases H. discriminate.
  - apply Exists_cons_tl, Exists_cons_hd. simpl. lia.
  - intros g Hg [Hfd|Hslot]; elem_cases Hg; try discriminate;
      elem_cases Hslot; discriminate.
Defined.

(** The sample registry is well formed after closing 7. *)
Lemma file_close_keeps_wf_witness :
  registry_wf (files (file_close 7 sample_registry)).
Proof. apply file_close_keeps_wf, sample_registry_wf. Defined.

(** Closing 7 twice is closing it once. *)
Lemma file_close_twice_witness :
  file_close 7 (file_close 7 sample_registry) = file_close 7 sample_registry.
Proof.
  apply (file_close_twice sample_registry file_a 7 sample_registry_wf).
  - simpl. apply list_elem_of_further, list_elem_of_here.
  - simpl. apply list_elem_of_further, list_elem_of_here.
Defined.

(** Closing 7, 3 and 8 removes the file at address 1 and leaves the two others. *)
Lemma file_close_all_removes_only_witness :
  files (close_all [7; 3; 8]%Z sample_registry) = [file_b; file_full]
  ∧ file_table (close_all [7; 3; 8]%Z sample_registry)
    = file_table sample_registry
  ∧ ∀ d, d ∈ [7; 3; 8]%Z
         → file_lookup d (close_all [7; 3; 8]%Z sample_registry) = None.
Proof.
  apply (file_close_all_removes_only sample_registry file_a [file_b]
           [file_full] [7; 3; 8]%Z eq_refl sample_registry_wf);
    [discriminate|apply perm_swap].
Defined.

(** [/dev/nvhost-ctrl] is found at the start and after 5, 3 and 7 are
    closed (8 is still open), and not after 7, 3 and 8 are closed. *)
Lemma file_find_until_released_witness :
  file_find "/dev/nvhost-ctrl" sample_registry = Some file_a
  ∧ (∃ h1, file_find "/dev/nvhost-ctrl"
             (close_all [5; 3; 7]%Z sample_registry) = Some h1
           ∧ f_self h1 = 1 ∧ f_path h1 = "/dev/nvhost-ctrl"
           ∧ h1 ∈ files (close_all [5; 3; 7]%Z sample_registry))
  ∧ file_find "/dev/nvhost-ctrl" (close_all [7; 3; 8]%Z sample_registry)
    = None.
Proof.
  assert (∀ g, g ∈ [file_b] ++ [file_full] → f_path g ≠ f_path file_a)
    as Hpath.
  { intros g Hg. elem_cases Hg; discriminate. }
  split; [|split].
  - apply (file_find_until_released sample_registry file_a [file_b]
             [file_full] [] eq_refl sample_registry_wf); [discriminate|done].
  - destruct (file_find_until_released sample_registry file_a [file_b]
                [file_full] [5; 3; 7]%Z eq_refl sample_registry_wf)
      as (_ & H & _); [discriminate|done|].
    apply H. exists 8%Z. split; [compute_done|].
    intros Hd. elem_cases Hd; done.
  - destruct (file_find_until_released sample_registry file_a [file_b]
                [file_full] [7; 3; 8]%Z eq_refl sample_registry_wf)
      as (_ & _ & H); [discriminate|done|].
    apply H. intros d Hd. change (refs file_a) with [3; 7; 8]%Z in Hd.
      elem_cases Hd; compute_done.
Defined.

(** Four descriptors fill the four slots of the opened struct in order; a fifth is refused. *)
Lemma file_dup_fills_in_order_witness :
  f_dup_fds (dup_all false [20; 21; 22; 23]%Z opened_nvmap)
  = [20; 21; 22; 23]%Z ++ replicate (4 - 4) (-1)%Z
  ∧ (4 = 4 →
     ∀ d, file_dup false (dup_all false [20; 21; 22; 23]%Z opened_nvmap) d
          = (dup_all false [20; 21; 22; 23]%Z opened_nvmap,
             [Stderr ("out of FD slots" +:+ nl)])).
Proof.
  apply (file_dup_fills_in_order false "/dev/nvmap" 6 sample_registry
           opened_nvmap [20; 21; 22; 23]%Z eq_refl).
  - repeat constructor; lia.
  - simpl. lia.
Defined.


(** The sample registry is well formed after 9 is duplicated into the file at address 1. *)
Lemma file_dup_at_keeps_wf_witness :
  registry_wf (files (file_dup_at 1 9 sample_registry)).
Proof.
  apply (file_dup_at_keeps_wf 1 9 sample_registry sample_registry_wf);
    [lia|].
  intros H. elem_cases H; discriminate.
Defined.

(** Registering two entries of the sample table once more. *)
Lemma file_table_register_appends_witness :
  ∃ s' w',
    file_table_register sample_table 2 sample_registry sample_world
    = Some (s', w')
    ∧ file_table s' = file_table sample_registry ++ take 2 sample_table
    ∧ files s' = files sample_registry
    ∧ output s' = output sample_registry.
Proof.
  apply (file_table_register_appends sample_table 2 sample_registry
           sample_world); [simpl; lia|constructor].
Defined.

(** The second allocation fails: one entry is registered, and the line is written. *)
Lemma file_table_register_out_of_memory_witness :
  ∃ w',
    file_table_register sample_table 3 sample_registry
      (set_fate [true; false] sample_world)
    = Some ({| file_table := file_table sample_registry
                             ++ take 1 sample_table;
               files := files sample_registry;
               libwrap_verbose := libwrap_verbose sample_registry;
               output := output sample_registry
                         ++ [Stderr ("out of memory" +:+ nl)] |},
            w').
Proof.
  apply (file_table_register_out_of_memory sample_table 3 1 sample_registry
           (set_fate [true; false] sample_world)).
  - lia.
  - simpl. lia.
  - repeat constructor.
  - reflexivity.
Defined.

(** Registering the sample table in reverse order does not change what [file_open] gives for [/dev/nvmap]. *)
Lemma file_table_register_shadowed_witness :
  ∃ s' w',
    file_table_register (reverse sample_table) 3 sample_registry sample_world
    = Some (s', w')
    ∧ (file_open "/dev/nvmap" 6 s').1
      = (file_open "/dev/nvmap" 6 sample_registry).1
    ∧ files (file_open "/dev/nvmap" 6 s').2
      = files (file_open "/dev/nvmap" 6 sample_registry).2.
Proof.
  destruct (file_table_register (reverse sample_table) 3 sample_registry
              sample_world) as [[s' w']|] eqn:E;
    [|vm_compute in E; discriminate].
  exists s', w'. split; [reflexivity|].
  apply (file_table_register_shadowed (reverse sample_table) 3
           sample_registry s' sample_world w' "/dev/nvmap" 6 E).
  apply Exists_cons_tl, Exists_cons_hd. reflexivity.
Defined.

(** The first path is missing and the second holds no number: the result is [TEGRA_UNKNOWN] and the third path is never opened. *)
Lemma tegra_chip_id_first_readable_witness :
  tegra_chip_id sample_sysfs_fuse chip_initial
  = (TEGRA_UNKNOWN,
     {| static_id := TEGRA_UNKNOWN;
        chip_trace :=
          [Fopen "/sys/module/tegra_fuse/parameters/tegra_chip_id";
           Fopen "/sys/module/fuse/parameters/tegra_chip_id";
           Diag ("fscanf failed for "
                 +:+ "/sys/module/fuse/parameters/tegra_chip_id" +:+ nl)] |})
  ∧ (sample_sysfs_fuse "/sys/module/fuse/parameters/tegra_chip_id" = NoNumber
     → (read_chip_id sample_sysfs_fuse
          "/sys/module/fuse/parameters/tegra_chip_id").1 = TEGRA_UNKNOWN)
  ∧ ∀ q, q ∈ ["/sys/devices/soc0/soc_id"]
         → Fopen q
           ∉ (Fopen <$> ["/sys/module/tegra_fuse/parameters/tegra_chip_id"])
             ++ (read_chip_id sample_sysfs_fuse
                   "/sys/module/fuse/parameters/tegra_chip_id").2.
Proof.
  apply (tegra_chip_id_first_readable sample_sysfs_fuse chip_initial
           ["/sys/module/tegra_fuse/parameters/tegra_chip_id"]
           ["/sys/devices/soc0/soc_id"]
           "/sys/module/fuse/parameters/tegra_chip_id" eq_refl eq_refl).
  - repeat constructor.
  - discriminate.
Defined.

(** With no file at all, the first call gives [TEGRA_UNKNOWN], and so does every later call. *)
Lemma tegra_chip_id_unreadable_sticks_witness :
  tegra_chip_id (λ _, NoFile) chip_initial
  = (TEGRA_UNKNOWN,
     {| static_id := TEGRA_UNKNOWN;
        chip_trace := chip_trace chip_initial ++ (Fopen <$> chip_paths)
          ++ [Diag ("failed to identify SoC version" +:+ nl)] |})
  ∧ ∀ fs', tegra_chip_id fs' (tegra_chip_id (λ _, NoFile) chip_initial).2
           = (TEGRA_UNKNOWN, (tegra_chip_id (λ _, NoFile) chip_initial).2).
Proof.
  apply (tegra_chip_id_unreadable_sticks (λ _, NoFile) chip_initial eq_refl).
  repeat constructor.
Defined.

(** The mapping fails after the struct and the backing object were made: nothing stays allocated. *)
Lemma grate_bo_create_failure_leaks_nothing_witness :
  ∃ w',
    grate_bo_create_from_data 3 0 sample_data
      (set_fate [true; true; false] sample_world) = Some (None, w')
    ∧ heap w' = heap (set_fate [true; true; false] sample_world)
    ∧ bos w' = bos (set_fate [true; true; false] sample_world)
    ∧ fbs w' = fbs (set_fate [true; true; false] sample_world).
Proof.
  destruct (grate_bo_create_from_data 3 0 sample_data
              (set_fate [true; true; false] sample_world))
    as [[[bo|] w']|] eqn:E; [vm_compute in E; discriminate| |
                             vm_compute in E; discriminate].
  exists w'. split; [reflexivity|].
  apply (grate_bo_create_failure_leaks_nothing 3 0 sample_data
           (set_fate [true; true; false] sample_world) w').
  right. exact E.
Defined.

(** The sample object, made and freed. *)
Lemma grate_bo_create_free_witness :
  ∃ bo w1 w2,
    grate_bo_create_from_data 3 0 sample_data sample_world
    = Some (Some bo, w1)
    ∧ grate_bo_free bo w1 = Some (tt, w2)
    ∧ heap w2 = heap sample_world ∧ bos w2 = bos sample_world
    ∧ fbs w2 = fbs sample_world.
Proof.
  destruct sample_create_from_data as (bo & w1 & E).
  destruct (grate_bo_create_free 3 0 sample_data sample_world w1 bo
              (or_intror E)) as (w2 & H).
  exists bo, w1, w2. split; [exact E|exact H].
Defined.

(** The sample object and a view of it at offset 1. *)
Lemma sample_wrap :
  ∃ bo w1 view w2,
    grate_bo_create_from_data 3 0 sample_data sample_world
    = Some (Some bo, w1)
    ∧ is_Some (bos w1 !! bo_bo bo)
    ∧ grate_wrap_bo 32 bo 1 w1 = Some (Some view, w2).
Proof.
  destruct (grate_bo_create_from_data 3 0 sample_data sample_world)
    as [[[bo|] w1]|] eqn:E; [|exfalso; vm_compute in E; discriminate..].
  assert (∃ x, bos w1 !! bo_bo bo = Some x) as Hlive.
  { vm_compute in E. injection E as <- <-. eexists. vm_compute. reflexivity. }
  destruct (grate_wrap_bo 32 bo 1 w1) as [[[view|] w2]|] eqn:E2.
  - exists bo, w1, view, w2. done.
  - exfalso. vm_compute in E. injection E as <- <-.
    vm_compute in E2. discriminate.
  - exfalso. vm_compute in E. injection E as <- <-.
    vm_compute in E2. discriminate.
Defined.

(** Freeing a view at offset 1 of the sample object frees the object's backing store. *)
Lemma grate_bo_free_view_frees_parent_witness :
  ∃ bo w1 view w2 w3,
    grate_bo_create_from_data 3 0 sample_data sample_world
    = Some (Some bo, w1)
    ∧ grate_wrap_bo 32 bo 1 w1 = Some (Some view, w2)
    ∧ grate_bo_free view w2 = Some (tt, w3)
    ∧ bos w3 !! bo_bo bo = None
    ∧ grate_bo_map bo w3 = None
    ∧ grate_bo_free bo w3 = None.
Proof.
  destruct sample_wrap as (bo & w1 & view & w2 & E & Hlive & E2).
  destruct (grate_bo_free_view_frees_parent 32 bo 1 w1 w2 view Hlive E2)
    as (w3 & H).
  exists bo, w1, view, w2, w3. split; [exact E|]. split; [exact E2|exact H].
Defined.

(** The same view, mapped. *)
Lemma sample_map_view :
  ∃ bo w1 view w2 p w3,
    grate_bo_create_from_data 3 0 sample_data sample_world
    = Some (Some bo, w1)
    ∧ grate_wrap_bo 32 bo 1 w1 = Some (Some view, w2)
    ∧ grate_bo_map view w2 = Some (Some p, w3).
Proof.
  destruct sample_wrap as (bo & w1 & view & w2 & E & Hlive & E2).
  destruct (grate_bo_map view w2) as [[[p|] w3]|] eqn:E3.
  - exists bo, w1, view, w2, p, w3. done.
  - exfalso. vm_compute in E. injection E as <- <-.
    vm_compute in E2. injection E2 as <- <-.
    vm_compute in E3. discriminate.
  - exfalso. vm_compute in E. injection E as <- <-.
    vm_compute in E2. injection E2 as <- <-.
    vm_compute in E3. discriminate.
Defined.

(** A view at offset 1 of the object made from the bytes 1, 2, 3 reads 2, 3. *)
Lemma grate_wrap_bo_reads_parent_witness :
  ∃ bo w1 view w2 p w3,
    grate_bo_create_from_data 3 0 sample_data sample_world
    = Some (Some bo, w1)
    ∧ grate_wrap_bo 32 bo 1 w1 = Some (Some view, w2)
    ∧ grate_bo_map view w2 = Some (Some p, w3)
    ∧ read_bytes p 2 w3 = Some ([Byte.x02; Byte.x03], w3).
Proof.
  destruct sample_map_view as (bo & w1 & view & w2 & p & w3 & E & E2 & E3).
  exists bo, w1, view, w2, p, w3.
  split; [exact E|]. split; [exact E2|]. split; [exact E3|].
  apply (grate_wrap_bo_reads_parent 32 3 0 sample_data sample_world w1 w2 w3
           bo view 1 2 p); (done || lia || idtac).
Defined.

(** In the empty world a framebuffer can be made, single or double
    buffered. *)
Lemma sample_framebuffer (flags : Z) :
  flags = 0%Z ∨ flags = 1%Z →
  ∃ fb w1,
    grate_framebuffer_create 1 256 256 0 flags sample_world
    = Some (Some fb, w1).
Proof.
  intros Hflags.
  destruct (grate_framebuffer_create 1 256 256 0 flags sample_world)
    as [[[fb|] w1]|] eqn:E.
  - by exists fb, w1.
  - exfalso. destruct Hflags as [-> | ->]; vm_compute in E; discriminate.
  - exfalso. destruct Hflags as [-> | ->]; vm_compute in E; discriminate.
Defined.

(** A double-buffered framebuffer made in the empty world. *)
Lemma grate_framebuffer_create_shape_witness :
  ∃ fb w',
    grate_framebuffer_create 1 256 256 0 1 sample_world = Some (Some fb, w')
    ∧ fb_self fb ∈ heap w'
    ∧ (∃ fr, fb_front fb = Some fr ∧ is_Some (fbs w' !! fr)
             ∧ fbs sample_world !! fr = None ∧ fb_back fb ≠ Some fr)
    ∧ (is_Some (fb_back fb) ↔ Z.land 1 1 ≠ 0%Z)
    ∧ (∀ bk, fb_back fb = Some bk →
             is_Some (fbs w' !! bk) ∧ fbs sample_world !! bk = None).
Proof.
  destruct (sample_framebuffer 1 (or_intror eq_refl)) as (fb & w' & E).
  exists fb, w'. split; [exact E|].
  exact (grate_framebuffer_create_shape 1 256 256 0 1 sample_world w'
           (Some fb) E).
Defined.

(** A double-buffered framebuffer, made and freed. *)
Lemma grate_framebuffer_create_free_witness :
  ∃ fb w1 w2,
    grate_framebuffer_create 1 256 256 0 1 sample_world = Some (Some fb, w1)
    ∧ grate_framebuffer_free (Some fb) w1 = Some (tt, w2)
    ∧ heap w2 = heap sample_world ∧ fbs w2 = fbs sample_world
    ∧ bos w2 = bos sample_world.
Proof.
  destruct (sample_framebuffer 1 (or_intror eq_refl)) as (fb & w1 & E).
  destruct (grate_framebuffer_create_free 1 256 256 0 1 sample_world w1 fb)
    as (w2 & H); [vm_compute; discriminate|exact E|].
  exists fb, w1, w2. split; [exact E|exact H].
Defined.

(** Two swaps of the sample framebuffer. *)
Lemma grate_framebuffer_swap_twice_witness :
  grate_framebuffer_swap (grate_framebuffer_swap sample_fb) = sample_fb
  ∧ (fb_back sample_fb = None → grate_framebuffer_swap sample_fb = sample_fb).
Proof.
  apply (grate_framebuffer_swap_twice sample_fb). by exists 0.
Defined.

(** After a swap, the sample framebuffer saves its former front buffer 0. *)
Lemma grate_framebuffer_save_after_swap_witness :
  grate_framebuffer_save (grate_framebuffer_swap sample_fb) "frame.png"
  = (Some 0, "frame.png").
Proof.
  apply (grate_framebuffer_save_after_swap sample_fb "frame.png").
  by exists 0.
Defined.

(** The back buffer of a single-buffered framebuffer. *)
Lemma grate_framebuffer_data_single_buffered_witness :
  ∃ fb w1,
    grate_framebuffer_create 1 256 256 0 0 sample_world = Some (Some fb, w1)
    ∧ ∀ w2, grate_framebuffer_data (λ _, None) fb false w2 = None.
Proof.
  destruct (sample_framebuffer 0 (or_introl eq_refl)) as (fb & w1 & E).
  exists fb, w1. split; [exact E|].
  exact (grate_framebuffer_data_single_buffered 1 (λ _, None) 256 256 0 0
           sample_world w1 fb eq_refl E).
Defined.

(** Five bytes in rows of two, with the offset prefix and the characters. *)
Lemma print_hexdump_rows_witness :
  print_hexdump sample_isprint sample_pointer 10 true DUMP_PREFIX_OFFSET
    (Some ">") 0 sample_buffer 5 2 true
  = Done [">00000000: 41 42 | AB" +:+ nl;
          ">00000002: 43 00 | C." +:+ nl;
          ">00000004: ff    | ." +:+ nl]
  ∧ concat ((hexdump_rows 3 sample_buffer 5 2 0).*2) = take 5 sample_buffer
  ∧ Forall (λ r : Z * list Byte.byte, 0 < length r.2 ≤ 2)
      (hexdump_rows 3 sample_buffer 5 2 0).
Proof.
  apply (print_hexdump_rows sample_isprint sample_pointer 10
           DUMP_PREFIX_OFFSET (Some ">") 0 sample_buffer 5 2 true);
    [lia|lia|vm_compute; discriminate|simpl; lia|vm_compute; lia].
Defined.

(** On the same dump the separator follows 16 characters on each line. *)
Lemma print_hexdump_separator_aligned_witness :
  ∃ lines,
    print_hexdump sample_isprint sample_pointer 10 true DUMP_PREFIX_OFFSET
      (Some ">") 0 sample_buffer 5 2 true = Done lines
    ∧ Forall (λ line, ∃ head tail,
        line = head +:+ " | " +:+ tail
        ∧ String.length head = 1 + 10 + (3 * 2 - 1)) lines.
Proof.
  apply (print_hexdump_separator_aligned sample_isprint sample_pointer 10
           DUMP_PREFIX_OFFSET (Some ">") 0 sample_buffer 5 2 true);
    [lia|lia|vm_compute; discriminate|simpl; lia|vm_compute; lia
    |discriminate].
Defined.

(** A dump with no column does not end within 1000 rounds. *)
Lemma print_hexdump_zero_columns_witness :
  print_hexdump sample_isprint sample_pointer 1000 true DUMP_PREFIX_NONE
    None 0 sample_buffer 5 0 false = OutOfFuel.
Proof.
  apply (print_hexdump_zero_columns sample_isprint sample_pointer 1000
           DUMP_PREFIX_NONE None 0 sample_buffer 5 false).
  lia.
Defined.
